(** * itdepends: dual-stream capture and realtime transcription client

    A shallow embedding of [src/itdepends/core/transcribe.py] and
    [src/itdepends/core/audio_capture.py].

    Modelling conventions.
    - Python [str] is a [string]; every [ascii] stands for one code point
      below 256.
    - Clock readings ([time.time()]) are inputs, taken as rationals.
    - Audio samples (numpy float arrays) are lists of real numbers: the
      arithmetic is the exact one, rounding is not modelled.
    - Byte buffers are [list byte].
    - A [try ... except: pass] block is a function into [option]; [None]
      is the swallowed exception. *)

From Stdlib Require Import String Ascii Strings.Byte.
From Stdlib Require Import Bool Arith ZArith QArith Lia.
From Stdlib Require Import Reals Lra.
From Stdlib Require Import List.
Import ListNotations.

Close Scope Q_scope.
Close Scope string_scope.
Open Scope list_scope.

Set Implicit Arguments.

(** ** Python helpers *)

Module Py.

(** [str.isspace] on one code point: TAB..CR, FS..US, SPACE, NEL, NBSP. *)
Definition is_space_char (c : ascii) : bool :=
  let n := nat_of_ascii c in
  ((9 <=? n) && (n <=? 13) || (28 <=? n) && (n <=? 32)
   || (n =? 133) || (n =? 160))%nat.

Fixpoint all_space (s : string) : bool :=
  match s with
  | EmptyString => true
  | String c s' => is_space_char c && all_space s'
  end.

(** [s.isspace()]: at least one character and all of them whitespace. *)
Definition isspace (s : string) : bool :=
  match s with
  | EmptyString => false
  | _ => all_space s
  end.

(** Truth value of a [str]. *)
Definition truthy_str (s : string) : bool :=
  match s with
  | EmptyString => false
  | _ => true
  end.

Fixpoint lstrip (s : string) : string :=
  match s with
  | EmptyString => EmptyString
  | String c s' => if is_space_char c then lstrip s' else s
  end.

Fixpoint rstrip (s : string) : string :=
  match s with
  | EmptyString => EmptyString
  | String c s' =>
      match rstrip s' with
      | EmptyString => if is_space_char c then EmptyString else String c EmptyString
      | r => String c r
      end
  end.

(** [s.strip()]. *)
Definition strip (s : string) : string := rstrip (lstrip s).

(** [sep.join(l)]. *)
Definition join (sep : string) (l : list string) : string := String.concat sep l.

(** [collections.deque(maxlen=n).append(x)]: push right, then drop the
    leftmost element when the bound is exceeded. *)
Definition deque_append {A : Type} (maxlen : nat) (x : A) (d : list A) : list A :=
  let d' := d ++ [x] in
  if (maxlen <? length d')%nat then tl d' else d'.

(** The last [n] elements of a list. *)
Definition lastn {A : Type} (n : nat) (l : list A) : list A :=
  skipn (length l - n) l.

(** [l[:k]] and [l[k:]] for a Python integer [k] (negative counts from the
    end, out-of-range indices are clamped). *)
Definition slice_index {A : Type} (k : Z) (l : list A) : nat :=
  if (k <? 0)%Z then Z.to_nat (Z.max 0 (Z.of_nat (length l) + k)) else Z.to_nat k.

Definition take {A : Type} (k : Z) (l : list A) : list A := firstn (slice_index k l) l.
Definition drop {A : Type} (k : Z) (l : list A) : list A := skipn (slice_index k l) l.

(** [a > b] on clock readings. *)
Definition Qgt_bool (a b : Q) : bool := negb (Qle_bool a b).

(** [int(q)]: truncation toward zero. *)
Definition int_of_Q (q : Q) : Z := Z.quot (Qnum q) (Zpos (Qden q)).

End Py.

(** ** JSON values as [json.loads] returns them

    [JObj] lists the entries of the decoded dict, each key once. *)

#[local] Unset Elimination Schemes.
Inductive json : Type :=
| JNull
| JBool (b : bool)
| JNum (q : Q)
| JStr (s : string)
| JArr (l : list json)
| JObj (kv : list (string * json)).
#[local] Set Elimination Schemes.

Module Json.

(** Truth value of a decoded JSON value. *)
Definition truthy (j : json) : bool :=
  match j with
  | JNull => false
  | JBool b => b
  | JNum q => negb (Qeq_bool q 0)
  | JStr s => Py.truthy_str s
  | JArr l => match l with [] => false | _ => true end
  | JObj kv => match kv with [] => false | _ => true end
  end.

(** [d.get(key, default)] on the entries of a dict. *)
Definition lookup (key : string) (default : json) (kv : list (string * json)) : json :=
  match find (fun p => String.eqb (fst p) key) kv with
  | Some (_, v) => v
  | None => default
  end.

(** [j.get(key, default)]: only a dict has [get]; anything else raises. *)
Definition get (key : string) (default : json) (j : json) : option json :=
  match j with
  | JObj kv => Some (lookup key default kv)
  | _ => None
  end.

(** [j.strip()]: only a [str] has [strip]. *)
Definition str_strip (j : json) : option string :=
  match j with
  | JStr s => Some (Py.strip s)
  | _ => None
  end.

(** [j == s] for a [str] literal [s]. *)
Definition eq_str (j : json) (s : string) : bool :=
  match j with
  | JStr t => String.eqb t s
  | _ => false
  end.

End Json.

(** ** transcribe.py *)

Module Transcriber.

Definition SAMPLERATE : Z := 24000.
Definition MAX_CHUNKS : nat := 1000.

(** Messages the client puts on the duplex connection. *)
Inductive client_event : Type :=
| SessionUpdate
| AudioAppend (audio : list byte)
| AudioCommit
| AudioClear.

(** What a method does to the outside world, in program order.  [WsRecv]
    marks the point where the receive loop takes the next inbound message;
    [WsSend] is a call of [websocket.send] (a failing send is swallowed by
    [_send_message], not by [_initialize_transcription_session]);
    [Callback] is a call of the transcript callback, whether it returns or
    raises. *)
Inductive effect : Type :=
| HttpPost
| ThreadStart
| WsConnect (bearer : option json)
| WsRecv (message : option json)
| WsSend (m : client_event)
| WsClose
| CaptureStart
| CaptureStop
| Sleep (seconds : Q)
| Callback (text : string).

(** The fields of [RealtimeTranscriber].  [websocket] is [true] while
    [self._websocket] holds a connection and [false] while it is [None];
    [has_callback] tells whether [self._callback] is set. *)
Record state : Type := mkState {
  full_transcript : string;
  chunks : list (string * Q);
  running : bool;
  websocket : bool;
  session_data : option json;
  client_secret : option json;
  processing_start_time : option Q;
  has_callback : bool
}.

(** [__init__]. *)
Definition init (callback : bool) : state :=
  {| full_transcript := ""; chunks := []; running := false; websocket := false;
     session_data := None; client_secret := None;
     processing_start_time := None; has_callback := callback |}.

Definition set_transcript (ft : string) (ch : list (string * Q)) (st : state) : state :=
  {| full_transcript := ft; chunks := ch; running := running st;
     websocket := websocket st; session_data := session_data st;
     client_secret := client_secret st;
     processing_start_time := processing_start_time st;
     has_callback := has_callback st |}.

Definition set_running (b : bool) (st : state) : state :=
  {| full_transcript := full_transcript st; chunks := chunks st; running := b;
     websocket := websocket st; session_data := session_data st;
     client_secret := client_secret st;
     processing_start_time := processing_start_time st;
     has_callback := has_callback st |}.

Definition set_websocket (b : bool) (st : state) : state :=
  {| full_transcript := full_transcript st; chunks := chunks st;
     running := running st; websocket := b; session_data := session_data st;
     client_secret := client_secret st;
     processing_start_time := processing_start_time st;
     has_callback := has_callback st |}.

Definition set_session_data (d : option json) (st : state) : state :=
  {| full_transcript := full_transcript st; chunks := chunks st;
     running := running st; websocket := websocket st; session_data := d;
     client_secret := client_secret st;
     processing_start_time := processing_start_time st;
     has_callback := has_callback st |}.

Definition set_client_secret (c : option json) (st : state) : state :=
  {| full_transcript := full_transcript st; chunks := chunks st;
     running := running st; websocket := websocket st;
     session_data := session_data st; client_secret := c;
     processing_start_time := processing_start_time st;
     has_callback := has_callback st |}.

Definition set_processing_start_time (t : option Q) (st : state) : state :=
  {| full_transcript := full_transcript st; chunks := chunks st;
     running := running st; websocket := websocket st;
     session_data := session_data st; client_secret := client_secret st;
     processing_start_time := t; has_callback := has_callback st |}.

(** *** Transcript store *)

(** [_update_transcript(new_text)], with [now] the value of [time.time()]:
    the fields and the effects when the call ends.  The store is written
    before the callback is called, so both are the same whether the callback
    returns or raises; [update_transcript_raises] tells how the call ends. *)
Definition update_transcript (new_text : string) (now : Q) (st : state)
  : state * list effect :=
  if negb (Py.truthy_str new_text) || Py.isspace new_text then (st, [])
  else
    let ch := Py.deque_append MAX_CHUNKS (new_text, now) (chunks st) in
    let ft := if Py.truthy_str (full_transcript st)
              then (full_transcript st ++ " " ++ new_text)%string
              else new_text in
    (set_transcript ft ch st,
     if has_callback st then [Callback new_text] else []).

(** Whether [_update_transcript(new_text)] ends by an exception: it does when
    the callback is called and raises.  [callback_raises] tells what the
    callback does when it is called. *)
Definition update_transcript_raises (callback_raises : bool) (new_text : string)
  (st : state) : bool :=
  negb (negb (Py.truthy_str new_text) || Py.isspace new_text)
  && has_callback st && callback_raises.

Definition get_full_transcript (st : state) : string := full_transcript st.

Definition get_chunks (st : state) : list (string * Q) := chunks st.

(** [get_recent_chunks(seconds)], with [now] the value of [time.time()]. *)
Definition get_recent_chunks (seconds : Q) (now : Q) (st : state)
  : list (string * Q) :=
  filter (fun p => Qle_bool (now - seconds) (snd p)) (chunks st).

(** A run of [_update_transcript] calls, one per [(text, time)] pair. *)
Definition append_all (inputs : list (string * Q)) (st : state) : state :=
  fold_left (fun s p => fst (update_transcript (fst p) (snd p) s)) inputs st.

(** The texts [_update_transcript] does not reject. *)
Definition accepted (p : string * Q) : bool :=
  negb (negb (Py.truthy_str (fst p)) || Py.isspace (fst p)).

(** *** Outbound audio *)

(** [_send_message(message)]. *)
Definition send_message (m : client_event) (st : state) : list effect :=
  if websocket st then [WsSend m] else [].

(** [_process_audio_bytes(audio_bytes)]; [loop_open] tells whether the event
    loop exists and is not closed.  The base64 text of the message is left
    as the bytes it encodes. *)
Definition process_audio_bytes (loop_open : bool) (audio_bytes : list byte)
  (st : state) : list effect :=
  if negb (websocket st) || negb (running st) then []
  else if loop_open then send_message (AudioAppend audio_bytes) st
  else [].

(** [manual_commit]. *)
Definition manual_commit (loop_open : bool) (st : state) : list effect :=
  if websocket st && loop_open then send_message AudioCommit st else [].

(** *** Inbound events *)

(** The [try] body of [_handle_message]; [message] is the result of
    [json.loads] ([None] when it raises), [now] the value of [time.time()],
    [callback_raises] what the transcript callback does if it is called.
    [None] is an exception raised before any field is assigned.  An
    exception of the callback comes after the store is written and before
    the marker is cleared: the result then is what was done up to it. *)
Definition handle_message_body (callback_raises : bool) (message : option json)
  (now : Q) (st : state) : option (state * list effect) :=
  match message with
  | None => None
  | Some data =>
      match Json.get "type" (JStr "") data with
      | None => None
      | Some event_type =>
          if Json.eq_str event_type "input_audio_buffer.speech_stopped" then
            Some (st, send_message AudioCommit st)
          else if Json.eq_str event_type "input_audio_buffer.committed" then
            Some (set_processing_start_time (Some now) st, [])
          else if Json.eq_str event_type
                    "conversation.item.input_audio_transcription.completed" then
            match Json.get "transcript" (JStr "") data with
            | None => None
            | Some t =>
                match Json.str_strip t with
                | None => None
                | Some transcript =>
                    if Py.truthy_str transcript then
                      let '(st1, eff) := update_transcript transcript now st in
                      if update_transcript_raises callback_raises transcript st
                      then Some (st1, eff)
                      else Some (set_processing_start_time None st1, eff)
                    else Some (set_processing_start_time None st, [])
                end
            end
          else if Json.eq_str event_type
                    "conversation.item.input_audio_transcription.delta" then
            match Json.get "delta" (JStr "") data with
            | None => None
            | Some d =>
                match Json.str_strip d with
                | None => None
                | Some _ => Some (st, [])
                end
            end
          else if Json.eq_str event_type
                    "conversation.item.input_audio_transcription.failed" then
            Some (set_processing_start_time None st, [])
          else Some (st, [])
      end
  end.

(** [_handle_message]: an exception is swallowed. *)
Definition handle_message (callback_raises : bool) (message : option json)
  (now : Q) (st : state) : state * list effect :=
  match handle_message_body callback_raises message now st with
  | Some r => r
  | None => (st, [])
  end.

(** *** Stall watchdog *)

(** One pass of the [while self._running] loop of
    [_check_processing_timeout], [now] being the value of [time.time()];
    [None] when the loop ends. *)
Definition check_processing_timeout (now : Q) (st : state)
  : option (state * list effect) :=
  if running st then
    match processing_start_time st with
    | Some t =>
        if negb (Qeq_bool t 0) && Py.Qgt_bool (now - t) 5 then
          Some (set_processing_start_time None st,
                send_message AudioClear st ++ [Sleep 1])
        else Some (st, [Sleep 1])
    | None => Some (st, [Sleep 1])
    end
  else None.

(** *** Connection *)

(** [_initialize_transcription_session]. *)
Definition initialize_transcription_session (st : state) : list effect :=
  match session_data st with
  | Some d => if Json.truthy d then [WsSend SessionUpdate] else []
  | None => []
  end.

(** What the event loop of one connection does next: take an inbound
    message, or run one pass of the watchdog task.  With an inbound message
    comes what the transcript callback does if handling the message calls it:
    return or raise. *)
Inductive loop_event : Type :=
| Inbound (message : option json) (now : Q) (callback_raises : bool)
| WatchdogTick (now : Q).

Definition event_time (e : loop_event) : Q :=
  match e with
  | Inbound _ now _ => now
  | WatchdogTick now => now
  end.

Definition loop_step (e : loop_event) (st : state) : state * list effect :=
  match e with
  | Inbound message now callback_raises =>
      let '(st1, eff) := handle_message callback_raises message now st in
      (st1, WsRecv message :: eff)
  | WatchdogTick now =>
      match check_processing_timeout now st with
      | Some r => r
      | None => (st, [])
      end
  end.

(** The receive loop [async for message in websocket] interleaved with the
    watchdog task, in the order the event loop runs them. *)
Fixpoint event_loop (events : list loop_event) (st : state) : state * list effect :=
  match events with
  | [] => (st, [])
  | e :: rest =>
      let '(st1, eff1) := loop_step e st in
      let '(st2, eff2) := event_loop rest st1 in
      (st2, eff1 ++ eff2)
  end.

(** How opening the connection goes: [websockets.connect] raises; or it
    succeeds and the [send] of the session update, which nothing guards,
    raises; or the connection is established. *)
Inductive connect_outcome : Type :=
| ConnectRaises
| UpdateRaises
| Established.

(** Whether [_initialize_transcription_session] ends by an exception: it does
    when it sends the update and that [send] raises. *)
Definition initialize_raises (connected : connect_outcome) (st : state) : bool :=
  match connected, initialize_transcription_session st with
  | UpdateRaises, _ :: _ => true
  | _, _ => false
  end.

(** [_websocket_handler]; [connected] tells how opening the connection goes.
    An exception of the session update leaves the [async with] block, which
    closes the connection, before the capture is started; the [finally]
    clause runs in every case. *)
Definition websocket_handler (connected : connect_outcome)
  (events : list loop_event) (st : state) : state * list effect :=
  let connect := WsConnect (client_secret st) in
  match connected with
  | ConnectRaises => (set_websocket false st, [connect; CaptureStop])
  | _ =>
      let st1 := set_websocket true st in
      if initialize_raises connected st1 then
        (set_websocket false st1,
         connect :: initialize_transcription_session st1 ++ [WsClose; CaptureStop])
      else
        let '(st2, eff) := event_loop events st1 in
        (set_websocket false st2,
         connect :: initialize_transcription_session st1 ++ [CaptureStart]
           ++ eff ++ [WsClose; CaptureStop])
  end.

(** *** Session bootstrap *)

(** What the session-creation exchange yields: [requests.post] raises, or
    a response with a status code and a body ([None] when [response.json()]
    raises). *)
Inductive http_outcome : Type :=
| PostRaises
| PostResponse (status : Z) (body : option json).

(** [Response.raise_for_status] of the [requests] library: an error for the
    status codes 400 to 599. *)
Definition raise_for_status (status : Z) : bool :=
  ((400 <=? status) && (status <? 600))%Z.

(** [_create_transcription_session]. *)
Definition create_transcription_session (outcome : http_outcome) (st : state)
  : state * bool :=
  match outcome with
  | PostRaises => (st, false)
  | PostResponse status body =>
      if raise_for_status status then (st, false)
      else
        match body with
        | None => (st, false)
        | Some data =>
            let st1 := set_session_data (Some data) st in
            match Json.get "client_secret" (JObj []) data with
            | None => (st1, false)
            | Some cs =>
                match Json.get "value" JNull cs with
                | None => (st1, false)
                | Some v =>
                    let st2 := set_client_secret (Some v) st1 in
                    if negb (Json.truthy v) then (st2, false) else (st2, true)
                end
            end
        end
  end.

(** [start]. *)
Definition start (outcome : http_outcome) (st : state) : state * list effect :=
  if negb (running st) then
    let '(st1, ok) := create_transcription_session outcome st in
    if negb ok then (st1, [HttpPost])
    else (set_running true st1, [HttpPost; ThreadStart])
  else (st, []).

(** The credential a response body carries, if any: the value under
    ["client_secret"]["value"], when it is there and not empty. *)
Definition credential_of (body : option json) : option json :=
  match body with
  | Some (JObj kv) =>
      match Json.lookup "client_secret" (JObj []) kv with
      | JObj kv2 =>
          let v := Json.lookup "value" JNull kv2 in
          if Json.truthy v then Some v else None
      | _ => None
      end
  | _ => None
  end.

(** Bootstrap failure as the specification words it: a network error, a
    response outside 2xx, or a response without the credential. *)
Definition bootstrap_fails_as_specified (outcome : http_outcome) : Prop :=
  match outcome with
  | PostRaises => True
  | PostResponse status body =>
      ~ (200 <= status < 300)%Z \/ credential_of body = None
  end.

(** Bootstrap failure as the code decides it: a network error, a response
    [raise_for_status] rejects, or a response without the credential. *)
Definition bootstrap_fails (outcome : http_outcome) : Prop :=
  match outcome with
  | PostRaises => True
  | PostResponse status body =>
      (400 <= status < 600)%Z \/ credential_of body = None
  end.

Definition bootstrap_as_specified (outcome : http_outcome) (st : state) : Prop :=
  snd (create_transcription_session outcome st) = false <->
  bootstrap_fails_as_specified outcome.

(** Agreement on the fields no step of the event loop assigns. *)
Definition same_connection (st st' : state) : Prop :=
  websocket st' = websocket st /\ running st' = running st /\
  has_callback st' = has_callback st /\ session_data st' = session_data st /\
  client_secret st' = client_secret st.

(** The marker, when set, holds a clock reading after the epoch. *)
Definition marker_after_epoch (st : state) : Prop :=
  forall t, processing_start_time st = Some t -> (0 < t)%Q.

(** Event classification used to state the protocol properties. *)
Definition event_type_is (name : string) (message : option json) : bool :=
  match message with
  | Some (JObj kv) => Json.eq_str (Json.lookup "type" (JStr "") kv) name
  | _ => false
  end.

Definition is_speech_stopped (message : option json) : bool :=
  event_type_is "input_audio_buffer.speech_stopped" message.

Definition is_commit (e : effect) : bool :=
  match e with
  | WsSend AudioCommit => true
  | _ => false
  end.

Definition is_clear (e : effect) : bool :=
  match e with
  | WsSend AudioClear => true
  | _ => false
  end.

Definition speech_stopped_event (e : loop_event) : bool :=
  match e with
  | Inbound message _ _ => is_speech_stopped message
  | WatchdogTick _ => false
  end.

(** An inbound event that resets the marker when it arrives in [st]: a
    failure event, or a completion event whose transcript is a string and
    during which the callback does not raise. *)
Definition resets_marker (callback_raises : bool) (message : option json)
  (st : state) : bool :=
  event_type_is "conversation.item.input_audio_transcription.failed" message
  || match message with
     | Some (JObj kv) =>
         event_type_is "conversation.item.input_audio_transcription.completed" message
         && match Json.lookup "transcript" (JStr "") kv with
            | JStr s => negb (update_transcript_raises callback_raises (Py.strip s) st)
            | _ => false
            end
     | _ => false
     end.

(** The full text read as the space-separated join of the chunks the ring
    holds. *)
Definition full_text_of_held (st : state) : Prop :=
  get_full_transcript st = Py.join " " (map fst (get_chunks st)).

End Transcriber.

(** ** audio_capture.py *)

Module AudioCapture.

(** [AudioConfig] (the [dtype] string is not used by the code below). *)
Record AudioConfig : Type := mkConfig {
  sample_rate : Z;
  channels : Z;
  block_size : Z;
  mic_volume : R;
  system_volume : R;
  chunk_size : Z;
  capture_duration_seconds : Q
}.

(** The dataclass defaults. *)
Definition default_config : AudioConfig :=
  {| sample_rate := 24000; channels := 1; block_size := 1024;
     mic_volume := 0.8; system_volume := 0.8; chunk_size := 1024;
     capture_duration_seconds := 0.5%Q |}.

(** The configuration [RealtimeTranscriber.__init__] builds. *)
Definition transcriber_config : AudioConfig :=
  {| sample_rate := Transcriber.SAMPLERATE; channels := 1; block_size := 512;
     mic_volume := 1; system_volume := 1; chunk_size := 1024;
     capture_duration_seconds := 0.5%Q |}.

(** *** Device recording *)

(** What [device.record(...)] can do: raise (also when the device is [None]),
    return [None], a one-dimensional array, or a frames-by-channels array. *)
Inductive device_result : Type :=
| RecordRaises
| RecordNone
| RecordMono (data : list R)
| RecordFrames (rows : list (list R)).

(** [data[:, 0]]: the first channel of every frame; [None] is the
    [IndexError] of an array without channels. *)
Fixpoint left_channel (rows : list (list R)) : option (list R) :=
  match rows with
  | [] => Some []
  | row :: rest =>
      match row, left_channel rest with
      | x :: _, Some col => Some (x :: col)
      | _, _ => None
      end
  end.

(** [record_device_to_memory]: the samples and the success flag. *)
Definition record_device_to_memory (r : device_result) : list R * bool :=
  match r with
  | RecordRaises => ([], false)
  | RecordNone => ([], false)
  | RecordMono data =>
      if (0 <? length data)%nat then (data, true) else ([], false)
  | RecordFrames rows =>
      if (0 <? length rows)%nat then
        match left_channel rows with
        | Some data => (data, true)
        | None => ([], false)
        end
      else ([], false)
  end.

(** *** Signal conditioning *)

Definition scale (k : R) (audio : list R) : list R :=
  map (fun x => (x * k)%R) audio.

(** [np.mean]. *)
Definition mean (l : list R) : R :=
  (fold_right Rplus 0 l / INR (length l))%R.

(** [np.sqrt(np.mean(audio ** 2))]. *)
Definition rms (audio : list R) : R :=
  sqrt (mean (map (fun x => (x * x)%R) audio)).

(** The factor [normalize_audio_level] applies for a given RMS. *)
Definition normalization_factor (target_rms r : R) : R :=
  let f := (target_rms / r)%R in
  if Rlt_dec 2 f then (2 + (f - 2) * 0.3)%R else f.

Definition normalize_audio_level (audio_data : list R) (target_rms : R) : list R :=
  if (length audio_data =? 0)%nat then audio_data
  else
    let r := rms audio_data in
    if Rlt_dec 0 r then
      let normalized_audio := scale (normalization_factor target_rms r) audio_data in
      map (fun x => (tanh (x * 0.9) * 0.8)%R) normalized_audio
    else audio_data.

(** [np.linspace(start, stop, num)]. *)
Definition linspace (start stop : R) (num : nat) : list R :=
  match num with
  | O => []
  | S O => [start]
  | S div =>
      map (fun i => (start + INR i * ((stop - start) / INR div))%R) (seq 0 num)
  end.

(** [a[from:to] *= w], the rest of [a] untouched. *)
Definition imul_slice (from to : nat) (w : list R) (a : list R) : list R :=
  firstn from a
  ++ map (fun p => (fst p * snd p)%R) (combine (firstn (to - from) (skipn from a)) w)
  ++ skipn to a.

(** The fade length [apply_crossfade] settles on. *)
Definition fade_samples (len : nat) (sample_rate : Z) (fade_duration_ms : Q) : Z :=
  let fs := Py.int_of_Q (fade_duration_ms * inject_Z sample_rate / 1000)%Q in
  if (Z.of_nat len <=? 2 * fs)%Z then (Z.of_nat len / 4)%Z else fs.

Definition apply_crossfade (audio : list R) (sample_rate : Z) (fade_duration_ms : Q)
  : list R :=
  if (length audio =? 0)%nat then audio
  else
    let fs := fade_samples (length audio) sample_rate fade_duration_ms in
    if (fs <=? 0)%Z then audio
    else
      let n := Z.to_nat fs in
      let faded_audio := imul_slice 0 n (linspace 0 1 n) audio in
      imul_slice (length audio - n) (length audio) (linspace 1 0 n) faded_audio.

(** [np.pad(a, (0, n - len(a)), "constant")]. *)
Definition pad_to (n : nat) (a : list R) : list R :=
  a ++ repeat 0%R (n - length a).

(** [np.max] of a non-empty array. *)
Definition amax (l : list R) : R :=
  match l with
  | [] => 0%R
  | x :: t => fold_left Rmax t x
  end.

(** The weighted sum and the [tanh] compression of [mix_audio_streams]. *)
Definition weighted_sum (mic sys : list R) (mic_ratio system_ratio : R) : list R :=
  map (fun p => (fst p * mic_ratio + snd p * system_ratio)%R) (combine mic sys).

Definition soft_compress (mixed : list R) : list R :=
  map (fun x => (tanh (x * 0.8) * 0.85)%R) mixed.

Definition mix_audio_streams (mic_audio system_audio : list R)
  (mic_ratio system_ratio : R) : list R :=
  if (length mic_audio =? 0)%nat && (length system_audio =? 0)%nat then []
  else if (length mic_audio =? 0)%nat then scale system_ratio system_audio
  else if (length system_audio =? 0)%nat then scale mic_ratio mic_audio
  else
    let max_length := Nat.max (length mic_audio) (length system_audio) in
    let mic_audio :=
      if (length mic_audio <? max_length)%nat
      then pad_to max_length mic_audio else mic_audio in
    let system_audio :=
      if (length system_audio <? max_length)%nat
      then pad_to max_length system_audio else system_audio in
    let mixed_audio :=
      soft_compress (weighted_sum mic_audio system_audio mic_ratio system_ratio) in
    let peak := amax (map Rabs mixed_audio) in
    if Rlt_dec 0.95 peak then scale (0.95 / peak)%R mixed_audio
    else mixed_audio.

(** The reading of [normalize] as "the output has the target RMS", for the
    buffers whose required factor stays at or below the knee. *)
Definition normalize_reaches_target (audio : list R) (target_rms : R) : Prop :=
  audio <> [] -> rms audio <> 0%R -> (target_rms / rms audio <= 2)%R ->
  rms (normalize_audio_level audio target_rms) = target_rms.

(** The reading of the fade end points: with a positive fade length [n]
    the first fade sample of the output (index 0) is 0 and the last fade
    sample of the ramp (index [n - 1]) is at full amplitude, that is, equal
    to the input sample. *)
Definition fade_endpoints (audio : list R) (sample_rate : Z) (fade_duration_ms : Q)
  : Prop :=
  let n := Z.to_nat (fade_samples (length audio) sample_rate fade_duration_ms) in
  let out := apply_crossfade audio sample_rate fade_duration_ms in
  (0 < n)%nat ->
  nth 0 out 0%R = 0%R /\ nth (n - 1) out 0%R = nth (n - 1) audio 0%R.

(** *** Capture cycle *)

(** [_record_and_mix_chunk], given what the two devices deliver. *)
Definition record_and_mix_chunk (config : AudioConfig)
  (mic_device system_device : device_result) : option (list R) :=
  let '(mic_audio, mic_success) := record_device_to_memory mic_device in
  let '(system_audio, system_success) := record_device_to_memory system_device in
  if negb mic_success && negb system_success then None
  else
    let mic_audio :=
      if mic_success && (0 <? length mic_audio)%nat
      then apply_crossfade mic_audio (sample_rate config) 10%Q else mic_audio in
    let system_audio :=
      if system_success && (0 <? length system_audio)%nat
      then apply_crossfade system_audio (sample_rate config) 10%Q
      else system_audio in
    let mixed_audio :=
      mix_audio_streams
        (if mic_success then mic_audio else [])
        (if system_success then system_audio else [])
        (mic_volume config) (system_volume config) in
    if (0 <? length mixed_audio)%nat
    then Some (apply_crossfade mixed_audio (sample_rate config) 5%Q)
    else None.

(** Conversion of a float to a 16-bit integer: truncation toward zero, then
    the low 16 bits. *)
Definition Rtrunc (x : R) : Z :=
  if Rle_dec 0 x then Int_part x else (- Int_part (- x))%Z.

Definition astype_int16 (x : R) : Z :=
  ((Rtrunc x + 32768) mod 65536 - 32768)%Z.

Definition byte_of_Z (z : Z) : byte :=
  match Byte.of_N (Z.to_N (z mod 256)) with
  | Some b => b
  | None => x00
  end.

(** The two bytes of a 16-bit integer, low byte first. *)
Definition int16_bytes (z : Z) : list byte :=
  [byte_of_Z z; byte_of_Z (z / 256)].

(** [(mixed_audio * 32767).astype(np.int16).tobytes()]. *)
Definition pcm16_bytes (mixed_audio : list R) : list byte :=
  flat_map (fun x => int16_bytes (astype_int16 (x * 32767)%R)) mixed_audio.

(** *** Chunk dispatcher *)

(** The fields of [AudioCapture] the dispatcher uses. *)
Record capture : Type := mkCapture {
  config : AudioConfig;
  mixed_buffer : list byte;
  has_transcriber : bool
}.

Definition new_capture (cfg : AudioConfig) (transcriber : bool) : capture :=
  {| config := cfg; mixed_buffer := []; has_transcriber := transcriber |}.

Definition set_mixed_buffer (buf : list byte) (c : capture) : capture :=
  {| config := config c; mixed_buffer := buf; has_transcriber := has_transcriber c |}.

(** The [while len(buffer) >= chunk_size] loop: the residual buffer and the
    frames sliced off, oldest first.  [None]: the loop is still running after
    [fuel] iterations. *)
Fixpoint drain (fuel : nat) (chunk_size : Z) (buffer : list byte)
  : option (list byte * list (list byte)) :=
  if (Z.of_nat (length buffer) >=? chunk_size)%Z then
    match fuel with
    | O => None
    | S fuel' =>
        let chunk := Py.take chunk_size buffer in
        match drain fuel' chunk_size (Py.drop chunk_size buffer) with
        | Some (rest, chunks) => Some (rest, chunk :: chunks)
        | None => None
        end
    end
  else Some (buffer, []).

(** [_send_mixed_audio_data(audio_bytes)].  [acquired] tells whether the lock
    was obtained within its timeout.  The result holds the frames passed to
    [transcriber._process_audio_bytes]. *)
Definition send_mixed_audio_data (fuel : nat) (audio_bytes : list byte)
  (acquired : bool) (c : capture) : option (capture * list (list byte)) :=
  if acquired then
    match drain fuel (chunk_size (config c)) (mixed_buffer c ++ audio_bytes) with
    | Some (rest, chunks) =>
        Some (set_mixed_buffer rest c, if has_transcriber c then chunks else [])
    | None => None
    end
  else Some (c, []).

(** One dispatch cycle per [(audio_bytes, acquired)] pair. *)
Fixpoint dispatch_cycles (fuel : nat) (inputs : list (list byte * bool))
  (c : capture) : option (capture * list (list byte)) :=
  match inputs with
  | [] => Some (c, [])
  | (audio_bytes, acquired) :: rest =>
      match send_mixed_audio_data fuel audio_bytes acquired c with
      | Some (c1, frames1) =>
          match dispatch_cycles fuel rest c1 with
          | Some (c2, frames2) => Some (c2, frames1 ++ frames2)
          | None => None
          end
      | None => None
      end
  end.

(** The number of bytes offered to the dispatcher by a run of cycles. *)
Definition offered (inputs : list (list byte * bool)) : nat :=
  list_sum (map (fun p => length (fst p)) inputs).

(** What reaches the dispatcher in one pass of [_continuous_capture]: the
    bytes handed to [_send_mixed_audio_data], if it is called at all. *)
Definition capture_bytes (cfg : AudioConfig)
  (mic_device system_device : device_result) : option (list byte) :=
  match record_and_mix_chunk cfg mic_device system_device with
  | Some mixed_audio =>
      if (0 <? length mixed_audio)%nat then Some (pcm16_bytes mixed_audio)
      else None
  | None => None
  end.

(** One pass of the [_continuous_capture] loop body. *)
Definition capture_cycle (fuel : nat) (mic_device system_device : device_result)
  (acquired : bool) (c : capture) : option (capture * list (list byte)) :=
  match capture_bytes (config c) mic_device system_device with
  | Some mixed_bytes => send_mixed_audio_data fuel mixed_bytes acquired c
  | None => Some (c, [])
  end.

(** The mic-only output as the scenario words it: normalize, then
    crossfade, then scale by the microphone ratio. *)
Definition mic_only_as_specified (cfg : AudioConfig) (mic : list R) : list R :=
  scale (mic_volume cfg)
    (apply_crossfade (normalize_audio_level mic 0.15) (sample_rate cfg) 10%Q).

Definition mic_only_cycle_as_specified (cfg : AudioConfig)
  (mic_device system_device : device_result) : Prop :=
  forall mic sys,
    record_device_to_memory mic_device = (mic, true) ->
    record_device_to_memory system_device = (sys, false) ->
    record_and_mix_chunk cfg mic_device system_device =
      Some (mic_only_as_specified cfg mic).

(** The silent-cycle scenario as worded: both recordings succeed with only
    zero samples, nothing reaches the dispatcher and no frame is released. *)
Definition silent_cycle_releases_nothing (fuel : nat) (c : capture)
  (mic sys : list R) : Prop :=
  mic <> [] -> sys <> [] -> Forall (eq 0%R) mic -> Forall (eq 0%R) sys ->
  match capture_bytes (config c) (RecordMono mic) (RecordMono sys) with
  | Some mixed_bytes => mixed_bytes = []
  | None => True
  end /\
  exists c', capture_cycle fuel (RecordMono mic) (RecordMono sys) true c = Some (c', []).

End AudioCapture.

(** ** The remaining methods of transcribe.py and audio_capture.py *)

Module Session.
Import Transcriber AudioCapture.

(** [RealtimeTranscriber.stop]; [loop_open] tells whether the event loop
    exists and is not closed.  Closing the connection is only scheduled, and
    joining the thread leaves no trace here. *)
Definition stop (loop_open : bool) (st : state) : state * list effect :=
  let st1 := set_running false st in
  (set_client_secret None (set_session_data None st1),
   CaptureStop :: (if websocket st1 && loop_open then [WsClose] else [])).

(** [np.clip(x, -1.0, 1.0)]. *)
Definition clip (x : R) : R := Rmin (Rmax x (-1)) 1.

(** [_process_audio_block(audio_data)]. *)
Definition process_audio_block (loop_open : bool) (audio_data : list R)
  (st : state) : list effect :=
  if negb (websocket st) || negb (running st) then []
  else
    let audio_bytes := pcm16_bytes (map clip audio_data) in
    if loop_open then send_message (AudioAppend audio_bytes) st else [].

(** [_send_mixed_audio_data] with the transcriber behind it: every frame cut
    from the buffer goes through [_process_audio_bytes]. *)
Definition send_to_transcriber (fuel : nat) (loop_open : bool)
  (audio_bytes : list byte) (acquired : bool) (c : capture) (st : state)
  : option (capture * list effect) :=
  match send_mixed_audio_data fuel audio_bytes acquired c with
  | Some (c', frames) =>
      Some (c', flat_map (fun chunk => process_audio_bytes loop_open chunk st) frames)
  | None => None
  end.

(** The passes [_continuous_capture] makes while the capture is running, one
    per triple of what the two devices deliver and whether the lock is
    obtained. *)
Fixpoint continuous_capture (fuel : nat)
  (cycles : list (device_result * device_result * bool)) (c : capture)
  : option (capture * list (list byte)) :=
  match cycles with
  | [] => Some (c, [])
  | (mic_device, system_device, acquired) :: rest =>
      match capture_cycle fuel mic_device system_device acquired c with
      | Some (c1, frames1) =>
          match continuous_capture fuel rest c1 with
          | Some (c2, frames2) => Some (c2, frames1 ++ frames2)
          | None => None
          end
      | None => None
      end
  end.

(** The chunks the passes hand to the dispatcher, with their lock flags. *)
Definition cycle_chunks (cfg : AudioConfig)
  (cycles : list (device_result * device_result * bool)) : list (list byte * bool) :=
  flat_map (fun cyc =>
              match capture_bytes cfg (fst (fst cyc)) (snd (fst cyc)) with
              | Some mixed_bytes => [(mixed_bytes, snd cyc)]
              | None => []
              end) cycles.

(** The loop of [_initialize_devices] that looks for the loopback of the
    default speaker.  [name_of mic] is [None] when reading [mic.name] raises,
    [speaker_name] is [None] when reading the speaker's name raises. *)
Fixpoint find_system_mic {D : Type} (name_of : D -> option string)
  (speaker_name : option string) (mics : list D) : option D :=
  match mics with
  | [] => None
  | mic :: rest =>
      match name_of mic, speaker_name with
      | Some a, Some b =>
          if String.eqb a b then Some mic
          else find_system_mic name_of speaker_name rest
      | _, _ => find_system_mic name_of speaker_name rest
      end
  end.

(** A sample within full scale. *)
Definition full_scale (x : R) : Prop := (-1 <= x <= 1)%R.

(** The texts and times of the held chunks, as [_update_transcript] accepts
    them. *)
Definition held_accepted (st : state) : Prop :=
  Forall (fun p => accepted p = true) (chunks st).

(** What a step may do to the transcript store: keep the ring within its
    bound, keep every held text an accepted one, and only add to the end of
    the full transcript. *)
Definition store_extends (st st' : state) : Prop :=
  ((length (chunks st) <= MAX_CHUNKS)%nat -> (length (chunks st') <= MAX_CHUNKS)%nat) /\
  (held_accepted st -> held_accepted st') /\
  exists suffix, full_transcript st' = (full_transcript st ++ suffix)%string.

(** The effects a run of the event loop can have. *)
Definition loop_effect (e : effect) : Prop :=
  match e with
  | WsRecv _ | WsSend AudioCommit | WsSend AudioClear | Sleep _ | Callback _ => True
  | _ => False
  end.

End Session.

(** ** counter.py *)

Module Counters.

(** Insertion-ordered [dict] with [str] keys: assigning to a held key keeps
    its place. *)
Fixpoint dict_set {V : Type} (k : string) (v : V) (d : list (string * V))
  : list (string * V) :=
  match d with
  | [] => [(k, v)]
  | (k', v') :: rest =>
      if String.eqb k' k then (k, v) :: rest else (k', v') :: dict_set k v rest
  end.

Fixpoint dict_get {V : Type} (k : string) (d : list (string * V)) : option V :=
  match d with
  | [] => None
  | (k', v') :: rest => if String.eqb k' k then Some v' else dict_get k rest
  end.

Definition keys {V : Type} (d : list (string * V)) : list string := map fst d.

(** [d.get(k, 0)]. *)
Definition value_of (k : string) (d : list (string * Z)) : Z :=
  match dict_get k d with
  | Some v => v
  | None => 0%Z
  end.

Section Manager.

(** The rule type, the callbacks, and the evaluator's verdict (a call to a
    remote model, taken to return). *)
Variables (Rule Fn : Type) (evaluate : string -> Rule -> bool).

Record CounterConfig : Type := mkCounterConfig {
  name : string;
  rule : Rule;
  description : string;
  callback : option Fn
}.

Record CounterManager : Type := mkManager {
  configs : list (string * CounterConfig);
  counters : list (string * Z);
  callbacks : list (string * Fn)
}.

(** [CounterManager.__init__]. *)
Definition empty : CounterManager :=
  {| configs := []; counters := []; callbacks := [] |}.

(** [add_counter(config)]. *)
Definition add_counter (config : CounterConfig) (m : CounterManager) : CounterManager :=
  {| configs := dict_set (name config) config (configs m);
     counters := dict_set (name config) 0%Z (counters m);
     callbacks := match callback config with
                  | Some fn => dict_set (name config) fn (callbacks m)
                  | None => callbacks m
                  end |}.

(** The loop of [process_text] over the items of [configs]: the counters, the
    [incremented] dict and the callback calls so far, in order.  [None] is
    the [KeyError] of [self.counters[name] += 1]. *)
Fixpoint process_items (text : string) (items : list (string * CounterConfig))
  (fns : list (string * Fn)) (cnt incremented : list (string * Z))
  (calls : list (Fn * string * Z))
  : option (list (string * Z) * list (string * Z) * list (Fn * string * Z)) :=
  match items with
  | [] => Some (cnt, incremented, calls)
  | (key, config) :: rest =>
      if evaluate text (rule config) then
        match dict_get key cnt with
        | None => None
        | Some v =>
            let cnt1 := dict_set key (v + 1)%Z cnt in
            let incremented1 := dict_set key (v + 1)%Z incremented in
            let calls1 :=
              match dict_get key fns with
              | Some fn => calls ++ [(fn, key, (v + 1)%Z)]
              | None => calls
              end in
            process_items text rest fns cnt1 incremented1 calls1
        end
      else process_items text rest fns cnt incremented calls
  end.

(** [process_text(text)]: the manager afterwards, the returned dict, and the
    callbacks called with their arguments. *)
Definition process_text (text : string) (m : CounterManager)
  : option (CounterManager * list (string * Z) * list (Fn * string * Z)) :=
  match process_items text (configs m) (callbacks m) (counters m) [] [] with
  | Some (cnt, incremented, calls) =>
      Some ({| configs := configs m; counters := cnt; callbacks := callbacks m |},
            incremented, calls)
  | None => None
  end.

(** [get_counter(name)]. *)
Definition get_counter (key : string) (m : CounterManager) : Z :=
  match dict_get key (counters m) with
  | Some v => v
  | None => 0%Z
  end.

(** [get_all_counters()]. *)
Definition get_all_counters (m : CounterManager) : list (string * Z) := counters m.

(** [reset_counter(name)]. *)
Definition reset_counter (key : string) (m : CounterManager) : CounterManager :=
  match dict_get key (counters m) with
  | Some _ =>
      {| configs := configs m; counters := dict_set key 0%Z (counters m);
         callbacks := callbacks m |}
  | None => m
  end.

(** [reset_all_counters()]. *)
Definition reset_all_counters (m : CounterManager) : CounterManager :=
  {| configs := configs m;
     counters := fold_left (fun d key => dict_set key 0%Z d) (keys (counters m))
                   (counters m);
     callbacks := callbacks m |}.

(** The operations a user of the manager can apply. *)
Inductive operation : Type :=
| OpAdd (config : CounterConfig)
| OpProcess (text : string)
| OpReset (key : string)
| OpResetAll.

(** One operation; a [KeyError] of [process_text] leaves the manager as it
    is found when the loop stops, which the run does not look at. *)
Definition apply_operation (op : operation) (m : CounterManager)
  : option CounterManager :=
  match op with
  | OpAdd config => Some (add_counter config m)
  | OpProcess text =>
      match process_text text m with
      | Some (m', _, _) => Some m'
      | None => None
      end
  | OpReset key => Some (reset_counter key m)
  | OpResetAll => Some (reset_all_counters m)
  end.

Fixpoint run_operations (ops : list operation) (m : CounterManager)
  : option CounterManager :=
  match ops with
  | [] => Some m
  | op :: rest =>
      match apply_operation op m with
      | Some m' => run_operations rest m'
      | None => None
      end
  end.

(** The counters a text matches, by name. *)
Definition matches (text : string) (key : string) (m : CounterManager) : bool :=
  match dict_get key (configs m) with
  | Some config => evaluate text (rule config)
  | None => false
  end.

(** The items of [configs] whose rule the text satisfies, and their names,
    in registration order. *)
Definition matched (text : string) (items : list (string * CounterConfig))
  : list (string * CounterConfig) :=
  filter (fun p => evaluate text (rule (snd p))) items.

Definition matching_names (text : string) (m : CounterManager) : list string :=
  filter (fun key => matches text key m) (keys (configs m)).

(** The manager's dicts agree: every counter has its configuration, under the
    same key and in the same place, each key once. *)
Definition well_formed (m : CounterManager) : Prop :=
  keys (configs m) = keys (counters m) /\ NoDup (keys (configs m)) /\
  Forall (fun p => name (snd p) = fst p) (configs m).

End Manager.

End Counters.

(** * Properties *)

Module TranscriptStore.
Import Transcriber.

Lemma append_assoc (a b c : string) :
  ((a ++ b) ++ c)%string = (a ++ (b ++ c))%string.
Proof. induction a as [|x a IH]; simpl; [reflexivity | now rewrite IH]. Qed.

Lemma join_snoc (l : list string) (x : string) :
  Py.join " " (l ++ [x]) =
  match l with
  | [] => x
  | _ => (Py.join " " l ++ " " ++ x)%string
  end.
Proof.
  unfold Py.join.
  induction l as [|a l IH]; [reflexivity|].
  destruct l as [|b l].
  - reflexivity.
  - change ((a :: b :: l) ++ [x]) with (a :: ((b :: l) ++ [x])).
    change (String.concat " " (a :: ((b :: l) ++ [x])))
      with (a ++ " " ++ String.concat " " ((b :: l) ++ [x]))%string.
    rewrite IH.
    change (String.concat " " (a :: b :: l))
      with (a ++ " " ++ String.concat " " (b :: l))%string.
    now rewrite !append_assoc.
Qed.

Lemma truthy_append (a b : string) :
  Py.truthy_str a = true -> Py.truthy_str (a ++ b)%string = true.
Proof. destruct a; [discriminate | reflexivity]. Qed.

(** A join of non-empty texts is empty only when there is no text. *)
Lemma truthy_join (l : list string) :
  Forall (fun s => Py.truthy_str s = true) l ->
  Py.truthy_str (Py.join " " l) = match l with [] => false | _ => true end.
Proof.
  intros H. destruct H as [|a l Ha Hl]; [reflexivity|].
  unfold Py.join. destruct l as [|b l]; [exact Ha|].
  change (String.concat " " (a :: b :: l))
    with (a ++ " " ++ String.concat " " (b :: l))%string.
  now apply truthy_append.
Qed.

Lemma lastn_snoc {A : Type} (n : nat) (x : A) (l : list A) :
  Py.deque_append n x (Py.lastn n l) = Py.lastn n (l ++ [x]).
Proof.
  unfold Py.deque_append, Py.lastn.
  rewrite !length_app, length_skipn. simpl length.
  destruct (Nat.ltb_spec n (length l - (length l - n) + 1)) as [Hlt|Hge].
  - assert (Hn : n <= length l) by lia.
    replace (length l + 1 - n) with (S (length l - n)) by lia.
    destruct (Nat.eq_dec n 0) as [->|Hpos].
    + rewrite Nat.sub_0_r, skipn_all.
      change (tl ([] ++ [x])) with (@nil A).
      symmetry. apply skipn_all2. rewrite length_app. simpl. lia.
    + rewrite skipn_app.
      replace (S (length l - n) - length l) with 0 by lia.
      simpl skipn at 2.
      assert (Hk : length l - n < length l) by lia.
      revert Hk. generalize (length l - n) as k. clear.
      induction l as [|a l IH]; intros k Hk; simpl in *; [lia|].
      destruct k as [|k]; [reflexivity|].
      simpl. apply IH. lia.
  - replace (length l - n) with 0 by lia.
    replace (length l + 1 - n) with 0 by lia.
    reflexivity.
Qed.

Lemma append_all_snoc (l : list (string * Q)) (p : string * Q) (st : state) :
  append_all (l ++ [p]) st =
  fst (update_transcript (fst p) (snd p) (append_all l st)).
Proof. unfold append_all. now rewrite fold_left_app. Qed.

Lemma accepted_truthy (l : list (string * Q)) :
  Forall (fun s => Py.truthy_str s = true) (map fst (filter accepted l)).
Proof.
  induction l as [|p l IH]; simpl; [constructor|].
  destruct (accepted p) eqn:E; [|exact IH].
  simpl. constructor; [|exact IH].
  unfold accepted in E. destruct (Py.truthy_str (fst p)); [reflexivity|discriminate].
Qed.

(** What the store holds after any run of appends: the full text is the
    join of every accepted text, the ring is the last [MAX_CHUNKS] of the
    accepted pairs. *)
Lemma append_all_spec (inputs : list (string * Q)) (cb : bool) :
  let st := append_all inputs (init cb) in
  get_full_transcript st = Py.join " " (map fst (filter accepted inputs)) /\
  get_chunks st = Py.lastn MAX_CHUNKS (filter accepted inputs).
Proof.
  induction inputs as [|p l IH] using rev_ind; [split; reflexivity|].
  cbv zeta in *. destruct IH as [IHt IHc].
  rewrite append_all_snoc, filter_app. cbn [filter].
  assert (Ha : accepted p =
               negb (negb (Py.truthy_str (fst p)) || Py.isspace (fst p)))
    by reflexivity.
  unfold update_transcript.
  destruct (negb (Py.truthy_str (fst p)) || Py.isspace (fst p)) eqn:E;
    rewrite Ha; cbn [negb fst].
  - rewrite !app_nil_r. now split.
  - unfold get_full_transcript, get_chunks in *. cbn [full_transcript chunks set_transcript].
    split.
    + rewrite map_app. cbn [map]. rewrite join_snoc, IHt.
      rewrite (truthy_join (accepted_truthy l)).
      now destruct (map fst (filter accepted l)).
    + rewrite IHc. destruct p as [t ts]. apply lastn_snoc.
Qed.

(** C1 (as stated, refuted): after 1001 appends the ring holds 1000 chunks
    while the full text still carries all 1001 texts, so the full text is not
    the join of the chunks still held. *)
Lemma full_text_not_join_of_held_after_eviction :
  let st := append_all (repeat ("a"%string, 0%Q) 1001) (init false) in
  length (get_chunks st) = MAX_CHUNKS /\
  String.length (get_full_transcript st) = 2001 /\
  ~ full_text_of_held st.
Proof.
  cbv zeta. split; [vm_compute; reflexivity|].
  split; [vm_compute; reflexivity|].
  intros H. apply (f_equal String.length) in H.
  apply Nat.eqb_eq in H.
  vm_compute in H. discriminate H.
Qed.

(** C1 (amended): for every run of appends the full text is the
    space-separated join of every accepted text, evicted or not; the ring
    holds the last [MAX_CHUNKS] accepted chunks; the full text is the join
    of the held chunks as long as no more than [MAX_CHUNKS] were accepted. *)
Theorem full_text_joins_every_accepted_chunk
  (inputs : list (string * Q)) (cb : bool) :
  let st := append_all inputs (init cb) in
  let kept := filter accepted inputs in
  get_full_transcript st = Py.join " " (map fst kept) /\
  get_chunks st = Py.lastn MAX_CHUNKS kept /\
  length (get_chunks st) = Nat.min MAX_CHUNKS (length kept) /\
  (length kept <= MAX_CHUNKS -> full_text_of_held st).
Proof.
  cbv zeta. destruct (append_all_spec inputs cb) as [Ht Hc].
  repeat split; try assumption.
  - rewrite Hc. unfold Py.lastn. rewrite length_skipn. lia.
  - intros Hle. unfold full_text_of_held. rewrite Ht, Hc.
    unfold Py.lastn. now replace (length (filter accepted inputs) - MAX_CHUNKS) with 0 by lia.
Qed.

Lemma full_text_joins_every_accepted_chunk_witness :
  full_text_of_held
    (append_all [("it"%string, 1%Q); (" "%string, 2%Q); ("depends"%string, 3%Q)]
       (init false)).
Proof.
  apply (full_text_joins_every_accepted_chunk
           [("it"%string, 1%Q); (" "%string, 2%Q); ("depends"%string, 3%Q)] false).
  unfold MAX_CHUNKS. simpl. lia.
Defined.

End TranscriptStore.

Module Dispatcher.
Import AudioCapture.

Section FrameSize.

Variable F : Z.
Hypothesis F_pos : (0 < F)%Z.

Lemma take_drop_pos (buf : list byte) :
  Py.take F buf = firstn (Z.to_nat F) buf /\
  Py.drop F buf = skipn (Z.to_nat F) buf.
Proof.
  unfold Py.take, Py.drop, Py.slice_index.
  destruct (Z.ltb_spec F 0); [lia | split; reflexivity].
Qed.

(** With a positive frame size the slicing loop stops within [length buffer]
    iterations; it cuts the buffer into full frames and a short residue. *)
Lemma drain_spec (fuel : nat) :
  forall buf : list byte,
    length buf <= fuel ->
    exists rest chunks,
      drain fuel F buf = Some (rest, chunks) /\
      Forall (fun f => Z.of_nat (length f) = F) chunks /\
      (Z.of_nat (length rest) < F)%Z /\
      buf = concat chunks ++ rest.
Proof.
  induction fuel as [|fuel IH]; intros buf Hfuel.
  - destruct buf; [|simpl in Hfuel; lia].
    exists [], []. simpl.
    destruct (Z.geb_spec 0 F); [lia|]. repeat split; [constructor | lia].
  - cbn [drain].
    destruct (Z.geb_spec (Z.of_nat (length buf)) F) as [Hge|Hlt].
    + destruct (take_drop_pos buf) as [Ht Hd]. rewrite Ht, Hd.
      destruct (IH (skipn (Z.to_nat F) buf)) as (rest & chunks & E & Hall & Hres & Hcat).
      { rewrite length_skipn. lia. }
      rewrite E. exists rest, (firstn (Z.to_nat F) buf :: chunks).
      split; [reflexivity|]. split; [|split; [exact Hres|]].
      * constructor; [|exact Hall]. rewrite length_firstn. lia.
      * cbn [concat]. rewrite <- app_assoc, <- Hcat. symmetry. apply firstn_skipn.
    + exists buf, []. repeat split; [constructor | lia].
Qed.

(** One dispatch cycle from any buffer. *)
Lemma send_spec (fuel : nat) (bytes : list byte) (acquired : bool) (c : capture) :
  chunk_size (config c) = F ->
  length (mixed_buffer c) + length bytes <= fuel ->
  exists c' frames,
    send_mixed_audio_data fuel bytes acquired c = Some (c', frames) /\
    config c' = config c /\ has_transcriber c' = has_transcriber c /\
    Forall (fun f => Z.of_nat (length f) = F) frames /\
    length (mixed_buffer c') <= length (mixed_buffer c) + length bytes /\
    (acquired = true -> (Z.of_nat (length (mixed_buffer c')) < F)%Z) /\
    (acquired = false -> c' = c /\ frames = []).
Proof.
  intros HF Hfuel. unfold send_mixed_audio_data. destruct acquired.
  - destruct (@drain_spec fuel (mixed_buffer c ++ bytes))
      as (rest & chunks & E & Hall & Hres & Hcat).
    { rewrite length_app. exact Hfuel. }
    rewrite HF, E. eexists _, _. split; [reflexivity|].
    cbn [config has_transcriber mixed_buffer set_mixed_buffer].
    split; [reflexivity|]. split; [reflexivity|].
    split; [destruct (has_transcriber c); [exact Hall | constructor]|].
    split.
    { apply (f_equal (@length byte)) in Hcat.
      rewrite !length_app in Hcat. lia. }
    split; [intros _; exact Hres | discriminate].
  - exists c, []. split; [reflexivity|].
    split; [reflexivity|]. split; [reflexivity|].
    split; [constructor|]. split; [lia|].
    split; [discriminate | intros _; split; reflexivity].
Qed.

Lemma dispatch_cycles_spec (inputs : list (list byte * bool)) :
  forall (fuel : nat) (c : capture),
    chunk_size (config c) = F ->
    (Z.of_nat (length (mixed_buffer c)) < F)%Z ->
    length (mixed_buffer c) + offered inputs <= fuel ->
    exists c' frames,
      dispatch_cycles fuel inputs c = Some (c', frames) /\
      Forall (fun f => Z.of_nat (length f) = F) frames /\
      (Z.of_nat (length (mixed_buffer c')) < F)%Z.
Proof.
  induction inputs as [|[bytes acquired] inputs IH]; intros fuel c HF Hinv Hfuel.
  - exists c, []. repeat split; [constructor | exact Hinv].
  - change (offered ((bytes, acquired) :: inputs))
      with (length bytes + offered inputs) in Hfuel.
    cbn [dispatch_cycles].
    destruct (@send_spec fuel bytes acquired c HF)
      as (c1 & f1 & E1 & Hcfg & _ & Hall1 & Hlen & Hacq & Hnot); [lia|].
    rewrite E1.
    destruct (IH fuel c1) as (c2 & f2 & E2 & Hall2 & Hres2).
    + now rewrite Hcfg.
    + destruct acquired; [now apply Hacq|].
      destruct Hnot as [-> _]; [reflexivity | exact Hinv].
    + lia.
    + rewrite E2. exists c2, (f1 ++ f2). repeat split; [|exact Hres2].
      apply Forall_app. now split.
Qed.

End FrameSize.

(** A frame size that is not positive never lets the slicing loop stop. *)
Lemma drain_diverges (F : Z) (fuel : nat) :
  (F <= 0)%Z -> forall buf : list byte, drain fuel F buf = None.
Proof.
  intros HF. induction fuel as [|fuel IH]; intros buf; cbn [drain];
    destruct (Z.geb_spec (Z.of_nat (length buf)) F); try lia; [reflexivity|].
  now rewrite IH.
Qed.

(** More fuel does not change a result. *)
Lemma drain_more_fuel (F : Z) (fuel : nat) :
  forall (buf : list byte) r,
    drain fuel F buf = Some r ->
    forall fuel', fuel <= fuel' -> drain fuel' F buf = Some r.
Proof.
  induction fuel as [|fuel IH]; intros buf r E fuel' Hle; cbn [drain] in E.
  - destruct fuel'; cbn [drain];
      destruct (Z.of_nat (length buf) >=? F)%Z; congruence.
  - destruct fuel' as [|fuel']; [lia|]. cbn [drain].
    destruct (Z.of_nat (length buf) >=? F)%Z; [|exact E].
    destruct (drain fuel F (Py.drop F buf)) as [[rest chunks]|] eqn:E1;
      [|discriminate].
    rewrite (IH _ _ E1 fuel') by lia. exact E.
Qed.

Lemma dispatch_cycles_more_fuel (inputs : list (list byte * bool)) :
  forall (fuel : nat) (c : capture) r,
    dispatch_cycles fuel inputs c = Some r ->
    forall fuel', fuel <= fuel' -> dispatch_cycles fuel' inputs c = Some r.
Proof.
  induction inputs as [|[bytes acquired] inputs IH]; intros fuel c r E fuel' Hle;
    cbn [dispatch_cycles] in *; [exact E|].
  destruct (send_mixed_audio_data fuel bytes acquired c) as [[c1 f1]|] eqn:E1;
    [|discriminate].
  assert (E1' : send_mixed_audio_data fuel' bytes acquired c = Some (c1, f1)).
  { unfold send_mixed_audio_data in *. destruct acquired; [|exact E1].
    destruct (drain fuel _ _) as [[rest chunks]|] eqn:Ed; [|discriminate].
    now rewrite (drain_more_fuel _ _ Ed Hle). }
  rewrite E1'.
  destruct (dispatch_cycles fuel inputs c1) as [[c2 f2]|] eqn:E2; [|discriminate].
  now rewrite (IH _ _ _ E2 fuel' Hle).
Qed.

(** The frames and the residue are the buffer, cut in order. *)
Lemma drain_concat (F : Z) (fuel : nat) :
  forall (buf rest : list byte) (chunks : list (list byte)),
    drain fuel F buf = Some (rest, chunks) -> concat chunks ++ rest = buf.
Proof.
  induction fuel as [|fuel IH]; intros buf rest chunks E; cbn [drain] in E.
  - destruct (Z.of_nat (length buf) >=? F)%Z; [discriminate|].
    now inversion E.
  - destruct (Z.of_nat (length buf) >=? F)%Z; [|now inversion E].
    destruct (drain fuel F (Py.drop F buf)) as [[r c]|] eqn:Ed; [|discriminate].
    inversion E; subst. cbn [concat]. rewrite <- app_assoc, (IH _ _ _ Ed).
    apply firstn_skipn.
Qed.

(** No byte taken under the lock is lost, duplicated or reordered: the
    frames forwarded, followed by the residue, are the chunks accepted. *)
Lemma dispatch_cycles_concat (inputs : list (list byte * bool)) :
  forall (fuel : nat) (c c' : capture) (frames : list (list byte)),
    has_transcriber c = true ->
    dispatch_cycles fuel inputs c = Some (c', frames) ->
    concat frames ++ mixed_buffer c'
    = mixed_buffer c ++ concat (map fst (filter snd inputs)).
Proof.
  induction inputs as [|[bytes acquired] inputs IH];
    intros fuel c c' frames Htr E; cbn [dispatch_cycles] in E.
  - inversion E; subst. cbn. now rewrite app_nil_r.
  - destruct (send_mixed_audio_data fuel bytes acquired c) as [[c1 f1]|] eqn:E1;
      [|discriminate].
    destruct (dispatch_cycles fuel inputs c1) as [[c2 f2]|] eqn:E2; [|discriminate].
    inversion E; subst. unfold send_mixed_audio_data in E1.
    cbn [filter snd]. destruct acquired.
    + destruct (drain fuel _ _) as [[rest chunks]|] eqn:Ed; [|discriminate].
      rewrite Htr in E1. inversion E1; subst.
      rewrite concat_app, <- app_assoc.
      rewrite (IH _ (set_mixed_buffer rest c) _ _ Htr E2).
      cbn [mixed_buffer set_mixed_buffer map concat fst].
      rewrite app_assoc, (drain_concat _ _ _ Ed). now rewrite <- app_assoc.
    + inversion E1; subst. cbn [concat app]. exact (IH _ _ _ _ Htr E2).
Qed.

(** C2: for every frame size [F > 0] and every run of dispatch cycles from
    the empty shared buffer, whatever the chunks appended and whether or not
    the lock is obtained, the run ends (with any fuel at least the number of
    bytes offered), every forwarded frame has length exactly [F], and the
    residual buffer is strictly shorter than [F]. *)
Theorem dispatcher_forwards_full_frames_only
  (cfg : AudioConfig) (transcriber : bool) (inputs : list (list byte * bool)) :
  (0 < chunk_size cfg)%Z ->
  exists c' frames,
    (forall fuel, offered inputs <= fuel ->
       dispatch_cycles fuel inputs (new_capture cfg transcriber) = Some (c', frames)) /\
    Forall (fun f => Z.of_nat (length f) = chunk_size cfg) frames /\
    (Z.of_nat (length (mixed_buffer c')) < chunk_size cfg)%Z.
Proof.
  intros HF.
  destruct (@dispatch_cycles_spec (chunk_size cfg) HF inputs (offered inputs)
              (new_capture cfg transcriber))
    as (c' & frames & E & Hall & Hres); [reflexivity | exact HF | simpl; lia |].
  exists c', frames. repeat split; [|exact Hall | exact Hres].
  intros fuel Hfuel. exact (dispatch_cycles_more_fuel _ _ E Hfuel).
Qed.

Lemma dispatcher_forwards_full_frames_only_witness :
  let inputs := [([x01; x02; x03], true); ([x04; x05], false);
                 ([x06; x07; x08; x09; x0a; x0b], true)] in
  exists c' frames,
    (forall fuel, offered inputs <= fuel ->
       dispatch_cycles fuel inputs (new_capture default_config true) = Some (c', frames)) /\
    Forall (fun f => Z.of_nat (length f) = 1024%Z) frames /\
    (Z.of_nat (length (mixed_buffer c')) < 1024)%Z.
Proof.
  intros inputs.
  apply (@dispatcher_forwards_full_frames_only default_config true inputs).
  reflexivity.
Defined.

(** A run with frames of four bytes: the chunk offered while the lock is
    held elsewhere is dropped, the others are cut into full frames. *)
Example dispatch_three_chunks :
  let cfg := mkConfig 24000 1 1024 0.8 0.8 4 0.5%Q in
  dispatch_cycles 11
    [([x01; x02; x03], true); ([x04; x05], false);
     ([x06; x07; x08; x09; x0a; x0b], true)]
    (new_capture cfg true)
  = Some (set_mixed_buffer [x0b] (new_capture cfg true),
          [[x01; x02; x03; x06]; [x07; x08; x09; x0a]]).
Proof. reflexivity. Qed.

End Dispatcher.

Module Signal.
Import AudioCapture.
Local Open Scope R_scope.

(** **** Facts about [tanh] *)

Lemma cosh_pos (x : R) : 0 < cosh x.
Proof. unfold cosh. pose proof (exp_pos x). pose proof (exp_pos (- x)). lra. Qed.

Lemma tanh_bounds (x : R) : -1 < tanh x < 1.
Proof.
  unfold tanh, Rdiv.
  pose proof (cosh_pos x) as Hc.
  pose proof (Rinv_0_lt_compat _ Hc) as Hi.
  assert (H1 : cosh x * / cosh x = 1) by (apply Rinv_r; lra).
  assert (Hs : - cosh x < sinh x < cosh x).
  { unfold sinh, cosh. pose proof (exp_pos x). pose proof (exp_pos (- x)). lra. }
  split; nra.
Qed.

Lemma Rabs_tanh_lt_1 (x : R) : Rabs (tanh x) < 1.
Proof. apply Rabs_def1; apply tanh_bounds. Qed.

Lemma tanh_0 : tanh 0 = 0.
Proof. unfold tanh. rewrite sinh_0. unfold Rdiv. apply Rmult_0_l. Qed.

(** A numeric enclosure used for the default target level. *)
Lemma tanh_0135 : 0 < tanh 0.135 < 0.1875.
Proof.
  unfold tanh, Rdiv.
  pose proof (cosh_pos 0.135) as Hc.
  pose proof (Rinv_0_lt_compat _ Hc) as Hi.
  assert (H1 : cosh 0.135 * / cosh 0.135 = 1) by (apply Rinv_r; lra).
  assert (He : exp 0.135 * exp (Ropp 0.135) = 1).
  { rewrite <- exp_plus. replace (0.135 + Ropp 0.135) with 0 by lra. apply exp_0. }
  pose proof (exp_ineq1_le 0.135) as Hu.
  pose proof (exp_ineq1_le (Ropp 0.135)) as Hl.
  pose proof (exp_pos 0.135) as Hp. pose proof (exp_pos (Ropp 0.135)) as Hn.
  assert (Hu' : 0.865 * exp 0.135 <= 1) by nra.
  assert (Hl' : 1.135 * exp (Ropp 0.135) <= 1) by nra.
  assert (Hs : 0 < sinh 0.135 /\ sinh 0.135 < 0.1875 * cosh 0.135).
  { unfold sinh, cosh. split; lra. }
  destruct Hs as [Hs1 Hs2]. split; nra.
Qed.

(** **** Level normalization *)

Lemma length_eqb_0 {A : Type} (l : list A) :
  l <> [] -> (length l =? 0)%nat = false.
Proof. destruct l; [congruence | reflexivity]. Qed.


Lemma sum_squares_scale (k : R) (l : list R) :
  fold_right Rplus 0 (map (fun x => x * x) (scale k l)) =
  k * k * fold_right Rplus 0 (map (fun x => x * x) l).
Proof.
  unfold scale. induction l as [|x l IH]; cbn [map fold_right]; [lra|].
  rewrite IH. lra.
Qed.

Lemma sum_squares_nonneg (l : list R) :
  0 <= fold_right Rplus 0 (map (fun x => x * x) l).
Proof.
  induction l as [|x l IH]; cbn [map fold_right]; [lra|]. nra.
Qed.

Lemma mean_squares_nonneg (l : list R) :
  l <> [] -> 0 <= mean (map (fun x => x * x) l).
Proof.
  intros Hl. unfold mean. rewrite length_map.
  assert (0 < INR (length l)).
  { apply lt_0_INR. destruct l; [congruence | simpl; lia]. }
  apply Rmult_le_pos; [apply sum_squares_nonneg|].
  left. now apply Rinv_0_lt_compat.
Qed.

(** Scaling a buffer scales its RMS. *)
Lemma rms_scale (k : R) (l : list R) :
  l <> [] -> rms (scale k l) = Rabs k * rms l.
Proof.
  intros Hl. unfold rms, mean.
  rewrite sum_squares_scale. unfold scale at 1. rewrite !length_map.
  unfold Rdiv. rewrite Rmult_assoc.
  rewrite sqrt_mult; [ | nra | ].
  - f_equal. apply sqrt_Rsqr_abs.
  - pose proof (mean_squares_nonneg Hl) as H.
    unfold mean, Rdiv in H. now rewrite length_map in H.
Qed.

Lemma rms_zeros (l : list R) : Forall (fun x => x = 0) l -> rms l = 0.
Proof.
  intros Hz. unfold rms, mean.
  replace (fold_right Rplus 0 (map (fun x => x * x) l)) with 0.
  - unfold Rdiv. rewrite Rmult_0_l. apply sqrt_0.
  - induction Hz as [|x l Hx _ IH]; cbn [map fold_right]; [reflexivity|].
    rewrite <- IH, Hx. lra.
Qed.

Lemma rms_nonneg (l : list R) : 0 <= rms l.
Proof. apply sqrt_pos. Qed.

(** C5 (as stated, refuted): the one-sample buffer [[1]] has RMS 1, needs
    the factor 0.15 (below the knee), and comes out as
    [tanh 0.135 * 0.8 < 0.15]: the output RMS is not the target. *)
Lemma normalize_output_rms_is_not_target :
  ~ normalize_reaches_target [1] 0.15.
Proof.
  assert (Hr : rms [1] = 1).
  { unfold rms, mean. cbn [map fold_right length INR].
    replace ((1 * 1 + 0) / 1) with 1 by lra. apply sqrt_1. }
  intros H. unfold normalize_reaches_target in H.
  rewrite Hr in H. specialize (H ltac:(discriminate) ltac:(lra) ltac:(lra)).
  unfold normalize_audio_level in H. cbn [length Nat.eqb] in H.
  rewrite Hr in H. destruct (Rlt_dec 0 1) as [_|]; [|lra].
  unfold normalization_factor in H.
  destruct (Rlt_dec 2 (0.15 / 1)) as [|_]; [lra|].
  cbn [scale map] in H.
  replace (1 * (0.15 / 1) * 0.9) with 0.135 in H by lra.
  unfold rms, mean in H. cbn [map fold_right length INR] in H.
  pose proof tanh_0135 as [Hlo Hhi].
  set (y := tanh 0.135 * 0.8) in *.
  replace ((y * y + 0) / 1) with (y * y) in H by lra.
  rewrite sqrt_square in H; subst y; nra.
Qed.

(** C5 (amended): on a non-empty buffer with non-zero RMS the code scales by
    [target / rms] (which brings the RMS to the target), or by the knee
    [2 + (target / rms - 2) * 0.3] when that factor exceeds 2, and then
    passes every sample through the soft limiter [tanh (x * 0.9) * 0.8], so
    every output sample is below 0.8 in absolute value; an all-zero buffer
    is returned unchanged. *)
Theorem normalize_scales_then_soft_limits (audio : list R) (target_rms : R) :
  (audio <> [] -> 0 < rms audio ->
   let f := normalization_factor target_rms (rms audio) in
   normalize_audio_level audio target_rms =
     map (fun x => tanh (x * 0.9) * 0.8) (scale f audio) /\
   (target_rms / rms audio <= 2 ->
      f = target_rms / rms audio /\
      (0 <= target_rms -> rms (scale f audio) = target_rms)) /\
   (2 < target_rms / rms audio -> f = 2 + (target_rms / rms audio - 2) * 0.3) /\
   Forall (fun y => Rabs y < 0.8) (normalize_audio_level audio target_rms)) /\
  (Forall (fun x => x = 0) audio -> normalize_audio_level audio target_rms = audio).
Proof.
  split.
  - intros Hne Hpos f.
    assert (Heq : normalize_audio_level audio target_rms =
                  map (fun x => tanh (x * 0.9) * 0.8) (scale f audio)).
    { unfold normalize_audio_level. rewrite (length_eqb_0 Hne).
      destruct (Rlt_dec 0 (rms audio)); [reflexivity | contradiction]. }
    split; [exact Heq|]. split; [|split].
    + intros Hle.
      assert (Hf : f = target_rms / rms audio).
      { unfold f, normalization_factor.
        destruct (Rlt_dec 2 (target_rms / rms audio)); [lra | reflexivity]. }
      split; [exact Hf|]. intros Ht.
      rewrite (rms_scale _ Hne), Hf, Rabs_pos_eq.
      * field. lra.
      * apply Rmult_le_pos; [exact Ht|]. left. now apply Rinv_0_lt_compat.
    + intros Hgt. unfold f, normalization_factor.
      destruct (Rlt_dec 2 (target_rms / rms audio)); [reflexivity | lra].
    + rewrite Heq. apply Forall_map, Forall_forall. intros x _.
      rewrite Rabs_mult, (Rabs_pos_eq 0.8) by lra.
      pose proof (Rabs_tanh_lt_1 (x * 0.9)). nra.
  - intros Hz. unfold normalize_audio_level.
    destruct (length audio =? 0)%nat; [reflexivity|].
    rewrite (rms_zeros Hz). destruct (Rlt_dec 0 0); [lra | reflexivity].
Qed.

Lemma normalize_scales_then_soft_limits_witness :
  Forall (fun y => Rabs y < 0.8) (normalize_audio_level [1] 0.15) /\
  normalize_audio_level [0; 0; 0] 0.15 = [0; 0; 0].
Proof.
  split.
  - apply (normalize_scales_then_soft_limits [1] 0.15); [discriminate|].
    apply sqrt_lt_R0. unfold mean. simpl. lra.
  - apply (normalize_scales_then_soft_limits [0; 0; 0] 0.15).
    repeat constructor.
Defined.

(** **** Edge crossfade *)

Lemma length_linspace (a b : R) (n : nat) : length (linspace a b n) = n.
Proof.
  destruct n as [|[|k]]; [reflexivity | reflexivity |].
  unfold linspace. now rewrite length_map, length_seq.
Qed.

Lemma linspace_nth (a b : R) (n i : nat) :
  (2 <= n)%nat -> (i < n)%nat ->
  nth i (linspace a b n) 0 = a + INR i * ((b - a) / INR (n - 1)).
Proof.
  intros Hn Hi. destruct n as [|[|k]]; [lia | lia |].
  unfold linspace.
  set (f := fun j : nat => a + INR j * ((b - a) / INR (S k))).
  rewrite (nth_indep _ 0 (f 0%nat)) by (rewrite length_map, length_seq; lia).
  rewrite map_nth, seq_nth by lia. unfold f.
  now replace (S (S k) - 1)%nat with (S k) by lia.
Qed.

Lemma length_imul_slice (from to : nat) (w a : list R) :
  (from <= to)%nat -> (to <= length a)%nat -> length w = (to - from)%nat ->
  length (imul_slice from to w a) = length a.
Proof.
  intros H1 H2 Hw. unfold imul_slice.
  rewrite !length_app, length_map, length_combine, !length_firstn, !length_skipn.
  lia.
Qed.

Lemma nth_mul_combine (x w : list R) :
  forall (k : nat) (d : R),
    length x = length w -> (k < length x)%nat ->
    nth k (map (fun p : R * R => fst p * snd p) (combine x w)) d =
    nth k x d * nth k w 0.
Proof.
  revert w. induction x as [|a x IH]; intros [|b w] k d Hl Hk;
    simpl in Hl, Hk; try lia.
  destruct k as [|k]; [reflexivity|].
  cbn [combine map nth]. apply IH; lia.
Qed.

(** Pointwise reading of [a[from:to] *= w]. *)
Lemma imul_slice_nth (from to : nat) (w a : list R) (i : nat) (d : R) :
  (from <= to)%nat -> (to <= length a)%nat -> length w = (to - from)%nat ->
  nth i (imul_slice from to w a) d =
  if ((from <=? i) && (i <? to))%nat
  then nth i a d * nth (i - from) w 0
  else nth i a d.
Proof.
  intros H1 H2 Hw. unfold imul_slice.
  assert (Lf : length (firstn from a) = from) by (rewrite length_firstn; lia).
  assert (Lm : length (map (fun p : R * R => fst p * snd p)
                         (combine (firstn (to - from) (skipn from a)) w))
               = (to - from)%nat).
  { rewrite length_map, length_combine, length_firstn, length_skipn. lia. }
  destruct (Nat.leb_spec from i) as [Hfi|Hfi]; cbn [andb].
  - rewrite app_nth2 by lia. rewrite Lf.
    destruct (Nat.ltb_spec i to) as [Hit|Hit].
    + rewrite app_nth1 by lia.
      rewrite nth_mul_combine
        by (rewrite length_firstn, length_skipn; lia).
      rewrite nth_firstn.
      destruct (Nat.ltb_spec (i - from) (to - from)); [|lia].
      rewrite nth_skipn. now replace (from + (i - from))%nat with i by lia.
    + rewrite app_nth2 by lia. rewrite Lm, nth_skipn.
      f_equal. lia.
  - rewrite app_nth1 by lia. rewrite nth_firstn.
    destruct (Nat.ltb_spec i from); [reflexivity | lia].
Qed.

(** A positive fade length leaves the two ramps disjoint. *)
Lemma fade_samples_fit (len : nat) (sample_rate : Z) (fade_duration_ms : Q) :
  (2 * fade_samples len sample_rate fade_duration_ms <= Z.of_nat len)%Z.
Proof.
  unfold fade_samples.
  set (fs := Py.int_of_Q _).
  destruct (Z.leb_spec (Z.of_nat len) (2 * fs)) as [Hle|Hgt]; [|lia].
  pose proof (Z.mul_div_le (Z.of_nat len) 4 ltac:(lia)). lia.
Qed.

(** The output of [apply_crossfade], sample by sample, for a positive fade
    length [n]: the first [n] samples are weighted by [linspace 0 1 n], the
    last [n] by [linspace 1 0 n], the others are kept. *)
Lemma apply_crossfade_nth (audio : list R) (sample_rate : Z) (fade_duration_ms : Q)
  (i : nat) :
  let len := length audio in
  let n := Z.to_nat (fade_samples len sample_rate fade_duration_ms) in
  (0 < n)%nat ->
  nth i (apply_crossfade audio sample_rate fade_duration_ms) 0 =
  if (i <? n)%nat then nth i audio 0 * nth i (linspace 0 1 n) 0
  else if ((len - n <=? i) && (i <? len))%nat
       then nth i audio 0 * nth (i - (len - n)) (linspace 1 0 n) 0
       else nth i audio 0.
Proof.
  intros len n Hn.
  pose proof (fade_samples_fit len sample_rate fade_duration_ms) as Hfit.
  assert (H2n : (2 * n <= len)%nat) by (unfold n; lia).
  unfold apply_crossfade. fold len.
  destruct (Nat.eqb_spec len 0) as [H0|_]; [lia|].
  destruct (Z.leb_spec (fade_samples len sample_rate fade_duration_ms) 0);
    [unfold n in Hn; lia|].
  fold n.
  rewrite imul_slice_nth;
    [ | lia
      | rewrite length_imul_slice; rewrite ?length_linspace; unfold len in *; lia
      | rewrite length_linspace; lia ].
  rewrite imul_slice_nth;
    [ | lia | unfold len in *; lia | rewrite length_linspace; lia ].
  cbn [Nat.leb andb]. rewrite Nat.sub_0_r.
  destruct (Nat.ltb_spec i n) as [Hin|Hin].
  - destruct (Nat.leb_spec (len - n) i); [lia | reflexivity].
  - reflexivity.
Qed.

Lemma length_apply_crossfade (audio : list R) (sample_rate : Z) (fade_duration_ms : Q) :
  length (apply_crossfade audio sample_rate fade_duration_ms) = length audio.
Proof.
  pose proof (fade_samples_fit (length audio) sample_rate fade_duration_ms) as Hfit.
  unfold apply_crossfade.
  destruct (length audio =? 0)%nat; [reflexivity|].
  destruct (Z.leb_spec (fade_samples (length audio) sample_rate fade_duration_ms) 0);
    [reflexivity|].
  rewrite length_imul_slice;
    [ | lia | rewrite length_imul_slice; rewrite ?length_linspace; lia
      | rewrite length_linspace; lia ].
  apply length_imul_slice; [lia | lia | rewrite length_linspace; lia].
Qed.

Lemma apply_crossfade_noop (audio : list R) (sample_rate : Z) (fade_duration_ms : Q) :
  Z.to_nat (fade_samples (length audio) sample_rate fade_duration_ms) = 0%nat ->
  apply_crossfade audio sample_rate fade_duration_ms = audio.
Proof.
  intros Hn. unfold apply_crossfade.
  destruct (length audio =? 0)%nat; [reflexivity|].
  destruct (Z.leb_spec (fade_samples (length audio) sample_rate fade_duration_ms) 0);
    [reflexivity | lia].
Qed.

(** Samples outside both ramps are kept. *)
Lemma apply_crossfade_interior (audio : list R) (sample_rate : Z) (fade_duration_ms : Q)
  (i : nat) :
  let n := Z.to_nat (fade_samples (length audio) sample_rate fade_duration_ms) in
  (n <= i < length audio - n)%nat ->
  nth i (apply_crossfade audio sample_rate fade_duration_ms) 0 = nth i audio 0.
Proof.
  intros n Hi. destruct (Nat.eq_dec n 0) as [H0|Hpos].
  - now rewrite apply_crossfade_noop.
  - rewrite apply_crossfade_nth by (fold n; lia). fold n.
    destruct (Nat.ltb_spec i n); [lia|].
    destruct (Nat.leb_spec (length audio - n) i); [lia | reflexivity].
Qed.

(** A zero sample stays zero. *)
Lemma apply_crossfade_zero_sample (audio : list R) (sample_rate : Z)
  (fade_duration_ms : Q) (i : nat) :
  nth i audio 0 = 0 ->
  nth i (apply_crossfade audio sample_rate fade_duration_ms) 0 = 0.
Proof.
  intros Hz.
  destruct (Nat.eq_dec
              (Z.to_nat (fade_samples (length audio) sample_rate fade_duration_ms)) 0)
    as [H0|Hpos].
  - now rewrite apply_crossfade_noop.
  - rewrite apply_crossfade_nth by lia. rewrite Hz.
    repeat match goal with |- context [if ?b then _ else _] => destruct b end; lra.
Qed.

Lemma apply_crossfade_zeros (n : nat) (sample_rate : Z) (fade_duration_ms : Q) :
  apply_crossfade (repeat 0 n) sample_rate fade_duration_ms = repeat 0 n.
Proof.
  apply (nth_ext _ _ 0 0); [apply length_apply_crossfade|].
  intros i _. rewrite apply_crossfade_zero_sample; now rewrite nth_repeat.
Qed.

(** A four-sample buffer at 24 kHz: the fade length is 1, the only fade
    sample is zeroed and the last sample is kept. *)
Lemma apply_crossfade_four_ones :
  fade_samples 4 24000 10 = 1%Z /\
  apply_crossfade [1; 1; 1; 1] 24000 10 = [1 * 0; 1; 1; 1 * 1].
Proof.
  assert (Hfs : fade_samples 4 24000 10 = 1%Z) by (vm_compute; reflexivity).
  split; [exact Hfs|].
  unfold apply_crossfade. cbn [length Nat.eqb]. rewrite Hfs.
  reflexivity.
Qed.

(** C9 (as stated, refuted): a buffer of four ones has the positive fade
    length 1; its single fade sample comes out as 0, not at full
    amplitude. *)
Lemma fade_of_length_one_has_no_full_amplitude_sample :
  ~ fade_endpoints [1; 1; 1; 1] 24000 10.
Proof.
  unfold fade_endpoints. cbn [length].
  destruct apply_crossfade_four_ones as [-> ->].
  change (Z.to_nat 1) with 1%nat. cbn [Nat.sub nth].
  intros H. destruct (H ltac:(lia)) as [_ H1]. lra.
Qed.

(** C9 (amended): [apply_crossfade] returns an empty buffer as it is; the
    fade length is [int(fade_ms * rate / 1000)] for a buffer longer than
    twice that, and a quarter of the buffer length (rounded down) for a
    buffer of at most twice that; the length is kept and a fade length of
    zero changes nothing; with a fade length [n >= 2] the first [n] samples
    are weighted by [i / (n - 1)] and the last [n] by [1 - i / (n - 1)], the
    others are kept, so the first fade sample is 0, the last sample of the
    fade-in ramp and the first of the fade-out ramp are at full amplitude
    and the last sample is 0; with a fade length of 1 the first sample is
    zeroed and all others are kept. *)
Theorem crossfade_linear_ramps (audio : list R) (sample_rate : Z) (fade_duration_ms : Q) :
  let len := length audio in
  let fs0 := Py.int_of_Q (fade_duration_ms * inject_Z sample_rate / 1000)%Q in
  let n := Z.to_nat (fade_samples len sample_rate fade_duration_ms) in
  let out := apply_crossfade audio sample_rate fade_duration_ms in
  apply_crossfade [] sample_rate fade_duration_ms = [] /\
  ((2 * fs0 < Z.of_nat len)%Z ->
     fade_samples len sample_rate fade_duration_ms = fs0) /\
  ((Z.of_nat len <= 2 * fs0)%Z ->
     fade_samples len sample_rate fade_duration_ms = (Z.of_nat len / 4)%Z) /\
  length out = len /\
  (n = 0%nat -> out = audio) /\
  ((2 <= n)%nat ->
     (forall i, (i < n)%nat ->
        nth i out 0 = nth i audio 0 * (INR i / INR (n - 1)) /\
        nth (len - n + i) out 0 =
          nth (len - n + i) audio 0 * (1 - INR i / INR (n - 1))) /\
     (forall i, (n <= i < len - n)%nat -> nth i out 0 = nth i audio 0) /\
     nth 0 out 0 = 0 /\
     nth (n - 1) out 0 = nth (n - 1) audio 0 /\
     nth (len - n) out 0 = nth (len - n) audio 0 /\
     nth (len - 1) out 0 = 0) /\
  (n = 1%nat ->
     nth 0 out 0 = 0 /\
     forall i, (1 <= i)%nat -> nth i out 0 = nth i audio 0).
Proof.
  intros len fs0 n out.
  pose proof (fade_samples_fit len sample_rate fade_duration_ms) as Hfit.
  assert (H2n : (2 * n <= len)%nat) by (unfold n; lia).
  split; [reflexivity|].
  split; [intros H; unfold fade_samples; fold fs0;
          destruct (Z.leb_spec (Z.of_nat len) (2 * fs0)); [lia | reflexivity]|].
  split; [intros H; unfold fade_samples; fold fs0;
          destruct (Z.leb_spec (Z.of_nat len) (2 * fs0)); [reflexivity | lia]|].
  split; [apply length_apply_crossfade|].
  split.
  { intros Hn0. unfold out, apply_crossfade. fold len.
    destruct (len =? 0)%nat; [reflexivity|].
    destruct (Z.leb_spec (fade_samples len sample_rate fade_duration_ms) 0);
      [reflexivity | unfold n in Hn0; lia]. }
  assert (Hnth : forall i, (0 < n)%nat ->
            nth i out 0 =
            if (i <? n)%nat then nth i audio 0 * nth i (linspace 0 1 n) 0
            else if ((len - n <=? i) && (i <? len))%nat
                 then nth i audio 0 * nth (i - (len - n)) (linspace 1 0 n) 0
                 else nth i audio 0).
  { intros i Hn. exact (@apply_crossfade_nth audio sample_rate fade_duration_ms i Hn). }
  split.
  - intros Hn.
    assert (Hd : INR (n - 1) <> 0) by (apply not_0_INR; lia).
    assert (Hin : forall i, (i < n)%nat ->
              nth i out 0 = nth i audio 0 * (INR i / INR (n - 1))).
    { intros i Hi. rewrite Hnth by lia.
      destruct (Nat.ltb_spec i n); [|lia].
      rewrite linspace_nth by lia. f_equal. field. exact Hd. }
    assert (Hout : forall i, (i < n)%nat ->
              nth (len - n + i) out 0 =
              nth (len - n + i) audio 0 * (1 - INR i / INR (n - 1))).
    { intros i Hi. rewrite Hnth by lia.
      destruct (Nat.ltb_spec (len - n + i) n); [lia|].
      destruct (Nat.leb_spec (len - n) (len - n + i)); [|lia].
      destruct (Nat.ltb_spec (len - n + i) len); [|lia].
      cbn [andb]. replace (len - n + i - (len - n))%nat with i by lia.
      rewrite linspace_nth by lia. f_equal. field. exact Hd. }
    split; [intros i Hi; split; [now apply Hin | now apply Hout]|].
    split.
    { intros i Hi. rewrite Hnth by lia.
      destruct (Nat.ltb_spec i n); [lia|].
      destruct (Nat.leb_spec (len - n) i); [lia | reflexivity]. }
    split; [rewrite Hin by lia; cbn [INR]; unfold Rdiv; now rewrite Rmult_0_l, Rmult_0_r|].
    split; [rewrite Hin by lia; unfold Rdiv; rewrite Rinv_r by exact Hd; apply Rmult_1_r|].
    split.
    + specialize (Hout 0%nat ltac:(lia)). rewrite Nat.add_0_r in Hout.
      rewrite Hout. cbn [INR]. unfold Rdiv. rewrite Rmult_0_l. lra.
    + specialize (Hout (n - 1)%nat ltac:(lia)).
      replace (len - n + (n - 1))%nat with (len - 1)%nat in Hout by lia.
      rewrite Hout. unfold Rdiv. rewrite Rinv_r by exact Hd. lra.
  - intros Hn. split.
    + rewrite Hnth by lia. rewrite Hn. cbn [Nat.ltb Nat.leb linspace nth]. lra.
    + intros i Hi. rewrite Hnth by lia. rewrite Hn.
      destruct (Nat.ltb_spec i 1); [lia|].
      destruct (Nat.leb_spec (len - 1) i); cbn [andb]; [|reflexivity].
      destruct (Nat.ltb_spec i len); [|reflexivity].
      replace (i - (len - 1))%nat with 0%nat by lia.
      cbn [linspace nth]. lra.
Qed.

Lemma crossfade_linear_ramps_witness :
  let audio := [1; 1; 1; 1; 1; 1; 1; 1] in
  nth 0 (apply_crossfade audio 24000 10) 0 = 0 /\
  nth 1 (apply_crossfade audio 24000 10) 0 = 1 /\
  nth 7 (apply_crossfade audio 24000 10) 0 = 0.
Proof.
  intros audio.
  destruct (crossfade_linear_ramps audio 24000 10)
    as (_ & _ & _ & _ & _ & H & _).
  destruct H as (_ & _ & H0 & H1 & _ & H7); [vm_compute; lia|].
  split; [exact H0|]. split; [exact H1 | exact H7].
Defined.

(** **** Mixing *)

Lemma soft_compress_bounded (l : list R) :
  Forall (fun x => Rabs x <= 0.85) (soft_compress l).
Proof.
  unfold soft_compress. apply Forall_map, Forall_forall. intros x _.
  rewrite Rabs_mult, (Rabs_pos_eq 0.85) by lra.
  pose proof (Rabs_tanh_lt_1 (x * 0.8)). nra.
Qed.

Lemma fold_Rmax_le (b : R) (t : list R) :
  forall x, x <= b -> Forall (fun y => y <= b) t -> fold_left Rmax t x <= b.
Proof.
  induction t as [|y t IH]; intros x Hx Ht; cbn [fold_left]; [exact Hx|].
  inversion Ht; subst. apply IH; [now apply Rmax_lub | assumption].
Qed.

Lemma amax_abs_le (b : R) (l : list R) :
  0 <= b -> Forall (fun x => Rabs x <= b) l -> amax (map Rabs l) <= b.
Proof.
  intros Hb Hl. destruct l as [|x t]; [exact Hb|].
  inversion Hl; subst. cbn [map amax]. apply fold_Rmax_le; [assumption|].
  now apply Forall_map.
Qed.

Lemma pad_to_short (n : nat) (l : list R) :
  (if (length l <? n)%nat then pad_to n l else l) = pad_to n l.
Proof.
  destruct (Nat.ltb_spec (length l) n); [reflexivity|].
  unfold pad_to. replace (n - length l)%nat with 0%nat by lia.
  cbn [repeat]. now rewrite app_nil_r.
Qed.

(** C10: when both streams are non-empty every sample of the mix is within
    0.85 in absolute value, the peak of the compressed signal is at most
    0.85 and so never exceeds 0.95, and the result is the compressed signal
    itself: the [0.95 / peak] rescaling is never taken. *)
Theorem mix_output_within_soft_limit (mic sys : list R) (mic_ratio system_ratio : R) :
  mic <> [] -> sys <> [] ->
  let n := Nat.max (length mic) (length sys) in
  let compressed :=
    soft_compress (weighted_sum (pad_to n mic) (pad_to n sys) mic_ratio system_ratio) in
  Forall (fun x => Rabs x <= 0.85) (mix_audio_streams mic sys mic_ratio system_ratio) /\
  amax (map Rabs compressed) <= 0.85 /\
  ~ 0.95 < amax (map Rabs compressed) /\
  mix_audio_streams mic sys mic_ratio system_ratio = compressed.
Proof.
  intros Hm Hs n compressed.
  assert (Hpeak : amax (map Rabs compressed) <= 0.85).
  { apply amax_abs_le; [lra | apply soft_compress_bounded]. }
  assert (Heq : mix_audio_streams mic sys mic_ratio system_ratio = compressed).
  { unfold mix_audio_streams.
    rewrite (length_eqb_0 Hm), (length_eqb_0 Hs). cbn [andb].
    rewrite !pad_to_short. fold n. fold compressed.
    destruct (Rlt_dec 0.95 (amax (map Rabs compressed))); [lra | reflexivity]. }
  split; [rewrite Heq; apply soft_compress_bounded|].
  split; [exact Hpeak|]. split; [lra | exact Heq].
Qed.

Lemma mix_output_within_soft_limit_witness :
  Forall (fun x => Rabs x <= 0.85) (mix_audio_streams [1; -1; 1] [1; 1] 0.8 0.8) /\
  ~ 0.95 < amax (map Rabs
                   (soft_compress
                      (weighted_sum (pad_to 3 [1; -1; 1]) (pad_to 3 [1; 1]) 0.8 0.8))).
Proof.
  destruct (@mix_output_within_soft_limit [1; -1; 1] [1; 1] 0.8 0.8)
    as (H1 & _ & H3 & _); [discriminate | discriminate |].
  split; [exact H1 | exact H3].
Defined.

(** The mix of two silent streams is silent. *)
Lemma mix_zeros (a b : nat) (mic_ratio system_ratio : R) :
  (0 < a)%nat -> (0 < b)%nat ->
  mix_audio_streams (repeat 0 a) (repeat 0 b) mic_ratio system_ratio =
  repeat 0 (Nat.max a b).
Proof.
  intros Ha Hb. unfold mix_audio_streams. rewrite !repeat_length.
  destruct (Nat.eqb_spec a 0) as [|_]; [lia|].
  destruct (Nat.eqb_spec b 0) as [|_]; [lia|].
  cbn [andb]. set (n := Nat.max a b).
  assert (Hp : forall k, (k <= n)%nat ->
            (if (k <? n)%nat then pad_to n (repeat 0 k) else repeat 0 k)
            = repeat 0 n).
  { intros k Hk. destruct (Nat.ltb_spec k n).
    - unfold pad_to. rewrite repeat_length, <- repeat_app. f_equal. lia.
    - f_equal. lia. }
  rewrite !Hp by (unfold n; lia).
  assert (Hw : weighted_sum (repeat 0 n) (repeat 0 n) mic_ratio system_ratio
               = repeat 0 n).
  { unfold weighted_sum. clear. induction n as [|k IH]; [reflexivity|].
    cbn [repeat combine map fst snd]. rewrite IH. f_equal. lra. }
  assert (Hc : soft_compress (repeat 0 n) = repeat 0 n).
  { unfold soft_compress. rewrite map_repeat. f_equal.
    rewrite Rmult_0_l, tanh_0. lra. }
  rewrite Hw, Hc.
  destruct (Rlt_dec 0.95 (amax (map Rabs (repeat 0 n)))); [|reflexivity].
  unfold scale. rewrite map_repeat. f_equal. lra.
Qed.

End Signal.

Module CaptureLoop.
Import AudioCapture.
Local Open Scope R_scope.

Lemma nth_scale (k : R) (l : list R) (i : nat) :
  nth i (scale k l) 0 = nth i l 0 * k.
Proof.
  unfold scale.
  rewrite <- (map_nth (fun x => x * k) l 0 i).
  f_equal. now rewrite Rmult_0_l.
Qed.

Lemma length_scale (k : R) (l : list R) : length (scale k l) = length l.
Proof. apply length_map. Qed.

Lemma length_left_channel (rows : list (list R)) :
  forall col, left_channel rows = Some col -> length col = length rows.
Proof.
  induction rows as [|row rows IH]; intros col E; cbn [left_channel] in E.
  - now inversion E.
  - destruct row as [|x row]; [discriminate|].
    destruct (left_channel rows) as [c|]; [|discriminate].
    inversion E; subst. cbn [length]. f_equal. now apply IH.
Qed.

(** A successful recording is never empty. *)
Lemma record_success_nonempty (dev : device_result) (data : list R) :
  record_device_to_memory dev = (data, true) -> data <> [].
Proof.
  destruct dev as [| |d|rows]; cbn [record_device_to_memory]; try discriminate.
  - destruct d; cbn; [discriminate|]. intros E; inversion E; discriminate.
  - destruct (Nat.ltb_spec 0 (length rows)) as [Hpos|]; [|discriminate].
    destruct (left_channel rows) as [col|] eqn:Ec; [|discriminate].
    intros E; inversion E; subst. apply length_left_channel in Ec.
    intros ->. simpl in Ec. lia.
Qed.

Lemma length_ltb_0 {A : Type} (l : list A) : l <> [] -> (0 <? length l)%nat = true.
Proof. destruct l; [congruence | reflexivity]. Qed.

(** The path of [_record_and_mix_chunk] with the microphone only. *)
Lemma record_and_mix_mic_only (cfg : AudioConfig)
  (mic_device system_device : device_result) (mic sys : list R) :
  record_device_to_memory mic_device = (mic, true) ->
  record_device_to_memory system_device = (sys, false) ->
  record_and_mix_chunk cfg mic_device system_device =
    Some (apply_crossfade
            (scale (mic_volume cfg) (apply_crossfade mic (sample_rate cfg) 10%Q))
            (sample_rate cfg) 5%Q).
Proof.
  intros Em Es. pose proof (record_success_nonempty _ Em) as Hne.
  unfold record_and_mix_chunk. rewrite Em, Es. cbn [negb andb].
  rewrite (length_ltb_0 Hne). unfold mix_audio_streams.
  assert (Hl : length (apply_crossfade mic (sample_rate cfg) 10%Q) <> 0%nat).
  { rewrite Signal.length_apply_crossfade. destruct mic; [congruence | discriminate]. }
  apply Nat.eqb_neq in Hl. rewrite Hl. cbn [andb length Nat.eqb].
  rewrite length_scale. apply Nat.eqb_neq in Hl.
  destruct (Nat.ltb_spec 0 (length (apply_crossfade mic (sample_rate cfg) 10%Q)));
    [reflexivity | lia].
Qed.

(** The level normalizer on eight samples at full scale. *)
Lemma normalize_eight_ones :
  normalize_audio_level [1; 1; 1; 1; 1; 1; 1; 1] 0.15 =
  repeat (tanh (1 * (0.15 / 1) * 0.9) * 0.8) 8.
Proof.
  assert (Hr : rms [1; 1; 1; 1; 1; 1; 1; 1] = 1).
  { unfold rms, mean. cbn [map fold_right length].
    replace ((1 * 1 + (1 * 1 + (1 * 1 + (1 * 1 + (1 * 1 + (1 * 1
              + (1 * 1 + (1 * 1 + 0)))))))) / INR 8) with 1
      by (simpl INR; lra).
    apply sqrt_1. }
  unfold normalize_audio_level. cbn [length Nat.eqb]. rewrite Hr.
  destruct (Rlt_dec 0 1) as [_|]; [|lra].
  unfold normalization_factor.
  destruct (Rlt_dec 2 (0.15 / 1)) as [|_]; [lra|]. reflexivity.
Qed.

(** C3 (as stated, refuted): eight microphone samples at full scale, no
    system audio.  The code hands down 1 at index 3; normalizing first would
    give [tanh 0.135 * 0.8]. *)
Lemma mic_only_cycle_is_not_normalized :
  ~ mic_only_cycle_as_specified transcriber_config
      (RecordMono [1; 1; 1; 1; 1; 1; 1; 1]) RecordRaises.
Proof.
  pose (mic := [1; 1; 1; 1; 1; 1; 1; 1]).
  assert (Hn : forall ms, ms = 10%Q \/ ms = 5%Q ->
            (Z.to_nat (fade_samples 8 24000 ms) <= 3
             < 8 - Z.to_nat (fade_samples 8 24000 ms))%nat).
  { intros ms [-> | ->]; vm_compute; lia. }
  assert (Hint : forall audio ms, length audio = 8%nat -> ms = 10%Q \/ ms = 5%Q ->
            nth 3 (apply_crossfade audio 24000 ms) 0 = nth 3 audio 0).
  { intros audio ms Hl Hms. apply Signal.apply_crossfade_interior.
    rewrite Hl. now apply Hn. }
  assert (Hcode : nth 3 (apply_crossfade
                           (scale 1 (apply_crossfade mic 24000 10%Q)) 24000 5%Q) 0
                  = 1 * 1).
  { rewrite (Hint (scale 1 (apply_crossfade mic 24000 10%Q)) 5%Q);
      [ | now rewrite length_scale, Signal.length_apply_crossfade | now right ].
    rewrite nth_scale. rewrite (Hint mic 10%Q); [reflexivity | reflexivity | now left]. }
  assert (Hspec : nth 3 (mic_only_as_specified transcriber_config mic) 0
                  = tanh 0.135 * 0.8 * 1).
  { unfold mic_only_as_specified.
    change (sample_rate transcriber_config) with 24000%Z.
    change (mic_volume transcriber_config) with 1.
    rewrite nth_scale. unfold mic. rewrite normalize_eight_ones.
    rewrite (Hint (repeat (tanh (1 * (0.15 / 1) * 0.9) * 0.8) 8) 10%Q);
      [ | reflexivity | now left ].
    cbn [nth repeat]. now replace (1 * (0.15 / 1) * 0.9) with 0.135 by lra. }
  intros H. specialize (H mic [] eq_refl eq_refl).
  pose proof (@record_and_mix_mic_only transcriber_config (RecordMono mic)
                RecordRaises mic [] eq_refl eq_refl) as Hc.
  pose proof (eq_trans (eq_sym Hc) H) as H'.
  assert (E : nth 3 (apply_crossfade
                       (scale 1 (apply_crossfade mic 24000 10%Q)) 24000 5%Q) 0
              = nth 3 (mic_only_as_specified transcriber_config mic) 0).
  { injection H' as E. rewrite <- E. reflexivity. }
  rewrite Hcode, Hspec in E.
  pose proof Signal.tanh_0135. lra.
Qed.

(** C3 (amended): when the microphone recording succeeds and the system
    recording fails, the chunk handed down is the microphone signal after the
    10 ms crossfade, scaled by [mic_volume], then crossfaded again over 5 ms;
    no level normalization takes part.  It has the length of the recording,
    and every sample outside the four ramps is the recorded sample times
    [mic_volume]. *)
Theorem mic_only_cycle_output (cfg : AudioConfig)
  (mic_device system_device : device_result) (mic sys : list R) :
  record_device_to_memory mic_device = (mic, true) ->
  record_device_to_memory system_device = (sys, false) ->
  let out :=
    apply_crossfade
      (scale (mic_volume cfg) (apply_crossfade mic (sample_rate cfg) 10%Q))
      (sample_rate cfg) 5%Q in
  let n10 := Z.to_nat (fade_samples (length mic) (sample_rate cfg) 10%Q) in
  let n5 := Z.to_nat (fade_samples (length mic) (sample_rate cfg) 5%Q) in
  record_and_mix_chunk cfg mic_device system_device = Some out /\
  length out = length mic /\
  forall i, (n10 <= i < length mic - n10)%nat -> (n5 <= i < length mic - n5)%nat ->
            nth i out 0 = nth i mic 0 * mic_volume cfg.
Proof.
  intros Em Es out n10 n5.
  split; [now apply record_and_mix_mic_only with (sys := sys)|].
  assert (Hlen : length (scale (mic_volume cfg)
                           (apply_crossfade mic (sample_rate cfg) 10%Q))
                 = length mic)
    by now rewrite length_scale, Signal.length_apply_crossfade.
  split; [unfold out; now rewrite Signal.length_apply_crossfade|].
  intros i H10 H5. unfold out.
  rewrite Signal.apply_crossfade_interior by (rewrite Hlen; exact H5).
  rewrite nth_scale. now rewrite Signal.apply_crossfade_interior.
Qed.

Lemma mic_only_cycle_output_witness :
  record_and_mix_chunk transcriber_config (RecordMono [1; 1; 1; 1; 1; 1; 1; 1]) RecordNone
  = Some (apply_crossfade
            (scale 1 (apply_crossfade [1; 1; 1; 1; 1; 1; 1; 1] 24000 10%Q))
            24000 5%Q).
Proof.
  apply (@mic_only_cycle_output transcriber_config
           (RecordMono [1; 1; 1; 1; 1; 1; 1; 1]) RecordNone
           [1; 1; 1; 1; 1; 1; 1; 1] []); reflexivity.
Defined.

(** Silence converts to zero bytes, two per sample. *)
Lemma pcm16_zeros (n : nat) : pcm16_bytes (repeat 0 n) = repeat x00 (2 * n).
Proof.
  assert (H0 : int16_bytes (astype_int16 (0 * 32767)) = [x00; x00]).
  { rewrite Rmult_0_l. unfold astype_int16, Rtrunc.
    destruct (Rle_dec 0 0) as [_|]; [|lra].
    change 0 with (INR 0). rewrite Int_part_INR. reflexivity. }
  unfold pcm16_bytes. induction n as [|n IH]; [reflexivity|].
  cbn [repeat flat_map]. rewrite IH, H0.
  replace (2 * S n)%nat with (S (S (2 * n))) by lia. reflexivity.
Qed.

Lemma record_mono_nonempty (data : list R) :
  data <> [] -> record_device_to_memory (RecordMono data) = (data, true).
Proof. intros H. cbn [record_device_to_memory]. now rewrite (length_ltb_0 H). Qed.

(** The path of [_record_and_mix_chunk] when both devices deliver silence. *)
Lemma record_and_mix_silence (cfg : AudioConfig) (mic sys : list R) :
  mic <> [] -> sys <> [] -> Forall (eq 0) mic -> Forall (eq 0) sys ->
  record_and_mix_chunk cfg (RecordMono mic) (RecordMono sys) =
    Some (repeat 0 (Nat.max (length mic) (length sys))).
Proof.
  intros Hm Hs Zm Zs.
  unfold record_and_mix_chunk.
  rewrite (record_mono_nonempty Hm), (record_mono_nonempty Hs).
  cbn [negb andb]. rewrite (length_ltb_0 Hm), (length_ltb_0 Hs).
  rewrite (Forall_eq_repeat Zm), (Forall_eq_repeat Zs).
  rewrite !Signal.apply_crossfade_zeros, !repeat_length.
  assert (Pm : (0 < length mic)%nat) by (destruct mic; [congruence | simpl; lia]).
  assert (Ps : (0 < length sys)%nat) by (destruct sys; [congruence | simpl; lia]).
  rewrite Signal.mix_zeros by assumption.
  rewrite repeat_length, Signal.apply_crossfade_zeros.
  destruct (Nat.ltb_spec 0 (Nat.max (length mic) (length sys))); [reflexivity | lia].
Qed.

Lemma capture_bytes_silence (cfg : AudioConfig) (mic sys : list R) :
  mic <> [] -> sys <> [] -> Forall (eq 0) mic -> Forall (eq 0) sys ->
  capture_bytes cfg (RecordMono mic) (RecordMono sys) =
    Some (repeat x00 (2 * Nat.max (length mic) (length sys))).
Proof.
  intros Hm Hs Zm Zs. unfold capture_bytes.
  rewrite (record_and_mix_silence cfg Hm Hs Zm Zs), repeat_length.
  assert (Pm : (0 < length mic)%nat) by (destruct mic; [congruence | simpl; lia]).
  destruct (Nat.ltb_spec 0 (Nat.max (length mic) (length sys))); [|lia].
  now rewrite pcm16_zeros.
Qed.

Lemma repeat_all_eq {A : Type} (x : A) (n : nat) : Forall (eq x) (repeat x n).
Proof. apply Forall_forall. intros y Hy. symmetry. exact (repeat_spec _ _ _ Hy). Qed.

(** C4 (as stated, refuted): with the default configuration and 512 silent
    samples from each device, 1024 zero-valued bytes reach the dispatcher and
    one full frame is released. *)
Lemma silent_cycle_releases_a_frame :
  let c := new_capture default_config true in
  capture_cycle 1024 (RecordMono (repeat 0 512)) (RecordMono (repeat 0 512)) true c
    = Some (c, [repeat x00 1024]) /\
  ~ silent_cycle_releases_nothing 1024 c (repeat 0 512) (repeat 0 512).
Proof.
  cbv zeta.
  assert (Hne : repeat 0 512 <> []) by discriminate.
  pose proof (@capture_bytes_silence default_config (repeat 0 512) (repeat 0 512)
                Hne Hne (repeat_all_eq 0 512) (repeat_all_eq 0 512)) as Hb.
  rewrite repeat_length in Hb.
  change (2 * Nat.max 512 512)%nat with 1024%nat in Hb.
  assert (Hd : drain 1024 1024 ([] ++ repeat x00 1024) = Some ([], [repeat x00 1024]))
    by (vm_compute; reflexivity).
  assert (Hc : capture_cycle 1024 (RecordMono (repeat 0 512))
                 (RecordMono (repeat 0 512)) true (new_capture default_config true)
               = Some (new_capture default_config true, [repeat x00 1024])).
  { unfold capture_cycle. cbn [config new_capture]. rewrite Hb.
    unfold send_mixed_audio_data.
    cbn [config mixed_buffer has_transcriber new_capture chunk_size default_config].
    rewrite Hd. reflexivity. }
  split; [exact Hc|].
  intros H. destruct (H Hne Hne (repeat_all_eq 0 512) (repeat_all_eq 0 512))
    as [_ [c' Hc']].
  rewrite Hc in Hc'. discriminate Hc'.
Qed.

Lemma drain_releases (F : Z) (fuel : nat) (buf : list byte) :
  (0 < F <= Z.of_nat (length buf))%Z -> (length buf <= fuel)%nat ->
  exists rest chunk chunks, drain fuel F buf = Some (rest, chunk :: chunks).
Proof.
  intros [HF Hlen] Hfuel.
  destruct (@Dispatcher.drain_spec F HF fuel buf Hfuel)
    as (rest & chunks & E & _ & Hres & Hcat).
  destruct chunks as [|chunk chunks].
  - cbn [concat app] in Hcat. subst rest. lia.
  - now exists rest, chunk, chunks.
Qed.

End CaptureLoop.

Module Bootstrap.
Import Transcriber.

Lemma raise_for_status_iff (status : Z) :
  raise_for_status status = true <-> (400 <= status < 600)%Z.
Proof. unfold raise_for_status. rewrite andb_true_iff, Z.leb_le, Z.ltb_lt. tauto. Qed.

(** What [_create_transcription_session] returns and stores, by the credential
    the body carries. *)
Lemma create_session_result (status : Z) (body : option json) (st : state) :
  raise_for_status status = false ->
  match credential_of body with
  | Some v =>
      exists data,
        body = Some data /\
        create_transcription_session (PostResponse status body) st =
          (set_client_secret (Some v) (set_session_data (Some data) st), true)
  | None => snd (create_transcription_session (PostResponse status body) st) = false
  end.
Proof.
  intros Hs. unfold create_transcription_session, credential_of. rewrite Hs.
  destruct body as [data|]; [|reflexivity].
  destruct data as [ |b|q|t|l|kv]; try reflexivity.
  cbn [Json.get].
  destruct (Json.lookup "client_secret" (JObj []) kv) as [ |b|q|t|l|kv2];
    try reflexivity.
  cbn [Json.get].
  destruct (Json.truthy (Json.lookup "value" JNull kv2)); cbn [negb snd];
    [|reflexivity].
  now exists (JObj kv).
Qed.

Lemma create_session_keeps_running (outcome : http_outcome) (st : state) :
  running (fst (create_transcription_session outcome st)) = running st.
Proof.
  unfold create_transcription_session.
  destruct outcome as [|status body]; [reflexivity|].
  destruct (raise_for_status status); [reflexivity|].
  destruct body as [data|]; [|reflexivity].
  destruct (Json.get "client_secret" (JObj []) data) as [cs|]; [|reflexivity].
  destruct (Json.get "value" JNull cs) as [v|]; [|reflexivity].
  now destruct (negb (Json.truthy v)).
Qed.

(** C8 (as stated, refuted): a 304 response whose body carries the
    credential is outside 2xx, yet the bootstrap succeeds. *)
Lemma bootstrap_accepts_a_non_2xx_response :
  let body := JObj [("client_secret"%string, JObj [("value"%string, JStr "ek_1")])] in
  create_transcription_session (PostResponse 304 (Some body)) (init false)
    = (set_client_secret (Some (JStr "ek_1"))
         (set_session_data (Some body) (init false)), true) /\
  ~ bootstrap_as_specified (PostResponse 304 (Some body)) (init false).
Proof.
  cbv zeta. split; [reflexivity|].
  unfold bootstrap_as_specified. intros [_ H].
  assert (Hf : bootstrap_fails_as_specified
                 (PostResponse 304
                    (Some (JObj [("client_secret"%string,
                                  JObj [("value"%string, JStr "ek_1")])]))))
    by (left; lia).
  specialize (H Hf). discriminate H.
Qed.

(** C8 (amended): the bootstrap fails exactly on a network error, on a
    response with a status from 400 to 599 (those [raise_for_status]
    rejects), or on a response without the nested credential.  On failure
    [start] returns with the transcriber not running and nothing but the
    POST done; on success the credential is stored, the transcriber is
    running, the connection thread is started, and the first thing that
    thread does is to connect with the stored credential. *)
Theorem bootstrap_fails_on_error_status_or_missing_credential
  (outcome : http_outcome) (st : state) :
  let st1 := fst (create_transcription_session outcome st) in
  let ok := snd (create_transcription_session outcome st) in
  (ok = false <-> bootstrap_fails outcome) /\
  (ok = true ->
     exists status body v,
       outcome = PostResponse status body /\ credential_of body = Some v /\
       client_secret st1 = Some v) /\
  (running st = false ->
     (ok = false -> start outcome st = (st1, [HttpPost]) /\ running st1 = false) /\
     (ok = true ->
        start outcome st = (set_running true st1, [HttpPost; ThreadStart]) /\
        forall connected events,
        exists rest,
          snd (websocket_handler connected events (set_running true st1))
          = WsConnect (client_secret st1) :: rest)).
Proof.
  intros st1 ok.
  assert (Hiff : ok = false <-> bootstrap_fails outcome).
  { unfold ok. destruct outcome as [|status body]; [cbn; tauto|].
    cbn [bootstrap_fails].
    destruct (raise_for_status status) eqn:Hs.
    - unfold create_transcription_session. rewrite Hs. cbn [snd].
      apply raise_for_status_iff in Hs. tauto.
    - pose proof (@create_session_result status body st Hs) as Hr.
      assert (Hn : ~ (400 <= status < 600)%Z).
      { intros Hc. apply raise_for_status_iff in Hc. congruence. }
      destruct (credential_of body) as [v|].
      + destruct Hr as (data & _ & ->). cbn [snd]. split; [discriminate|].
        intros [Hc|Hc]; [contradiction | discriminate]. 
      + rewrite Hr. tauto. }
  split; [exact Hiff|]. split.
  - intros Hok. unfold ok, st1 in *.
    destruct outcome as [|status body]; [discriminate Hok|].
    destruct (raise_for_status status) eqn:Hs.
    + unfold create_transcription_session in Hok. rewrite Hs in Hok. discriminate Hok.
    + pose proof (@create_session_result status body st Hs) as Hr.
      destruct (credential_of body) as [v|] eqn:Ec; [|congruence].
      destruct Hr as (data & _ & E). rewrite E. now exists status, body, v.
  - intros Hrun. unfold start. rewrite Hrun. cbn [negb].
    fold st1. pose proof (create_session_keeps_running outcome st) as Hk.
    fold st1 in Hk.
    destruct (create_transcription_session outcome st) as [s b] eqn:E.
    unfold st1, ok in *. cbn [fst snd] in *. split.
    + intros ->. cbn [negb]. split; [reflexivity | congruence].
    + intros ->. cbn [negb]. split; [reflexivity|].
      intros connected events. unfold websocket_handler.
      destruct connected;
        try destruct (initialize_raises _ _);
        try destruct (event_loop events _) as [s2 eff];
        cbn [snd client_secret set_running]; now eexists.
Qed.

Lemma bootstrap_fails_on_error_status_or_missing_credential_witness :
  start (PostResponse 503 None) (init false) = (init false, [HttpPost]) /\
  start (PostResponse 200
           (Some (JObj [("client_secret"%string, JObj [("value"%string, JStr "ek_1")])])))
        (init false)
  = (set_running true
       (set_client_secret (Some (JStr "ek_1"))
          (set_session_data
             (Some (JObj [("client_secret"%string,
                           JObj [("value"%string, JStr "ek_1")])]))
             (init false))),
     [HttpPost; ThreadStart]).
Proof.
  split.
  - apply (bootstrap_fails_on_error_status_or_missing_credential
             (PostResponse 503 None) (init false)); reflexivity.
  - apply (bootstrap_fails_on_error_status_or_missing_credential
             (PostResponse 200
                (Some (JObj [("client_secret"%string,
                              JObj [("value"%string, JStr "ek_1")])])))
             (init false)); reflexivity.
Defined.

End Bootstrap.

Module Protocol.
Import Transcriber.

Lemma same_connection_refl (st : state) : same_connection st st.
Proof. repeat split. Qed.

Lemma same_connection_trans (a b c : state) :
  same_connection a b -> same_connection b c -> same_connection a c.
Proof. unfold same_connection. intuition congruence. Qed.

Lemma update_transcript_connection (text : string) (now : Q) (st : state) :
  same_connection st (fst (update_transcript text now st)) /\
  processing_start_time (fst (update_transcript text now st))
  = processing_start_time st.
Proof.
  unfold update_transcript.
  destruct (negb (Py.truthy_str text) || Py.isspace text); repeat split.
Qed.

Lemma update_transcript_no_send (text : string) (now : Q) (st : state) :
  Forall (fun e => exists t, e = Callback t) (snd (update_transcript text now st)).
Proof.
  unfold update_transcript.
  destruct (negb (Py.truthy_str text) || Py.isspace text); [constructor|].
  cbn [snd]. destruct (has_callback st); repeat constructor. now exists text.
Qed.

Lemma handle_message_connection (cb : bool) (m : option json) (now : Q)
  (st : state) :
  same_connection st (fst (handle_message cb m now st)).
Proof.
  unfold handle_message, handle_message_body.
  destruct m as [data|]; [|apply same_connection_refl].
  destruct (Json.get "type" (JStr "") data) as [ty|]; [|apply same_connection_refl].
  destruct (Json.eq_str ty "input_audio_buffer.speech_stopped");
    [apply same_connection_refl|].
  destruct (Json.eq_str ty "input_audio_buffer.committed"); [repeat split|].
  destruct (Json.eq_str ty "conversation.item.input_audio_transcription.completed").
  { destruct (Json.get "transcript" (JStr "") data) as [t|];
      [|apply same_connection_refl].
    destruct (Json.str_strip t) as [tr|]; [|apply same_connection_refl].
    destruct (Py.truthy_str tr); [|repeat split].
    pose proof (update_transcript_connection tr now st) as [Hc _].
    destruct (update_transcript tr now st) as [s1 e1]. cbn [fst] in *.
    destruct (update_transcript_raises cb tr st); [exact Hc|].
    unfold same_connection in *. cbn. exact Hc. }
  destruct (Json.eq_str ty "conversation.item.input_audio_transcription.delta").
  { destruct (Json.get "delta" (JStr "") data) as [d|]; [|apply same_connection_refl].
    destruct (Json.str_strip d); apply same_connection_refl. }
  destruct (Json.eq_str ty "conversation.item.input_audio_transcription.failed");
    [repeat split | apply same_connection_refl].
Qed.

Lemma check_timeout_connection (now : Q) (st st' : state) (eff : list effect) :
  check_processing_timeout now st = Some (st', eff) -> same_connection st st'.
Proof.
  unfold check_processing_timeout. destruct (running st); [|discriminate].
  destruct (processing_start_time st) as [t|].
  - destruct (negb (Qeq_bool t 0) && Py.Qgt_bool (now - t) 5);
      intros E; inversion E; subst; repeat split.
  - intros E; inversion E; subst. apply same_connection_refl.
Qed.

Lemma loop_step_connection (e : loop_event) (st : state) :
  same_connection st (fst (loop_step e st)).
Proof.
  destruct e as [m now cb|now]; cbn [loop_step].
  - pose proof (handle_message_connection cb m now st) as H.
    now destruct (handle_message cb m now st).
  - destruct (check_processing_timeout now st) as [[s1 e1]|] eqn:E;
      [|apply same_connection_refl].
    exact (check_timeout_connection _ _ E).
Qed.

Lemma event_loop_connection (events : list loop_event) :
  forall st, same_connection st (fst (event_loop events st)).
Proof.
  induction events as [|e rest IH]; intros st; cbn [event_loop];
    [apply same_connection_refl|].
  pose proof (loop_step_connection e st) as H1.
  destruct (loop_step e st) as [s1 e1]. cbn [fst] in H1.
  specialize (IH s1). destruct (event_loop rest s1) as [s2 e2]. cbn [fst] in *.
  exact (same_connection_trans H1 IH).
Qed.

Lemma event_loop_app (a b : list loop_event) :
  forall st,
    event_loop (a ++ b) st =
    (fst (event_loop b (fst (event_loop a st))),
     snd (event_loop a st) ++ snd (event_loop b (fst (event_loop a st)))).
Proof.
  induction a as [|e a IH]; intros st; cbn [event_loop app fst snd].
  - now destruct (event_loop b st).
  - destruct (loop_step e st) as [s1 e1]. rewrite IH.
    destruct (event_loop a s1) as [s2 e2]. cbn [fst snd].
    now rewrite app_assoc.
Qed.

Lemma callbacks_are_no_sends (l : list effect) :
  Forall (fun e => exists t, e = Callback t) l ->
  filter is_commit l = [] /\ filter is_clear l = [].
Proof.
  induction 1 as [|e l [t ->] _ [IH1 IH2]]; [split; reflexivity|].
  cbn [filter is_commit is_clear]. now split.
Qed.

(** **** Speech-stop auto-commit *)

Lemma speech_stopped_step (m : option json) (now : Q) (cb : bool) (st : state) :
  websocket st = true -> is_speech_stopped m = true ->
  loop_step (Inbound m now cb) st = (st, [WsRecv m; WsSend AudioCommit]).
Proof.
  intros Hws Hm. unfold is_speech_stopped, event_type_is in Hm.
  destruct m as [[ |b|q|t|l|kv]|]; try discriminate Hm.
  cbn [loop_step]. unfold handle_message, handle_message_body.
  cbn [Json.get]. rewrite Hm. unfold send_message. now rewrite Hws.
Qed.

Lemma other_step_sends_no_commit (e : loop_event) (st : state) :
  speech_stopped_event e = false -> filter is_commit (snd (loop_step e st)) = [].
Proof.
  destruct e as [m now cb|now]; cbn [speech_stopped_event loop_step].
  - intros Hm. unfold handle_message, handle_message_body.
    destruct m as [data|]; [|reflexivity].
    destruct data as [ |b|q|t|l|kv]; try reflexivity.
    cbn [Json.get]. unfold is_speech_stopped, event_type_is in Hm. rewrite Hm.
    set (ty := Json.lookup "type" (JStr "") kv).
    destruct (Json.eq_str ty "input_audio_buffer.committed"); [reflexivity|].
    destruct (Json.eq_str ty "conversation.item.input_audio_transcription.completed").
    { destruct (Json.str_strip (Json.lookup "transcript" (JStr "") kv)) as [tr|];
        [|reflexivity].
      destruct (Py.truthy_str tr); [|reflexivity].
      pose proof (update_transcript_no_send tr now st) as Hc.
      destruct (update_transcript tr now st) as [s1 e1].
      apply callbacks_are_no_sends in Hc.
      destruct (update_transcript_raises cb tr st); cbn [snd] in *; tauto. }
    destruct (Json.eq_str ty "conversation.item.input_audio_transcription.delta").
    { destruct (Json.str_strip (Json.lookup "delta" (JStr "") kv)); reflexivity. }
    destruct (Json.eq_str ty "conversation.item.input_audio_transcription.failed");
      reflexivity.
  - intros _. unfold check_processing_timeout, send_message.
    destruct (running st); [|reflexivity].
    destruct (processing_start_time st) as [t|]; [|reflexivity].
    destruct (negb (Qeq_bool t 0) && Py.Qgt_bool (now - t) 5); [|reflexivity].
    destruct (websocket st); reflexivity.
Qed.

Lemma commits_match_speech_stops (events : list loop_event) :
  forall st,
    websocket st = true ->
    length (filter is_commit (snd (event_loop events st)))
    = length (filter speech_stopped_event events).
Proof.
  induction events as [|e rest IH]; intros st Hws; [reflexivity|].
  cbn [event_loop filter].
  pose proof (loop_step_connection e st) as [Hc _].
  destruct (speech_stopped_event e) eqn:He.
  - destruct e as [m now cb|now]; [|discriminate He].
    rewrite (@speech_stopped_step m now cb st Hws He) in *. cbn [fst] in Hc.
    specialize (IH st Hws). destruct (event_loop rest st) as [s2 e2].
    cbn [snd app filter is_commit length] in *. now rewrite IH.
  - pose proof (other_step_sends_no_commit e st He) as Hn.
    destruct (loop_step e st) as [s1 e1]. cbn [fst snd] in *.
    specialize (IH s1 ltac:(congruence)).
    destruct (event_loop rest s1) as [s2 e2]. cbn [snd] in *.
    now rewrite filter_app, Hn.
Qed.

(** C7: in any run of the event loop of a connection, the commits sent are
    as many as the [speech_stopped] events received; each such event is
    answered, in the state it arrives in, by exactly one
    [input_audio_buffer.commit], and the trace of the run is the trace of the
    earlier events, then the receipt and that commit, then the trace of the
    later events: the commit is sent before the next inbound event is taken. *)
Theorem speech_stopped_sends_one_commit (events : list loop_event) (st : state) :
  websocket st = true ->
  let trace := snd (event_loop events st) in
  length (filter is_commit trace) = length (filter speech_stopped_event events) /\
  forall pre m now cb post,
    events = pre ++ Inbound m now cb :: post ->
    is_speech_stopped m = true ->
    let st1 := fst (event_loop pre st) in
    loop_step (Inbound m now cb) st1 = (st1, [WsRecv m; WsSend AudioCommit]) /\
    trace = snd (event_loop pre st) ++ [WsRecv m; WsSend AudioCommit]
            ++ snd (event_loop post st1).
Proof.
  intros Hws trace. split; [now apply commits_match_speech_stops|].
  intros pre m now cb post -> Hm st1.
  assert (Hws1 : websocket st1 = true).
  { pose proof (event_loop_connection pre st) as [Hc _]. unfold st1. congruence. }
  pose proof (@speech_stopped_step m now cb st1 Hws1 Hm) as Hstep.
  split; [exact Hstep|].
  unfold trace. rewrite event_loop_app. cbn [snd event_loop]. fold st1.
  rewrite Hstep. destruct (event_loop post st1) as [s2 e2]. reflexivity.
Qed.

Lemma speech_stopped_sends_one_commit_witness :
  let stopped := Some (JObj [("type"%string, JStr "input_audio_buffer.speech_stopped")]) in
  let st := set_websocket true (set_running true (init false)) in
  length (filter is_commit
            (snd (event_loop [WatchdogTick 1%Q; Inbound stopped 2%Q false; Inbound None 3%Q false] st)))
  = 1%nat.
Proof.
  intros stopped st.
  apply (@speech_stopped_sends_one_commit
           [WatchdogTick 1%Q; Inbound stopped 2%Q false; Inbound None 3%Q false] st).
  reflexivity.
Defined.

(** **** Stall watchdog *)

Lemma handle_message_marker (cb : bool) (m : option json) (now : Q) (st : state) :
  (0 < now)%Q -> marker_after_epoch st ->
  marker_after_epoch (fst (handle_message cb m now st)).
Proof.
  intros Hnow Hst. unfold handle_message, handle_message_body.
  destruct m as [data|]; [|exact Hst].
  destruct (Json.get "type" (JStr "") data) as [ty|]; [|exact Hst].
  destruct (Json.eq_str ty "input_audio_buffer.speech_stopped"); [exact Hst|].
  destruct (Json.eq_str ty "input_audio_buffer.committed").
  { intros t E. cbn in E. now inversion E; subst. }
  destruct (Json.eq_str ty "conversation.item.input_audio_transcription.completed").
  { destruct (Json.get "transcript" (JStr "") data) as [t|]; [|exact Hst].
    destruct (Json.str_strip t) as [tr|]; [|exact Hst].
    destruct (Py.truthy_str tr); [|intros t0 E; discriminate E].
    pose proof (update_transcript_connection tr now st) as [_ Hp].
    destruct (update_transcript tr now st) as [s1 e1]. cbn [fst] in Hp.
    destruct (update_transcript_raises cb tr st); [|intros t0 E; discriminate E].
    intros t0 E. apply Hst. cbn [fst] in E. congruence. }
  destruct (Json.eq_str ty "conversation.item.input_audio_transcription.delta").
  { destruct (Json.get "delta" (JStr "") data) as [d|]; [|exact Hst].
    destruct (Json.str_strip d); exact Hst. }
  destruct (Json.eq_str ty "conversation.item.input_audio_transcription.failed");
    [intros t0 E; discriminate E | exact Hst].
Qed.

Lemma loop_step_marker (e : loop_event) (st : state) :
  (0 < event_time e)%Q -> marker_after_epoch st ->
  marker_after_epoch (fst (loop_step e st)).
Proof.
  intros He Hst. destruct e as [m now cb|now]; cbn [loop_step event_time] in *.
  - pose proof (@handle_message_marker cb m now st He Hst) as H.
    now destruct (handle_message cb m now st).
  - unfold check_processing_timeout. destruct (running st); [|exact Hst].
    destruct (processing_start_time st) as [t|] eqn:Et; [|exact Hst].
    destruct (negb (Qeq_bool t 0) && Py.Qgt_bool (now - t) 5); [|exact Hst].
    intros t0 E. discriminate E.
Qed.

(** Every marker the loop leaves behind is a clock reading of the run. *)
Lemma event_loop_marker (events : list loop_event) :
  forall st,
    Forall (fun e => (0 < event_time e)%Q) events -> marker_after_epoch st ->
    marker_after_epoch (fst (event_loop events st)).
Proof.
  induction events as [|e rest IH]; intros st Hev Hst; [exact Hst|].
  inversion Hev as [|e0 r0 He Hrest]; subst. cbn [event_loop].
  pose proof (@loop_step_marker e st He Hst) as Hs1.
  destruct (loop_step e st) as [s1 e1]. cbn [fst] in Hs1.
  specialize (IH s1 Hrest Hs1).
  now destruct (event_loop rest s1).
Qed.

Lemma eq_str_true (j : json) (name : string) :
  Json.eq_str j name = true -> j = JStr name.
Proof.
  destruct j as [ |b|q|t|l|kv]; cbn [Json.eq_str]; try discriminate.
  intros H. apply String.eqb_eq in H. now subst.
Qed.

(** A failure event, and a completion event with a text during which the
    callback does not raise, reset the marker. *)
Lemma reset_event_clears_marker (cb : bool) (m : option json) (now : Q) (st : state) :
  resets_marker cb m st = true ->
  processing_start_time (fst (handle_message cb m now st)) = None.
Proof.
  unfold resets_marker, event_type_is.
  destruct m as [[ |b|q|t|l|kv]|]; try discriminate.
  intros H. unfold handle_message, handle_message_body. cbn [Json.get].
  apply orb_true_iff in H. destruct H as [H|H].
  - apply eq_str_true in H. rewrite H. reflexivity.
  - apply andb_true_iff in H. destruct H as [H Ht].
    apply eq_str_true in H. rewrite H.
    cbn [Json.eq_str String.eqb Ascii.eqb Bool.eqb andb].
    destruct (Json.lookup "transcript" (JStr "") kv) as [ |b|q|t|l|kv2];
      try discriminate Ht.
    cbn [Json.str_strip]. apply negb_true_iff in Ht. rewrite Ht.
    destruct (Py.truthy_str (Py.strip t)); [|reflexivity].
    now destruct (update_transcript (Py.strip t) now st) as [s1 e1].
Qed.

(** One pass of the watchdog on a state whose marker is a clock reading. *)
Lemma watchdog_pass (now : Q) (st : state) :
  running st = true -> websocket st = true -> marker_after_epoch st ->
  exists st' eff,
    check_processing_timeout now st = Some (st', eff) /\
    (forall t, processing_start_time st = Some t -> (5 < now - t)%Q ->
       st' = set_processing_start_time None st /\
       eff = [WsSend AudioClear; Sleep 1]) /\
    (processing_start_time st = None \/
     (exists t, processing_start_time st = Some t /\ (now - t <= 5)%Q) ->
       st' = st /\ eff = [Sleep 1]).
Proof.
  intros Hrun Hws Hm. unfold check_processing_timeout, send_message.
  rewrite Hrun, Hws.
  destruct (processing_start_time st) as [t|] eqn:Et.
  - assert (Hz : Qeq_bool t 0 = false).
    { destruct (Qeq_bool t 0) eqn:E; [|reflexivity].
      apply Qeq_bool_iff in E. specialize (Hm t Et).
      rewrite E in Hm. now apply Qlt_irrefl in Hm. }
    rewrite Hz. cbn [negb andb]. unfold Py.Qgt_bool.
    destruct (Qle_bool (now - t) 5) eqn:E; cbn [negb].
    + apply Qle_bool_iff in E. eexists _, _. split; [reflexivity|]. split.
      * intros t0 Ht0 Hlt. inversion Ht0; subst.
        exfalso. exact (Qlt_not_le _ _ Hlt E).
      * intros _. split; reflexivity.
    + assert (Hlt : (5 < now - t)%Q).
      { apply Qnot_le_lt. intros Hle. apply Qle_bool_iff in Hle. congruence. }
      eexists _, _. split; [reflexivity|]. split.
      * intros t0 Ht0 _. split; reflexivity.
      * intros [Hn | (t0 & Ht0 & Hle)]; [discriminate Hn|].
        inversion Ht0; subst. exfalso. exact (Qlt_not_le _ _ Hlt Hle).
  - eexists _, _. split; [reflexivity|]. split.
    + intros t Ht. discriminate Ht.
    + intros _. split; reflexivity.
Qed.

(** After a pass that cleared the marker, the next pass is idle whatever the
    time: one stall, one clear. *)
Lemma watchdog_fires_once (now later : Q) (st st' : state) (eff : list effect) :
  check_processing_timeout now st = Some (st', eff) ->
  In (WsSend AudioClear) eff ->
  check_processing_timeout later st' = Some (st', [Sleep 1]).
Proof.
  unfold check_processing_timeout, send_message.
  destruct (running st) eqn:Hrun; [|discriminate].
  destruct (processing_start_time st) as [t|].
  - destruct (negb (Qeq_bool t 0) && Py.Qgt_bool (now - t) 5).
    + intros E _. inversion E; subst. cbn. now rewrite Hrun.
    + intros E Hin. inversion E; subst. destruct Hin as [Hin|[]]. discriminate Hin.
  - intros E Hin. inversion E; subst. destruct Hin as [Hin|[]]. discriminate Hin.
Qed.

(** A completion event with the text "it depends": the text is stored, it
    ends the full transcript, and it is among the recent chunks. *)
Example completed_event_is_stored :
  let completed :=
    Some (JObj [("type"%string,
                 JStr "conversation.item.input_audio_transcription.completed");
                ("transcript"%string, JStr " it depends ")]) in
  let st0 := fst (update_transcript "well" 90%Q
                    (set_websocket true (set_running true (init true)))) in
  let '(st, eff) := loop_step (Inbound completed 100%Q false) st0 in
  get_full_transcript st = "well it depends"%string /\
  get_recent_chunks 60%Q 130%Q st = [("well"%string, 90%Q); ("it depends"%string, 100%Q)] /\
  eff = [WsRecv completed; Callback "it depends"] /\
  processing_start_time st = None.
Proof. cbv zeta. vm_compute. repeat split. Qed.


(** X27: take any run of the event loop of a connection (inbound events and
    earlier watchdog passes, with clock readings after the epoch), started
    with the marker unset, and let the watchdog make its next pass at time
    [now].  The pass clears the marker and sends exactly one
    [input_audio_buffer.clear] when the marker is set and more than 5
    seconds old; it changes nothing and sends nothing when the marker is
    unset or at most 5 seconds old, in particular when the last inbound
    event was a failure, or a completion during which the callback did not
    raise.  Either way the pass only sleeps for one second afterwards: it
    sends no other message, and leaves the connection and the running flag
    as they are. *)
Theorem watchdog_clears_only_a_stalled_marker
  (st0 : state) (events : list loop_event) (now : Q) :
  running st0 = true -> websocket st0 = true ->
  processing_start_time st0 = None ->
  Forall (fun e => (0 < event_time e)%Q) events ->
  let st := fst (event_loop events st0) in
  exists st' eff,
    check_processing_timeout now st = Some (st', eff) /\
    (forall t, processing_start_time st = Some t -> (5 < now - t)%Q ->
       st' = set_processing_start_time None st /\
       eff = [WsSend AudioClear; Sleep 1]) /\
    (processing_start_time st = None \/
     (exists t, processing_start_time st = Some t /\ (now - t <= 5)%Q) ->
       st' = st /\ eff = [Sleep 1]) /\
    (In (WsSend AudioClear) eff <->
     exists t, processing_start_time st = Some t /\ (5 < now - t)%Q) /\
    (forall pre m t0 cb,
       events = pre ++ [Inbound m t0 cb] ->
       resets_marker cb m (fst (event_loop pre st0)) = true ->
       st' = st /\ eff = [Sleep 1]) /\
    same_connection st st' /\
    Forall (fun e => e = WsSend AudioClear \/ e = Sleep 1) eff.
Proof.
  intros Hrun Hws Hnone Hev st.
  pose proof (event_loop_connection events st0) as Hconn. fold st in Hconn.
  assert (Hrun' : running st = true) by (destruct Hconn as (_ & H & _); congruence).
  assert (Hws' : websocket st = true) by (destruct Hconn as (H & _); congruence).
  assert (Hm : marker_after_epoch st).
  { apply event_loop_marker; [exact Hev|]. intros t E. congruence. }
  destruct (@watchdog_pass now st Hrun' Hws' Hm) as (st' & eff & E & Hfire & Hidle).
  exists st', eff. split; [exact E|]. split; [exact Hfire|]. split; [exact Hidle|].
  split; [|split; [|split]].
  - split.
    + intros Hin. destruct (processing_start_time st) as [t|] eqn:Et.
      * destruct (Qlt_le_dec 5 (now - t)) as [Hlt|Hle]; [now exists t|].
        destruct Hidle as [_ ->]; [right; now exists t|].
        destruct Hin as [Hin|[]]. discriminate Hin.
      * destruct Hidle as [_ ->]; [now left|].
        destruct Hin as [Hin|[]]. discriminate Hin.
    + intros (t & Et & Hlt). destruct (Hfire t Et Hlt) as [_ ->]. now left.
  - intros pre m t0 cb -> Hreset. apply Hidle. left.
    unfold st. rewrite event_loop_app. cbn [fst event_loop loop_step].
    pose proof (@reset_event_clears_marker cb m t0 (fst (event_loop pre st0)) Hreset) as Hr.
    destruct (handle_message cb m t0 (fst (event_loop pre st0))) as [s1 e1].
    exact Hr.
  - exact (@check_timeout_connection _ _ _ _ E).
  - destruct (processing_start_time st) as [t|] eqn:Et.
    + destruct (Qlt_le_dec 5 (now - t)) as [Hlt|Hle].
      * destruct (Hfire t eq_refl Hlt) as [_ ->].
        constructor; [now left|]. constructor; [now right | constructor].
      * destruct Hidle as [_ ->]; [right; now exists t|].
        constructor; [now right | constructor].
    + destruct Hidle as [_ ->]; [now left|].
      constructor; [now right | constructor].
Qed.

Lemma watchdog_clears_only_a_stalled_marker_witness :
  let committed := Some (JObj [("type"%string, JStr "input_audio_buffer.committed")]) in
  let st0 := set_websocket true (set_running true (init false)) in
  let st := fst (event_loop [Inbound committed 100%Q false] st0) in
  check_processing_timeout 106%Q st
  = Some (set_processing_start_time None st, [WsSend AudioClear; Sleep 1]).
Proof.
  intros committed st0 st.
  assert (Hev : Forall (fun e => (0 < event_time e)%Q) [Inbound committed 100%Q false])
    by (repeat constructor).
  destruct (@watchdog_clears_only_a_stalled_marker st0 [Inbound committed 100%Q false] 106%Q
              eq_refl eq_refl eq_refl Hev)
    as (st' & eff & E & Hfire & _).
  fold st in E, Hfire. rewrite E.
  destruct (Hfire 100%Q eq_refl ltac:(reflexivity)) as [-> ->]. reflexivity.
Defined.

End Protocol.

(** * Further properties of the signal conditioner *)

Module SignalExtra.
Import AudioCapture.
Local Open Scope R_scope.

Lemma length_pad_to (n : nat) (a : list R) :
  (length a <= n)%nat -> length (pad_to n a) = n.
Proof. intros H. unfold pad_to. rewrite length_app, repeat_length. lia. Qed.

(** Padding adds the value [nth] falls back on. *)
Lemma nth_pad_to (n : nat) (a : list R) (i : nat) :
  nth i (pad_to n a) 0 = nth i a 0.
Proof.
  unfold pad_to. destruct (Nat.lt_ge_cases i (length a)) as [Hi|Hi].
  - now rewrite app_nth1.
  - rewrite app_nth2 by lia. rewrite nth_repeat. symmetry. now apply nth_overflow.
Qed.

Lemma length_weighted_sum (a b : list R) (r1 r2 : R) :
  length (weighted_sum a b r1 r2) = Nat.min (length a) (length b).
Proof. unfold weighted_sum. now rewrite length_map, length_combine. Qed.

Lemma nth_weighted_sum (a : list R) :
  forall (b : list R) (r1 r2 : R) (i : nat),
    length a = length b ->
    nth i (weighted_sum a b r1 r2) 0 = nth i a 0 * r1 + nth i b 0 * r2.
Proof.
  unfold weighted_sum.
  induction a as [|x a IH]; intros [|y b] r1 r2 i Hl; simpl in Hl; try lia.
  - destruct i; cbn; lra.
  - destruct i as [|i]; [reflexivity|].
    cbn [combine map nth]. apply IH. lia.
Qed.

Lemma weighted_sum_swap (a : list R) :
  forall (b : list R) (r1 r2 : R),
    weighted_sum a b r1 r2 = weighted_sum b a r2 r1.
Proof.
  unfold weighted_sum.
  induction a as [|x a IH]; intros [|y b] r1 r2; try reflexivity.
  cbn [combine map fst snd]. rewrite IH. f_equal. lra.
Qed.

Lemma nth_soft_compress (l : list R) (i : nat) :
  nth i (soft_compress l) 0 = tanh (nth i l 0 * 0.8) * 0.85.
Proof.
  unfold soft_compress.
  rewrite <- (map_nth (fun x => tanh (x * 0.8) * 0.85) l 0 i).
  f_equal. rewrite Rmult_0_l, Signal.tanh_0. lra.
Qed.

(** With both streams present the mix is the compressed weighted sum of the
    padded streams. *)
Lemma mix_both_present (a b : list R) (r1 r2 : R) :
  a <> [] -> b <> [] ->
  mix_audio_streams a b r1 r2 =
  soft_compress
    (weighted_sum (pad_to (Nat.max (length a) (length b)) a)
                  (pad_to (Nat.max (length a) (length b)) b) r1 r2).
Proof.
  intros Ha Hb. unfold mix_audio_streams.
  rewrite (Signal.length_eqb_0 Ha), (Signal.length_eqb_0 Hb). cbn [andb].
  rewrite !Signal.pad_to_short.
  set (c := soft_compress _).
  destruct (Rlt_dec 0.95 (amax (map Rabs c))) as [Hgt|]; [|reflexivity].
  exfalso.
  assert (amax (map Rabs c) <= 0.85)
    by (apply Signal.amax_abs_le; [lra | apply Signal.soft_compress_bounded]).
  lra.
Qed.

Lemma length_mix (a b : list R) (r1 r2 : R) :
  length (mix_audio_streams a b r1 r2) = Nat.max (length a) (length b).
Proof.
  destruct a as [|x a]; [destruct b as [|y b]|destruct b as [|y b]].
  - reflexivity.
  - unfold mix_audio_streams. cbn [length Nat.eqb andb]. unfold scale.
    now rewrite length_map.
  - unfold mix_audio_streams. cbn [length Nat.eqb andb]. unfold scale.
    rewrite length_map. cbn [length]. lia.
  - rewrite mix_both_present by discriminate.
    unfold soft_compress. rewrite length_map, length_weighted_sum.
    rewrite !length_pad_to by lia. lia.
Qed.

(** X1: swapping the two streams together with their ratios gives the same
    mix, sample for sample. *)
Theorem mix_is_symmetric (a b : list R) (r1 r2 : R) :
  mix_audio_streams a b r1 r2 = mix_audio_streams b a r2 r1.
Proof.
  destruct a as [|x a], b as [|y b]; try reflexivity.
  rewrite !mix_both_present by discriminate.
  rewrite (Nat.max_comm (length (y :: b)) (length (x :: a))).
  f_equal. apply weighted_sum_swap.
Qed.

(** X2: with both streams present, the mix is as long as the longer stream
    and every sample is the compressed weighted sum of the two samples at
    that place, a stream that has ended counting as silence. *)
Theorem mix_pads_the_shorter_stream_with_silence (a b : list R) (r1 r2 : R) :
  a <> [] -> b <> [] ->
  length (mix_audio_streams a b r1 r2) = Nat.max (length a) (length b) /\
  forall i,
    nth i (mix_audio_streams a b r1 r2) 0 =
    tanh ((nth i a 0 * r1 + nth i b 0 * r2) * 0.8) * 0.85.
Proof.
  intros Ha Hb. split; [apply length_mix|].
  intros i. rewrite mix_both_present by assumption.
  rewrite nth_soft_compress, nth_weighted_sum.
  - now rewrite !nth_pad_to.
  - rewrite !length_pad_to by lia. reflexivity.
Qed.

Lemma mix_pads_the_shorter_stream_with_silence_witness :
  length (mix_audio_streams [1; 1; 1] [1] 0.8 0.8) = 3%nat /\
  nth 2 (mix_audio_streams [1; 1; 1] [1] 0.8 0.8) 0 =
  tanh ((1 * 0.8 + 0 * 0.8) * 0.8) * 0.85.
Proof.
  destruct (@mix_pads_the_shorter_stream_with_silence [1; 1; 1] [1] 0.8 0.8)
    as [Hl Hn]; [discriminate | discriminate |].
  split; [exact Hl | exact (Hn 2%nat)].
Defined.

(** **** Crossfade *)

(** The fade weights lie between 0 and 1. *)
Lemma linspace_unit (n i : nat) :
  0 <= nth i (linspace 0 1 n) 0 <= 1 /\ 0 <= nth i (linspace 1 0 n) 0 <= 1.
Proof.
  destruct (Nat.lt_ge_cases i n) as [Hi|Hi].
  - destruct (Nat.le_gt_cases 2 n) as [Hn|Hn].
    + rewrite !Signal.linspace_nth by assumption.
      assert (Hd : 0 < INR (n - 1)) by (apply lt_0_INR; lia).
      pose proof (Rinv_0_lt_compat _ Hd) as Hinv.
      assert (H1 : INR (n - 1) * / INR (n - 1) = 1) by (apply Rinv_r; lra).
      pose proof (pos_INR i) as H0.
      assert (Hle : INR i <= INR (n - 1)) by (apply le_INR; lia).
      unfold Rdiv. split; split; nra.
    + assert (n = 1%nat) by lia. subst n. assert (i = 0%nat) by lia. subst i.
      cbn [linspace nth]. lra.
  - rewrite !nth_overflow by (rewrite Signal.length_linspace; lia). lra.
Qed.

Lemma apply_crossfade_abs_le (audio : list R) (sample_rate : Z)
  (fade_duration_ms : Q) (i : nat) :
  Rabs (nth i (apply_crossfade audio sample_rate fade_duration_ms) 0)
  <= Rabs (nth i audio 0).
Proof.
  set (n := Z.to_nat (fade_samples (length audio) sample_rate fade_duration_ms)).
  destruct (Nat.eq_dec n 0) as [H0|Hpos].
  - rewrite Signal.apply_crossfade_noop by exact H0. lra.
  - rewrite Signal.apply_crossfade_nth by (fold n; lia). fold n.
    assert (Hw : forall x w, 0 <= w <= 1 -> Rabs (x * w) <= Rabs x).
    { intros x w Hw. rewrite Rabs_mult, (Rabs_pos_eq w) by lra.
      pose proof (Rabs_pos x). nra. }
    destruct (i <? n)%nat; [apply Hw, linspace_unit|].
    destruct ((length audio - n <=? i) && (i <? length audio))%nat;
      [apply Hw, linspace_unit | lra].
Qed.

Lemma apply_crossfade_bounded (audio : list R) (sample_rate : Z)
  (fade_duration_ms : Q) (bound : R) :
  Forall (fun x => Rabs x <= bound) audio ->
  Forall (fun x => Rabs x <= bound)
    (apply_crossfade audio sample_rate fade_duration_ms).
Proof.
  intros Hall. apply Forall_nth. intros i d Hi.
  rewrite Signal.length_apply_crossfade in Hi.
  rewrite (nth_indep _ d 0) by now rewrite Signal.length_apply_crossfade.
  apply Rle_trans with (Rabs (nth i audio 0)); [apply apply_crossfade_abs_le|].
  now apply (proj1 (Forall_nth _ audio) Hall).
Qed.

(** X3: the crossfade keeps the length of the buffer and never amplifies: no
    sample comes out larger in absolute value than it went in, whatever the
    sample rate and the fade duration. *)
Theorem crossfade_never_amplifies (audio : list R) (sample_rate : Z)
  (fade_duration_ms : Q) :
  let out := apply_crossfade audio sample_rate fade_duration_ms in
  length out = length audio /\
  (forall i, Rabs (nth i out 0) <= Rabs (nth i audio 0)) /\
  (forall bound, Forall (fun x => Rabs x <= bound) audio ->
                 Forall (fun x => Rabs x <= bound) out).
Proof.
  intros out. split; [apply Signal.length_apply_crossfade|].
  split; [intros i; apply apply_crossfade_abs_le|].
  intros bound Hall. now apply apply_crossfade_bounded.
Qed.

(** **** Level normalization *)

Lemma tanh_sign (x : R) :
  (0 < x -> 0 < tanh x) /\ (x < 0 -> tanh x < 0).
Proof.
  pose proof (Signal.cosh_pos x) as Hc.
  pose proof (Rinv_0_lt_compat _ Hc) as Hi.
  unfold tanh, Rdiv. split; intros Hx.
  - assert (0 < sinh x).
    { unfold sinh. pose proof (exp_increasing (- x) x ltac:(lra)). lra. }
    nra.
  - assert (sinh x < 0).
    { unfold sinh. pose proof (exp_increasing x (- x) ltac:(lra)). lra. }
    nra.
Qed.

Lemma length_normalize (audio : list R) (target_rms : R) :
  length (normalize_audio_level audio target_rms) = length audio.
Proof.
  unfold normalize_audio_level. destruct (length audio =? 0)%nat; [reflexivity|].
  destruct (Rlt_dec 0 (rms audio)); [|reflexivity].
  unfold scale. now rewrite !length_map.
Qed.

Lemma normalization_factor_pos (target_rms r : R) :
  0 < target_rms -> 0 < r -> 0 < normalization_factor target_rms r.
Proof.
  intros Ht Hr. unfold normalization_factor.
  assert (0 < target_rms / r) by (apply Rdiv_lt_0_compat; assumption).
  destruct (Rlt_dec 2 (target_rms / r)); lra.
Qed.

(** X4: for a positive target level the normalizer keeps the length of the
    buffer and the polarity of every sample: positive stays positive,
    negative stays negative, zero stays zero. *)
Theorem normalize_keeps_length_and_polarity (audio : list R) (target_rms : R) :
  0 < target_rms ->
  let out := normalize_audio_level audio target_rms in
  length out = length audio /\
  forall i,
    (0 < nth i audio 0 -> 0 < nth i out 0) /\
    (nth i audio 0 < 0 -> nth i out 0 < 0) /\
    (nth i audio 0 = 0 -> nth i out 0 = 0).
Proof.
  intros Ht out. split; [apply length_normalize|]. intros i.
  unfold out, normalize_audio_level.
  destruct (length audio =? 0)%nat; [tauto|].
  destruct (Rlt_dec 0 (rms audio)) as [Hr|]; [|tauto].
  pose proof (normalization_factor_pos Ht Hr) as Hf.
  set (f := normalization_factor target_rms (rms audio)) in *.
  assert (Hn : nth i (map (fun x => tanh (x * 0.9) * 0.8) (scale f audio)) 0
               = tanh (nth i audio 0 * f * 0.9) * 0.8).
  { unfold scale. rewrite map_map.
    rewrite <- (map_nth (fun x => tanh (x * f * 0.9) * 0.8) audio 0 i).
    f_equal. rewrite !Rmult_0_l, Signal.tanh_0. lra. }
  rewrite Hn. set (x := nth i audio 0).
  destruct (tanh_sign (x * f * 0.9)) as [Hp Hm].
  split; [|split].
  - intros Hx. assert (0 < x * f * 0.9) by nra. specialize (Hp H). lra.
  - intros Hx. assert (x * f * 0.9 < 0) by nra. specialize (Hm H). lra.
  - intros Hx. rewrite Hx, !Rmult_0_l, Signal.tanh_0. lra.
Qed.

Lemma normalize_keeps_length_and_polarity_witness :
  length (normalize_audio_level [0.5; -0.5; 0] 0.15) = 3%nat.
Proof.
  apply (@normalize_keeps_length_and_polarity [0.5; -0.5; 0] 0.15). lra.
Defined.

(** X5: below the knee the normalizer undoes any input gain: scaling the
    recording by a positive factor does not change the normalized output, as
    long as the required factor stays at or below 2 before and after. *)
Theorem normalize_undoes_input_gain (audio : list R) (target_rms k : R) :
  audio <> [] -> 0 < rms audio -> 0 < k ->
  target_rms / rms audio <= 2 ->
  target_rms / (k * rms audio) <= 2 ->
  normalize_audio_level (scale k audio) target_rms
  = normalize_audio_level audio target_rms.
Proof.
  intros Hne Hr Hk H1 H2.
  assert (Hrk : rms (scale k audio) = k * rms audio).
  { rewrite Signal.rms_scale by exact Hne. now rewrite Rabs_pos_eq by lra. }
  assert (Hne' : scale k audio <> []) by (destruct audio; [congruence | discriminate]).
  unfold normalize_audio_level.
  rewrite (Signal.length_eqb_0 Hne), (Signal.length_eqb_0 Hne'), Hrk.
  destruct (Rlt_dec 0 (k * rms audio)) as [_|Hn]; [|exfalso; apply Hn; nra].
  destruct (Rlt_dec 0 (rms audio)) as [_|]; [|contradiction].
  unfold normalization_factor.
  destruct (Rlt_dec 2 (target_rms / (k * rms audio))); [lra|].
  destruct (Rlt_dec 2 (target_rms / rms audio)); [lra|].
  unfold scale. rewrite !map_map. apply map_ext. intros x.
  f_equal. f_equal. field. split; lra.
Qed.

Lemma normalize_undoes_input_gain_witness :
  normalize_audio_level (scale 2 [1]) 0.15 = normalize_audio_level [1] 0.15.
Proof.
  assert (Hr : rms [1] = 1).
  { unfold rms, mean. cbn [map fold_right length INR].
    replace ((1 * 1 + 0) / 1) with 1 by lra. apply sqrt_1. }
  apply (@normalize_undoes_input_gain [1] 0.15 2);
    [discriminate | rewrite Hr; lra | lra | rewrite Hr; lra | rewrite Hr; lra].
Defined.

End SignalExtra.

(** * Further properties of the capture loop and the dispatcher *)

Module CaptureExtra.
Import Transcriber AudioCapture Session.
Local Open Scope R_scope.

(** **** Device recording *)

Lemma left_channel_nth (rows : list (list R)) :
  forall col i,
    left_channel rows = Some col -> (i < length rows)%nat ->
    nth i col 0 = hd 0 (nth i rows []).
Proof.
  induction rows as [|row rows IH]; intros col i E Hi; [simpl in Hi; lia|].
  cbn [left_channel] in E. destruct row as [|x row]; [discriminate|].
  destruct (left_channel rows) as [c|] eqn:Ec; [|discriminate].
  inversion E; subst. destruct i as [|i]; [reflexivity|].
  cbn [nth]. apply IH; [reflexivity | simpl in Hi; lia].
Qed.

(** The flag and the data of a recording go together. *)
Lemma record_flag_spec (dev : device_result) :
  (snd (record_device_to_memory dev) = true ->
   fst (record_device_to_memory dev) <> []) /\
  (snd (record_device_to_memory dev) = false ->
   fst (record_device_to_memory dev) = []).
Proof.
  split.
  - destruct (record_device_to_memory dev) as [data ok] eqn:E. cbn [fst snd].
    intros ->. exact (CaptureLoop.record_success_nonempty _ E).
  - destruct dev as [| |d|rows]; cbn [record_device_to_memory]; try reflexivity.
    + destruct (0 <? length d)%nat; [discriminate | reflexivity].
    + destruct (0 <? length rows)%nat; [|reflexivity].
      destruct (left_channel rows); [discriminate | reflexivity].
Qed.

(** X6: a recording is flagged successful exactly when it carries samples; a
    failed one is the empty array, and a device that raises or returns
    [None] gives the empty array and [False].  A one-dimensional recording
    is passed on as it is, a frames-by-channels recording as the first
    channel of every frame. *)
Theorem recording_succeeds_iff_it_has_samples (dev : device_result) :
  let data := fst (record_device_to_memory dev) in
  let ok := snd (record_device_to_memory dev) in
  (ok = true <-> data <> []) /\
  (ok = false <-> data = []) /\
  (dev = RecordRaises \/ dev = RecordNone ->
   record_device_to_memory dev = ([], false)) /\
  (forall d, dev = RecordMono d -> data = d) /\
  (forall rows, dev = RecordFrames rows -> ok = true ->
     length data = length rows /\
     forall i, (i < length rows)%nat -> nth i data 0 = hd 0 (nth i rows [])).
Proof.
  intros data ok. destruct (record_flag_spec dev) as [Hs Hf].
  split; [|split; [|split; [|split]]].
  - split; [exact Hs|]. intros Hne. unfold ok, data in *.
    destruct (snd (record_device_to_memory dev)); [reflexivity|].
    now specialize (Hf eq_refl).
  - split; [exact Hf|]. intros Hnil. unfold ok, data in *.
    destruct (snd (record_device_to_memory dev)); [|reflexivity].
    now specialize (Hs eq_refl).
  - now intros [-> | ->].
  - intros d ->. unfold data. cbn [record_device_to_memory].
    destruct d; reflexivity.
  - intros rows -> Hok. unfold data, ok in *. cbn [record_device_to_memory] in *.
    destruct (0 <? length rows)%nat; [|discriminate Hok].
    destruct (left_channel rows) as [col|] eqn:Ec; [|discriminate Hok].
    cbn [fst]. split; [exact (CaptureLoop.length_left_channel _ Ec)|].
    intros i Hi. exact (left_channel_nth _ Ec Hi).
Qed.

Lemma recording_succeeds_iff_it_has_samples_witness :
  let rows := [[0.5; 0.25]; [-0.5; 0.75]] in
  length (fst (record_device_to_memory (RecordFrames rows))) = 2%nat /\
  nth 1 (fst (record_device_to_memory (RecordFrames rows))) 0 = -0.5.
Proof.
  intros rows.
  destruct (recording_succeeds_iff_it_has_samples (RecordFrames rows))
    as (_ & _ & _ & _ & H).
  destruct (H _ eq_refl eq_refl) as [Hl Hn].
  split; [exact Hl | exact (Hn 1%nat ltac:(simpl; lia))].
Defined.

(** **** One capture cycle *)

(** A cycle yields a chunk unless both recordings fail, and never an empty
    one. *)
Lemma record_and_mix_cases (cfg : AudioConfig)
  (mic_device system_device : device_result) :
  match record_and_mix_chunk cfg mic_device system_device with
  | None =>
      snd (record_device_to_memory mic_device) = false /\
      snd (record_device_to_memory system_device) = false
  | Some out =>
      (snd (record_device_to_memory mic_device) = true \/
       snd (record_device_to_memory system_device) = true) /\
      out <> []
  end.
Proof.
  destruct (record_flag_spec mic_device) as [Hms Hmf].
  destruct (record_flag_spec system_device) as [Hss Hsf].
  unfold record_and_mix_chunk.
  destruct (record_device_to_memory mic_device) as [ma mok].
  destruct (record_device_to_memory system_device) as [sa sok].
  cbn [fst snd] in *.
  set (mixed := mix_audio_streams _ _ _ _).
  assert (Lx : length mixed = Nat.max (length ma) (length sa)).
  { unfold mixed. rewrite SignalExtra.length_mix. f_equal.
    - destruct mok; [|now rewrite Hmf].
      cbn [andb]. destruct (0 <? length ma)%nat; [|reflexivity].
      apply Signal.length_apply_crossfade.
    - destruct sok; [|now rewrite Hsf].
      cbn [andb]. destruct (0 <? length sa)%nat; [|reflexivity].
      apply Signal.length_apply_crossfade. }
  destruct mok, sok; cbn [negb andb]; try (split; reflexivity).
  all: assert (Hpos : (0 < length mixed)%nat)
         by (rewrite Lx;
             first [ assert (length ma <> 0%nat)
                       by (intros H0; apply length_zero_iff_nil in H0;
                           now apply (Hms eq_refl));
                     lia
                   | assert (length sa <> 0%nat)
                       by (intros H0; apply length_zero_iff_nil in H0;
                           now apply (Hss eq_refl));
                     lia ]).
  all: destruct (Nat.ltb_spec 0 (length mixed)) as [_|Hle]; [|lia].
  all: split; [auto|].
  all: intros Hnil; apply (f_equal (@length R)) in Hnil;
       rewrite Signal.length_apply_crossfade in Hnil; simpl in Hnil; lia.
Qed.

(** X7: a capture cycle yields no chunk exactly when both recordings fail;
    otherwise the chunk is never empty and is as long as the longer of the
    two recordings. *)
Theorem chunk_is_missing_iff_both_recordings_fail (cfg : AudioConfig)
  (mic_device system_device : device_result) :
  let mic := record_device_to_memory mic_device in
  let sys := record_device_to_memory system_device in
  (record_and_mix_chunk cfg mic_device system_device = None <->
   snd mic = false /\ snd sys = false) /\
  forall out,
    record_and_mix_chunk cfg mic_device system_device = Some out ->
    out <> [] /\ length out = Nat.max (length (fst mic)) (length (fst sys)).
Proof.
  intros mic sys.
  destruct (record_flag_spec mic_device) as [Hms Hmf].
  destruct (record_flag_spec system_device) as [Hss Hsf].
  unfold mic, sys, record_and_mix_chunk in *.
  destruct (record_device_to_memory mic_device) as [ma mok].
  destruct (record_device_to_memory system_device) as [sa sok].
  cbn [fst snd] in *.
  set (ma' := if mok && (0 <? length ma)%nat
              then apply_crossfade ma (sample_rate cfg) 10%Q else ma).
  set (sa' := if sok && (0 <? length sa)%nat
              then apply_crossfade sa (sample_rate cfg) 10%Q else sa).
  assert (Lm : length (if mok then ma' else []) = length ma).
  { unfold ma'. destruct mok; [|now rewrite Hmf].
    cbn [andb]. destruct (0 <? length ma)%nat; [|reflexivity].
    apply Signal.length_apply_crossfade. }
  assert (Ls : length (if sok then sa' else []) = length sa).
  { unfold sa'. destruct sok; [|now rewrite Hsf].
    cbn [andb]. destruct (0 <? length sa)%nat; [|reflexivity].
    apply Signal.length_apply_crossfade. }
  pose proof (SignalExtra.length_mix (if mok then ma' else [])
                (if sok then sa' else []) (mic_volume cfg) (system_volume cfg)) as Lx.
  rewrite Lm, Ls in Lx.
  destruct (negb mok && negb sok) eqn:Eboth.
  - apply andb_true_iff in Eboth. destruct Eboth as [E1 E2].
    apply negb_true_iff in E1, E2. subst. split; [tauto|]. discriminate.
  - assert (Hpos : (0 < Nat.max (length ma) (length sa))%nat).
    { destruct mok.
      - specialize (Hms eq_refl).
        assert (length ma <> 0%nat)
          by (intros H0; now apply length_zero_iff_nil in H0).
        lia.
      - destruct sok; [|discriminate Eboth].
        specialize (Hss eq_refl).
        assert (length sa <> 0%nat)
          by (intros H0; now apply length_zero_iff_nil in H0).
        lia. }
    rewrite <- Lx in Hpos. apply Nat.ltb_lt in Hpos. rewrite Hpos. split.
    + split; [discriminate|]. intros [-> ->]. discriminate Eboth.
    + intros out E. inversion E; subst.
      apply Nat.ltb_lt in Hpos.
      split; [|now rewrite Signal.length_apply_crossfade].
      intros Hnil. apply (f_equal (@length R)) in Hnil.
      rewrite Signal.length_apply_crossfade in Hnil. simpl in Hnil. lia.
Qed.

Lemma chunk_is_missing_iff_both_recordings_fail_witness :
  record_and_mix_chunk default_config RecordRaises RecordNone = None.
Proof.
  apply (chunk_is_missing_iff_both_recordings_fail default_config RecordRaises RecordNone).
  split; reflexivity.
Defined.

(** **** Conversion to 16-bit PCM *)

Lemma Rabs_le_1_iff (x : R) : Rabs x <= 1 <-> full_scale x.
Proof.
  unfold full_scale. split; [|apply Rabs_le].
  unfold Rabs. destruct (Rcase_abs x); lra.
Qed.

Lemma mix_bounded (a b : list R) (r1 r2 : R) :
  0 <= r1 <= 1 -> 0 <= r2 <= 1 ->
  Forall (fun x => Rabs x <= 1) a -> Forall (fun x => Rabs x <= 1) b ->
  Forall (fun x => Rabs x <= 1) (mix_audio_streams a b r1 r2).
Proof.
  intros H1 H2 Ha Hb.
  assert (Hs : forall r l, 0 <= r <= 1 -> Forall (fun x => Rabs x <= 1) l ->
               Forall (fun x => Rabs x <= 1) (scale r l)).
  { intros r l Hr Hl. unfold scale. apply Forall_map.
    eapply Forall_impl; [|exact Hl]. cbn beta. intros x Hx.
    rewrite Rabs_mult, (Rabs_pos_eq r) by lra. pose proof (Rabs_pos x). nra. }
  destruct a as [|x a], b as [|y b].
  - constructor.
  - now apply Hs.
  - now apply Hs.
  - rewrite SignalExtra.mix_both_present by discriminate.
    eapply Forall_impl; [|apply Signal.soft_compress_bounded].
    cbn beta. intros z Hz. lra.
Qed.

(** Truncation toward zero stays within the bound of its argument. *)
Lemma Rtrunc_bounded (y : R) (B : Z) :
  Rabs y <= IZR B -> (- B <= Rtrunc y <= B)%Z.
Proof.
  intros Hy. assert (HB : 0 <= IZR B) by (pose proof (Rabs_pos y); lra).
  apply le_IZR in HB. unfold Rtrunc.
  destruct (Rle_dec 0 y) as [Hpos|Hneg].
  - rewrite Rabs_pos_eq in Hy by exact Hpos.
    destruct (base_Int_part y) as [Hlo Hhi].
    assert (IZR (Int_part y) <= IZR B) by lra.
    assert (IZR (-1) < IZR (Int_part y)) by lra.
    apply le_IZR in H. apply lt_IZR in H0. lia.
  - assert (Hy' : - y <= IZR B).
    { rewrite <- Rabs_Ropp in Hy. rewrite Rabs_pos_eq in Hy by lra. exact Hy. }
    destruct (base_Int_part (- y)) as [Hlo Hhi].
    assert (IZR (Int_part (- y)) <= IZR B) by lra.
    assert (IZR (-1) < IZR (Int_part (- y))) by lra.
    apply le_IZR in H. apply lt_IZR in H0. lia.
Qed.

Lemma full_scale_pcm (x : R) :
  full_scale x ->
  astype_int16 (x * 32767) = Rtrunc (x * 32767) /\
  (-32767 <= Rtrunc (x * 32767) <= 32767)%Z.
Proof.
  intros Hx.
  assert (Ha : Rabs (x * 32767) <= IZR 32767)
    by (apply Rabs_le; unfold full_scale in Hx; lra).
  pose proof (@Rtrunc_bounded (x * 32767) 32767%Z Ha) as Hb.
  split; [|lia]. unfold astype_int16.
  rewrite Z.mod_small by lia. lia.
Qed.

Lemma length_pcm16_bytes (l : list R) :
  length (pcm16_bytes l) = (2 * length l)%nat.
Proof.
  unfold pcm16_bytes. induction l as [|x l IH]; [reflexivity|].
  cbn [flat_map length int16_bytes app]. rewrite IH. lia.
Qed.

(** X8: when the recorded samples are within full scale and the two mixing
    ratios lie between 0 and 1, every sample of the mixed chunk is within
    full scale, so the conversion to 16-bit integers is plain truncation
    toward zero and never leaves the range of a 16-bit integer; the chunk
    becomes two bytes per sample. *)
Theorem mixed_chunk_fits_sixteen_bits (cfg : AudioConfig)
  (mic_device system_device : device_result) (out : list R) :
  0 <= mic_volume cfg <= 1 -> 0 <= system_volume cfg <= 1 ->
  Forall full_scale (fst (record_device_to_memory mic_device)) ->
  Forall full_scale (fst (record_device_to_memory system_device)) ->
  record_and_mix_chunk cfg mic_device system_device = Some out ->
  Forall full_scale out /\
  Forall (fun x => astype_int16 (x * 32767) = Rtrunc (x * 32767) /\
                   (-32767 <= Rtrunc (x * 32767) <= 32767)%Z) out /\
  length (pcm16_bytes out) = (2 * length out)%nat.
Proof.
  intros Hmv Hsv Hm Hs E.
  assert (Hout : Forall (fun x => Rabs x <= 1) out).
  { unfold record_and_mix_chunk in E.
    destruct (record_device_to_memory mic_device) as [ma mok].
    destruct (record_device_to_memory system_device) as [sa sok].
    cbn [fst] in Hm, Hs.
    assert (Am : Forall (fun x => Rabs x <= 1) ma)
      by (eapply Forall_impl; [|exact Hm]; intros a; apply Rabs_le_1_iff).
    assert (As : Forall (fun x => Rabs x <= 1) sa)
      by (eapply Forall_impl; [|exact Hs]; intros a; apply Rabs_le_1_iff).
    destruct (negb mok && negb sok); [discriminate E|].
    match type of E with
    | (if (0 <? length ?m)%nat then _ else _) = _ =>
        destruct (0 <? length m)%nat; [|discriminate E];
        assert (Hmix : Forall (fun x => Rabs x <= 1) m)
    end.
    { apply mix_bounded; try assumption.
      - destruct mok; [|constructor]. cbn [andb].
        destruct (0 <? length ma)%nat; [|exact Am].
        now apply SignalExtra.apply_crossfade_bounded.
      - destruct sok; [|constructor]. cbn [andb].
        destruct (0 <? length sa)%nat; [|exact As].
        now apply SignalExtra.apply_crossfade_bounded. }
    inversion E; subst. now apply SignalExtra.apply_crossfade_bounded. }
  assert (Hfs : Forall full_scale out)
    by (eapply Forall_impl; [|exact Hout]; intros a; apply Rabs_le_1_iff).
  split; [exact Hfs|]. split; [|apply length_pcm16_bytes].
  eapply Forall_impl; [|exact Hfs]. intros a. apply full_scale_pcm.
Qed.

Lemma mixed_chunk_fits_sixteen_bits_witness :
  exists out,
    record_and_mix_chunk transcriber_config (RecordMono [1; -1]) RecordRaises = Some out /\
    Forall full_scale out.
Proof.
  assert (E : record_and_mix_chunk transcriber_config (RecordMono [1; -1]) RecordRaises
              = Some (apply_crossfade
                        (scale 1 (apply_crossfade [1; -1] 24000 10%Q)) 24000 5%Q))
    by reflexivity.
  eexists. split; [exact E|].
  apply (@mixed_chunk_fits_sixteen_bits transcriber_config (RecordMono [1; -1])
           RecordRaises _).
  - cbn [mic_volume transcriber_config]. lra.
  - cbn [system_volume transcriber_config]. lra.
  - cbn [record_device_to_memory length Nat.ltb Nat.leb fst].
    repeat constructor; unfold full_scale; lra.
  - constructor.
  - exact E.
Defined.

(** **** The capture loop and the dispatcher *)

Lemma send_keeps_config (fuel : nat) (bytes : list byte) (acquired : bool)
  (c c' : capture) (frames : list (list byte)) :
  send_mixed_audio_data fuel bytes acquired c = Some (c', frames) ->
  config c' = config c /\ has_transcriber c' = has_transcriber c.
Proof.
  unfold send_mixed_audio_data. destruct acquired.
  - destruct (drain fuel _ _) as [[rest chunks]|]; [|discriminate].
    intros E; inversion E; subst. split; reflexivity.
  - intros E; inversion E; subst. split; reflexivity.
Qed.

(** The capture loop is the dispatcher run on the chunks its passes yield. *)
Lemma continuous_capture_dispatches
  (cycles : list (device_result * device_result * bool)) :
  forall (fuel : nat) (c : capture),
    continuous_capture fuel cycles c
    = dispatch_cycles fuel (cycle_chunks (config c) cycles) c.
Proof.
  induction cycles as [|[[m s0] acquired] cycles IH]; intros fuel c; [reflexivity|].
  cbn [continuous_capture]. unfold cycle_chunks. cbn [flat_map fst snd].
  fold (cycle_chunks (config c) cycles). unfold capture_cycle.
  destruct (capture_bytes (config c) m s0) as [b|].
  - cbn [app dispatch_cycles].
    destruct (send_mixed_audio_data fuel b acquired c) as [[c1 f1]|] eqn:E;
      [|reflexivity].
    destruct (send_keeps_config _ _ _ _ E) as [Hc _].
    now rewrite IH, Hc.
  - cbn [app]. rewrite IH. now destruct (dispatch_cycles fuel _ c) as [[c2 f2]|].
Qed.

(** X9: with a positive frame size the capture loop, started on an empty
    buffer, gets through any number of passes whatever the devices deliver
    and whether or not the lock is obtained: the slicing loop always ends,
    every frame released has exactly the frame size, and less than one frame
    stays in the buffer. *)
Theorem capture_loop_releases_full_frames (cfg : AudioConfig) (transcriber : bool)
  (cycles : list (device_result * device_result * bool)) :
  (0 < chunk_size cfg)%Z ->
  exists c' frames,
    (forall fuel, (offered (cycle_chunks cfg cycles) <= fuel)%nat ->
       continuous_capture fuel cycles (new_capture cfg transcriber) = Some (c', frames)) /\
    Forall (fun f => Z.of_nat (length f) = chunk_size cfg) frames /\
    (Z.of_nat (length (mixed_buffer c')) < chunk_size cfg)%Z.
Proof.
  intros HF. set (c0 := new_capture cfg transcriber).
  destruct (@Dispatcher.dispatch_cycles_spec (chunk_size cfg) HF
              (cycle_chunks cfg cycles) (offered (cycle_chunks cfg cycles)) c0)
    as (c' & frames & E & Hall & Hres); [reflexivity | exact HF | simpl; lia |].
  exists c', frames. split; [|split; assumption].
  intros fuel Hfuel. rewrite continuous_capture_dispatches.
  exact (Dispatcher.dispatch_cycles_more_fuel _ _ E Hfuel).
Qed.

Lemma capture_loop_releases_full_frames_witness :
  let cycles :=
    [(RecordMono [0; 0], RecordRaises, true); (RecordNone, RecordNone, true)] in
  exists c' frames,
    (forall fuel,
       (offered (cycle_chunks default_config cycles) <= fuel)%nat ->
       continuous_capture fuel cycles (new_capture default_config true)
       = Some (c', frames)) /\
    Forall (fun f => Z.of_nat (length f) = 1024%Z) frames /\
    (Z.of_nat (length (mixed_buffer c')) < 1024)%Z.
Proof.
  intros cycles.
  apply (@capture_loop_releases_full_frames default_config true cycles).
  reflexivity.
Defined.

Lemma length_concat_frames (F : nat) (frames : list (list byte)) :
  Forall (fun f => length f = F) frames ->
  length (concat frames) = (F * length frames)%nat.
Proof.
  induction 1 as [|f frames Hf _ IH]; [cbn; lia|].
  cbn [concat length]. rewrite length_app, IH, Hf. lia.
Qed.

(** X10: with a positive frame size the dispatcher, started on an empty
    buffer, gets through any run of chunks, and it neither loses, repeats
    nor reorders a byte it took under the lock: the frames forwarded,
    followed by the residue, are the chunks taken, in order.  So the number
    of frames forwarded is the number of bytes taken divided by the frame
    size, and the residue holds the remainder; a chunk offered while the
    lock is held elsewhere is dropped whole. *)
Theorem dispatcher_conserves_taken_bytes (cfg : AudioConfig)
  (inputs : list (list byte * bool)) :
  (0 < chunk_size cfg)%Z ->
  let taken := concat (map fst (filter snd inputs)) in
  exists c' frames,
    (forall fuel, (offered inputs <= fuel)%nat ->
       dispatch_cycles fuel inputs (new_capture cfg true) = Some (c', frames)) /\
    concat frames ++ mixed_buffer c' = taken /\
    Z.of_nat (length frames) = (Z.of_nat (length taken) / chunk_size cfg)%Z /\
    Z.of_nat (length (mixed_buffer c'))
    = (Z.of_nat (length taken) mod chunk_size cfg)%Z.
Proof.
  intros HF taken.
  destruct (@Dispatcher.dispatch_cycles_spec (chunk_size cfg) HF inputs
              (offered inputs) (new_capture cfg true))
    as (c' & frames & E & Hall & Hres); [reflexivity | exact HF | simpl; lia |].
  exists c', frames.
  split; [intros fuel Hfuel; exact (Dispatcher.dispatch_cycles_more_fuel _ _ E Hfuel)|].
  pose proof (@Dispatcher.dispatch_cycles_concat inputs (offered inputs)
                (new_capture cfg true) c' frames eq_refl E) as Hcat.
  cbn [mixed_buffer new_capture app] in Hcat. fold taken in Hcat.
  split; [exact Hcat|].
  assert (Hall' : Forall (fun f => length f = Z.to_nat (chunk_size cfg)) frames).
  { eapply Forall_impl; [|exact Hall]. cbn beta. intros f Hf. lia. }
  pose proof (length_concat_frames Hall') as Hlen.
  apply (f_equal (@length byte)) in Hcat. rewrite length_app, Hlen in Hcat.
  assert (Heq : Z.of_nat (length taken)
                = (chunk_size cfg * Z.of_nat (length frames)
                   + Z.of_nat (length (mixed_buffer c')))%Z) by lia.
  split.
  - apply (Z.div_unique_pos _ _ _ (Z.of_nat (length (mixed_buffer c'))));
      [lia | exact Heq].
  - apply (Z.mod_unique_pos _ _ (Z.of_nat (length frames)));
      [lia | exact Heq].
Qed.

Lemma dispatcher_conserves_taken_bytes_witness :
  let cfg := mkConfig 24000 1 1024 0.8 0.8 4 0.5%Q in
  let inputs := [([x01; x02; x03], true); ([x04; x05], false);
                 ([x06; x07; x08; x09; x0a; x0b], true)] in
  exists c' frames,
    (forall fuel, (offered inputs <= fuel)%nat ->
       dispatch_cycles fuel inputs (new_capture cfg true) = Some (c', frames)) /\
    concat frames ++ mixed_buffer c'
    = [x01; x02; x03; x06; x07; x08; x09; x0a; x0b] /\
    Z.of_nat (length frames) = 2%Z.
Proof.
  intros cfg inputs.
  destruct (@dispatcher_conserves_taken_bytes cfg inputs eq_refl)
    as (c' & frames & Hrun & Hcat & Hn & _).
  exists c', frames. split; [exact Hrun|]. split; [exact Hcat | exact Hn].
Defined.

(** **** Frames on their way to the connection *)

Lemma forward_frames (loop_open : bool) (st : state) (frames : list (list byte)) :
  flat_map (fun chunk => process_audio_bytes loop_open chunk st) frames
  = if websocket st && running st && loop_open
    then map (fun chunk => WsSend (AudioAppend chunk)) frames
    else [].
Proof.
  unfold process_audio_bytes, send_message.
  induction frames as [|f frames IH]; cbn [flat_map map].
  - now destruct (websocket st && running st && loop_open).
  - rewrite IH. destruct (websocket st), (running st), loop_open; reflexivity.
Qed.

(** X11: the frames cut from the shared buffer are sent, one
    [input_audio_buffer.append] each, only while the transcriber holds a
    connection, is running and has an open event loop.  Otherwise, and in
    particular after [stop], they are cut from the buffer all the same and
    discarded: the buffer ends up as if they had been sent. *)
Theorem frames_cut_while_not_streaming_are_discarded
  (fuel : nat) (loop_open : bool) (bytes : list byte) (acquired : bool)
  (c c' : capture) (frames : list (list byte)) (st : state) :
  send_mixed_audio_data fuel bytes acquired c = Some (c', frames) ->
  (websocket st && running st && loop_open = true ->
   send_to_transcriber fuel loop_open bytes acquired c st
   = Some (c', map (fun chunk => WsSend (AudioAppend chunk)) frames)) /\
  (websocket st && running st && loop_open = false ->
   send_to_transcriber fuel loop_open bytes acquired c st = Some (c', [])) /\
  (forall lo,
     send_to_transcriber fuel loop_open bytes acquired c (fst (stop lo st))
     = Some (c', [])).
Proof.
  intros E. unfold send_to_transcriber. rewrite E.
  split; [|split].
  - intros H. now rewrite forward_frames, H.
  - intros H. now rewrite forward_frames, H.
  - intros lo. rewrite forward_frames. cbn [stop fst running websocket
      set_running set_session_data set_client_secret].
    now rewrite andb_false_r.
Qed.

Lemma frames_cut_while_not_streaming_are_discarded_witness :
  let cfg := mkConfig 24000 1 1024 0.8 0.8 2 0.5%Q in
  let st := set_websocket true (set_running true (init false)) in
  send_to_transcriber 3 true [x01; x02; x03] true (new_capture cfg true) st
  = Some (set_mixed_buffer [x03] (new_capture cfg true),
          [WsSend (AudioAppend [x01; x02])]) /\
  send_to_transcriber 3 true [x01; x02; x03] true (new_capture cfg true)
    (fst (stop true st))
  = Some (set_mixed_buffer [x03] (new_capture cfg true), []).
Proof.
  intros cfg st.
  destruct (@frames_cut_while_not_streaming_are_discarded 3 true [x01; x02; x03] true
              (new_capture cfg true) (set_mixed_buffer [x03] (new_capture cfg true))
              [[x01; x02]] st eq_refl) as (H1 & _ & H3).
  split; [exact (H1 eq_refl) | exact (H3 true)].
Defined.

(** X12: [_process_audio_block] sends nothing unless the transcriber holds a
    connection, is running and has an open event loop; then it sends one
    [input_audio_buffer.append] of two bytes per sample, and because the
    samples are clipped to full scale first, the conversion to 16-bit
    integers is plain truncation and never leaves the 16-bit range, whatever
    the input. *)
Theorem audio_block_is_clipped_before_conversion
  (loop_open : bool) (audio : list R) (st : state) :
  let audio_bytes := pcm16_bytes (map clip audio) in
  process_audio_block loop_open audio st
  = (if websocket st && running st && loop_open
     then [WsSend (AudioAppend audio_bytes)] else []) /\
  length audio_bytes = (2 * length audio)%nat /\
  Forall (fun x => full_scale (clip x) /\
                   astype_int16 (clip x * 32767) = Rtrunc (clip x * 32767) /\
                   (-32767 <= Rtrunc (clip x * 32767) <= 32767)%Z) audio.
Proof.
  intros audio_bytes. split; [|split].
  - unfold process_audio_block, send_message. fold audio_bytes.
    destruct (websocket st), (running st), loop_open; reflexivity.
  - unfold audio_bytes. now rewrite length_pcm16_bytes, length_map.
  - apply Forall_forall. intros x _.
    assert (Hc : full_scale (clip x)).
    { unfold full_scale, clip. split.
      - apply Rmin_glb; [apply Rmax_r | lra].
      - apply Rmin_r. }
    split; [exact Hc | now apply full_scale_pcm].
Qed.

(** **** Device lookup *)

Lemma no_speaker_name_no_loopback {D : Type} (name_of : D -> option string)
  (mics : list D) :
  find_system_mic name_of None mics = None.
Proof.
  induction mics as [|d mics IH]; [reflexivity|].
  cbn [find_system_mic]. now destruct (name_of d).
Qed.

Lemma find_system_mic_skip {D : Type} (name_of : D -> option string)
  (b : string) (d : D) (mics : list D) :
  name_of d <> Some b ->
  find_system_mic name_of (Some b) (d :: mics)
  = find_system_mic name_of (Some b) mics.
Proof.
  intros Hne. cbn [find_system_mic]. destruct (name_of d) as [a|]; [|reflexivity].
  destruct (String.eqb_spec a b) as [->|]; [congruence | reflexivity].
Qed.

(** X13: the loopback device picked is the first input device that bears
    the default speaker's name; devices whose name cannot be read are passed
    over; no device is picked exactly when none bears that name, and always
    when the speaker's name itself cannot be read. *)
Theorem loopback_is_first_device_named_like_speaker
  {D : Type} (name_of : D -> option string) (speaker_name : option string)
  (mics : list D) :
  (forall mic,
     find_system_mic name_of speaker_name mics = Some mic ->
     exists n before after,
       speaker_name = Some n /\ name_of mic = Some n /\
       mics = before ++ mic :: after /\
       Forall (fun d => name_of d <> Some n) before) /\
  (find_system_mic name_of speaker_name mics = None <->
   forall n, speaker_name = Some n -> Forall (fun d => name_of d <> Some n) mics).
Proof.
  destruct speaker_name as [b|].
  - induction mics as [|d mics [IH1 IH2]].
    + split; [discriminate|]. split; [constructor | reflexivity].
    + destruct (name_of d) as [a|] eqn:Ea.
      * destruct (String.eqb_spec a b) as [Hab|Hab].
        -- subst a. cbn [find_system_mic]. rewrite Ea, String.eqb_refl. split.
           ++ intros mic E. inversion E; subst mic.
              exists b, [], mics. repeat split; [exact Ea | constructor].
           ++ split; [discriminate|]. intros H. specialize (H b eq_refl).
              inversion H; subst. congruence.
        -- assert (Hne : name_of d <> Some b) by congruence.
           rewrite (@find_system_mic_skip D name_of b d mics Hne). split.
           ++ intros mic E.
              destruct (IH1 mic E) as (n & before & after & Hn & Hm & Hl & Hb).
              inversion Hn; subst n. subst mics.
              exists b, (d :: before), after. repeat split; try assumption.
              constructor; assumption.
           ++ rewrite IH2. split.
              ** intros H n Hn. inversion Hn; subst n.
                 constructor; [assumption | now apply H].
              ** intros H n Hn. specialize (H n Hn). now inversion H.
      * assert (Hne : name_of d <> Some b) by congruence.
        rewrite (@find_system_mic_skip D name_of b d mics Hne). split.
        -- intros mic E.
           destruct (IH1 mic E) as (n & before & after & Hn & Hm & Hl & Hb).
           inversion Hn; subst n. subst mics.
           exists b, (d :: before), after. repeat split; try assumption.
           constructor; assumption.
        -- rewrite IH2. split.
           ++ intros H n Hn. inversion Hn; subst n.
              constructor; [assumption | now apply H].
           ++ intros H n Hn. specialize (H n Hn). now inversion H.
  - rewrite no_speaker_name_no_loopback. split; [discriminate|].
    split; [intros _ n Hn; discriminate Hn | reflexivity].
Qed.

Lemma loopback_is_first_device_named_like_speaker_witness :
  let mics := [(1%nat, Some "Microphone"%string); (2%nat, None);
               (3%nat, Some "Speakers"%string); (4%nat, Some "Speakers"%string)] in
  exists n before after,
    Some "Speakers"%string = Some n /\ snd (3%nat, Some "Speakers"%string) = Some n /\
    mics = before ++ (3%nat, Some "Speakers"%string) :: after /\
    Forall (fun d : nat * option string => snd d <> Some n) before.
Proof.
  intros mics.
  apply (@loopback_is_first_device_named_like_speaker (nat * option string)
           (fun d => snd d) (Some "Speakers"%string) mics).
  reflexivity.
Defined.

End CaptureExtra.

(** * The silent cycle *)

Module SilentCycle.
Import AudioCapture.
Local Open Scope R_scope.

(** The path of [_record_and_mix_chunk] when both recordings succeed with
    only zero samples. *)
Lemma record_and_mix_silent_devices (cfg : AudioConfig)
  (mic_device system_device : device_result) (mic sys : list R) :
  record_device_to_memory mic_device = (mic, true) ->
  record_device_to_memory system_device = (sys, true) ->
  Forall (eq 0) mic -> Forall (eq 0) sys ->
  (0 < Nat.max (length mic) (length sys))%nat /\
  record_and_mix_chunk cfg mic_device system_device =
    Some (repeat 0 (Nat.max (length mic) (length sys))).
Proof.
  intros Em Es Zm Zs.
  pose proof (CaptureLoop.record_success_nonempty _ Em) as Hm.
  pose proof (CaptureLoop.record_success_nonempty _ Es) as Hs.
  assert (Pm : (0 < length mic)%nat) by (destruct mic; [congruence | simpl; lia]).
  assert (Ps : (0 < length sys)%nat) by (destruct sys; [congruence | simpl; lia]).
  split; [lia|].
  unfold record_and_mix_chunk. rewrite Em, Es.
  cbn [negb andb].
  rewrite (CaptureLoop.length_ltb_0 Hm), (CaptureLoop.length_ltb_0 Hs).
  rewrite (Forall_eq_repeat Zm), (Forall_eq_repeat Zs).
  rewrite !Signal.apply_crossfade_zeros, !repeat_length.
  rewrite Signal.mix_zeros by assumption.
  rewrite repeat_length, Signal.apply_crossfade_zeros.
  destruct (Nat.ltb_spec 0 (Nat.max (length mic) (length sys))); [reflexivity | lia].
Qed.

(** C4 (amended): a cycle in which both recordings succeed with only zero
    samples hands the dispatcher two zero-valued bytes per sample of the
    longer recording, and these release frames like any other audio (at
    least one as soon as they fill a frame).  The dispatcher is handed
    nothing for a cycle exactly when both recordings fail, and then no frame
    is released. *)
Theorem silent_cycle_sends_zero_valued_bytes (cfg : AudioConfig)
  (mic_device system_device : device_result) (mic sys : list R) :
  record_device_to_memory mic_device = (mic, true) ->
  record_device_to_memory system_device = (sys, true) ->
  Forall (eq 0) mic -> Forall (eq 0) sys ->
  let n := Nat.max (length mic) (length sys) in
  (0 < n)%nat /\
  capture_bytes cfg mic_device system_device = Some (repeat x00 (2 * n)) /\
  (forall (c : capture) (fuel : nat),
      config c = cfg -> has_transcriber c = true ->
      (0 < chunk_size cfg <= Z.of_nat (2 * n))%Z ->
      (length (mixed_buffer c) + 2 * n <= fuel)%nat ->
      exists c' frame frames,
        capture_cycle fuel mic_device system_device true c
        = Some (c', frame :: frames)) /\
  (forall (m s : device_result),
      capture_bytes cfg m s = None <->
      snd (record_device_to_memory m) = false /\
      snd (record_device_to_memory s) = false) /\
  (forall (m s : device_result) (c : capture) (fuel : nat) (acquired : bool),
      config c = cfg -> capture_bytes cfg m s = None ->
      capture_cycle fuel m s acquired c = Some (c, [])).
Proof.
  intros Em Es Zm Zs n.
  destruct (@record_and_mix_silent_devices cfg _ _ _ _ Em Es Zm Zs) as [Hpos Hmix].
  fold n in Hpos, Hmix.
  assert (Hb : capture_bytes cfg mic_device system_device = Some (repeat x00 (2 * n))).
  { unfold capture_bytes. rewrite Hmix, repeat_length.
    destruct (Nat.ltb_spec 0 n); [|lia]. now rewrite CaptureLoop.pcm16_zeros. }
  split; [exact Hpos|]. split; [exact Hb|]. split; [|split].
  - intros c fuel Hcfg Htr HF Hfuel.
    unfold capture_cycle, send_mixed_audio_data. rewrite Hcfg, Hb, Htr.
    destruct (@CaptureLoop.drain_releases (chunk_size cfg) fuel
                (mixed_buffer c ++ repeat x00 (2 * n)))
      as (rest & chunk & chunks & E).
    + rewrite length_app, repeat_length. lia.
    + rewrite length_app, repeat_length. lia.
    + rewrite E. now eexists _, _, _.
  - intros m s. unfold capture_bytes.
    pose proof (CaptureExtra.record_and_mix_cases cfg m s) as Hc.
    destruct (record_and_mix_chunk cfg m s) as [out|].
    + destruct Hc as [Hok Hne].
      assert (Hl : (0 <? length out)%nat = true)
        by (apply Nat.ltb_lt; destruct out; [congruence | simpl; lia]).
      rewrite Hl. split; [discriminate|].
      intros [H1 H2]. rewrite H1, H2 in Hok. destruct Hok; discriminate.
    + tauto.
  - intros m s c fuel acquired Hcfg Hn. unfold capture_cycle. now rewrite Hcfg, Hn.
Qed.

Lemma silent_cycle_sends_zero_valued_bytes_witness :
  capture_bytes default_config (RecordMono [0; 0])
    (RecordFrames [[0; 0.5]; [0; 1]; [0; 0]])
  = Some (repeat x00 6).
Proof.
  apply (@silent_cycle_sends_zero_valued_bytes default_config (RecordMono [0; 0])
           (RecordFrames [[0; 0.5]; [0; 1]; [0; 0]]) [0; 0] [0; 0; 0]);
    try reflexivity; repeat constructor.
Defined.

End SilentCycle.

(** * Further properties of the transcriber *)

Module SessionExtra.
Import Transcriber Session.

(** **** Transcript store *)

Lemma append_nil_r (a : string) : (a ++ "")%string = a.
Proof. induction a as [|c a IH]; simpl; [reflexivity | now rewrite IH]. Qed.

Lemma store_extends_refl (st : state) : store_extends st st.
Proof.
  split; [auto|]. split; [auto|]. exists ""%string. now rewrite append_nil_r.
Qed.

Lemma store_extends_trans (a b c : state) :
  store_extends a b -> store_extends b c -> store_extends a c.
Proof.
  intros (L1 & A1 & s1 & E1) (L2 & A2 & s2 & E2).
  split; [auto|]. split; [auto|].
  exists (s1 ++ s2)%string. now rewrite E2, E1, TranscriptStore.append_assoc.
Qed.

Lemma length_deque_append {A : Type} (n : nat) (x : A) (d : list A) :
  (length d <= n)%nat -> (length (Py.deque_append n x d) <= n)%nat.
Proof.
  intros H. unfold Py.deque_append.
  destruct (Nat.ltb_spec n (length (d ++ [x]))) as [Hlt|Hge]; [|exact Hge].
  rewrite length_app in Hlt. cbn [length] in Hlt.
  destruct d as [|a d]; cbn [app tl length] in *; [lia|].
  rewrite length_app. cbn [length]. lia.
Qed.

Lemma Forall_deque_append {A : Type} (P : A -> Prop) (n : nat) (x : A) (d : list A) :
  P x -> Forall P d -> Forall P (Py.deque_append n x d).
Proof.
  intros Hx Hd. unfold Py.deque_append.
  assert (H : Forall P (d ++ [x])) by (apply Forall_app; split; [exact Hd | now constructor]).
  destruct (n <? length (d ++ [x]))%nat; [|exact H].
  destruct (d ++ [x]); [constructor | now inversion H].
Qed.

Lemma update_transcript_extends (text : string) (now : Q) (st : state) :
  store_extends st (fst (update_transcript text now st)).
Proof.
  unfold update_transcript.
  destruct (negb (Py.truthy_str text) || Py.isspace text) eqn:E;
    [apply store_extends_refl|].
  cbn [fst]. split; [|split].
  - intros H. cbn [chunks set_transcript]. now apply length_deque_append.
  - intros H. unfold held_accepted. cbn [chunks set_transcript].
    apply Forall_deque_append; [|exact H].
    unfold accepted. cbn [fst]. now rewrite E.
  - cbn [full_transcript set_transcript].
    destruct (full_transcript st) as [|c ft]; cbn [Py.truthy_str].
    + now exists text.
    + now exists (" " ++ text)%string.
Qed.

Lemma set_marker_extends (t : option Q) (st : state) :
  store_extends st (set_processing_start_time t st).
Proof.
  split; [auto|]. split; [auto|]. exists ""%string.
  cbn [full_transcript set_processing_start_time]. now rewrite append_nil_r.
Qed.

Lemma handle_message_extends (cb : bool) (m : option json) (now : Q) (st : state) :
  store_extends st (fst (handle_message cb m now st)).
Proof.
  unfold handle_message, handle_message_body.
  destruct m as [data|]; [|apply store_extends_refl].
  destruct (Json.get "type" (JStr "") data) as [ty|]; [|apply store_extends_refl].
  destruct (Json.eq_str ty "input_audio_buffer.speech_stopped");
    [apply store_extends_refl|].
  destruct (Json.eq_str ty "input_audio_buffer.committed");
    [apply set_marker_extends|].
  destruct (Json.eq_str ty "conversation.item.input_audio_transcription.completed").
  { destruct (Json.get "transcript" (JStr "") data) as [t|];
      [|apply store_extends_refl].
    destruct (Json.str_strip t) as [tr|]; [|apply store_extends_refl].
    destruct (Py.truthy_str tr); [|apply set_marker_extends].
    pose proof (update_transcript_extends tr now st) as H.
    destruct (update_transcript tr now st) as [s1 e1]. cbn [fst] in *.
    destruct (update_transcript_raises cb tr st); [exact H|].
    exact (store_extends_trans H (set_marker_extends None s1)). }
  destruct (Json.eq_str ty "conversation.item.input_audio_transcription.delta").
  { destruct (Json.get "delta" (JStr "") data) as [d|]; [|apply store_extends_refl].
    destruct (Json.str_strip d); apply store_extends_refl. }
  destruct (Json.eq_str ty "conversation.item.input_audio_transcription.failed");
    [apply set_marker_extends | apply store_extends_refl].
Qed.

Lemma loop_step_extends (e : loop_event) (st : state) :
  store_extends st (fst (loop_step e st)).
Proof.
  destruct e as [m now cb|now]; cbn [loop_step].
  - pose proof (handle_message_extends cb m now st) as H.
    now destruct (handle_message cb m now st).
  - unfold check_processing_timeout. destruct (running st); [|apply store_extends_refl].
    destruct (processing_start_time st) as [t|]; [|apply store_extends_refl].
    destruct (negb (Qeq_bool t 0) && Py.Qgt_bool (now - t) 5);
      [apply set_marker_extends | apply store_extends_refl].
Qed.

(** X14: through any run of the event loop (inbound events of any kind and
    watchdog passes) the transcript store only grows at its end: the full
    transcript afterwards starts with the full transcript before, the ring
    never holds more than 1000 chunks, and every text it holds is one
    [_update_transcript] accepts (not empty, not only whitespace). *)
Theorem event_loop_only_appends_to_the_store (events : list loop_event) (st : state) :
  (length (chunks st) <= MAX_CHUNKS)%nat -> held_accepted st ->
  let st' := fst (event_loop events st) in
  (length (chunks st') <= MAX_CHUNKS)%nat /\
  held_accepted st' /\
  exists suffix, full_transcript st' = (full_transcript st ++ suffix)%string.
Proof.
  intros Hlen Hacc st'.
  assert (H : store_extends st st').
  { unfold st'. clear Hlen Hacc st'. revert st.
    induction events as [|e rest IH]; intros st; [apply store_extends_refl|].
    cbn [event_loop]. pose proof (loop_step_extends e st) as H1.
    destruct (loop_step e st) as [s1 e1]. cbn [fst] in H1.
    specialize (IH s1). destruct (event_loop rest s1) as [s2 e2]. cbn [fst] in *.
    exact (store_extends_trans H1 IH). }
  destruct H as (HL & HA & HS). split; [auto|]. split; [auto | exact HS].
Qed.

Lemma event_loop_only_appends_to_the_store_witness :
  let completed :=
    Some (JObj [("type"%string,
                 JStr "conversation.item.input_audio_transcription.completed");
                ("transcript"%string, JStr "it depends")]) in
  (length (chunks (fst (event_loop [Inbound completed 10%Q false; WatchdogTick 11%Q]
                          (init false)))) <= MAX_CHUNKS)%nat.
Proof.
  intros completed.
  apply (@event_loop_only_appends_to_the_store
           [Inbound completed 10%Q false; WatchdogTick 11%Q] (init false)).
  - cbn. unfold MAX_CHUNKS. lia.
  - constructor.
Defined.

Lemma deque_append_ends_with {A : Type} (n : nat) (x : A) (d : list A) :
  (0 < n)%nat -> exists before, Py.deque_append n x d = before ++ [x].
Proof.
  intros Hn. unfold Py.deque_append.
  destruct (Nat.ltb_spec n (length (d ++ [x]))) as [Hlt|_]; [|now exists d].
  rewrite length_app in Hlt. cbn [length] in Hlt.
  destruct d as [|a d]; [simpl in Hlt; lia|]. now exists d.
Qed.

(** X15: a text [_update_transcript] accepts is at once the last chunk of
    the ring and the end of the full transcript, and [get_recent_chunks]
    returns it for every window that reaches back to its timestamp; a wider
    window never returns less. *)
Theorem accepted_chunk_is_recent (text : string) (t seconds wider now : Q)
  (st : state) :
  accepted (text, t) = true -> (now - seconds <= t)%Q ->
  let st' := fst (update_transcript text t st) in
  (exists before, get_chunks st' = before ++ [(text, t)]) /\
  (exists before, get_full_transcript st' = (before ++ text)%string) /\
  In (text, t) (get_recent_chunks seconds now st') /\
  ((seconds <= wider)%Q ->
   incl (get_recent_chunks seconds now st') (get_recent_chunks wider now st')).
Proof.
  intros Hacc Hwin st'.
  assert (Hch : exists before, get_chunks st' = before ++ [(text, t)]).
  { unfold st', update_transcript, accepted in *. cbn [fst] in Hacc.
    apply negb_true_iff in Hacc. rewrite Hacc.
    cbn [fst get_chunks chunks set_transcript].
    apply deque_append_ends_with. unfold MAX_CHUNKS. lia. }
  split; [exact Hch|]. split; [|split].
  - unfold st', update_transcript, accepted in *. cbn [fst] in Hacc.
    apply negb_true_iff in Hacc. rewrite Hacc.
    cbn [fst get_full_transcript full_transcript set_transcript].
    destruct (Py.truthy_str (full_transcript st)).
    + exists (full_transcript st ++ " ")%string.
      now rewrite TranscriptStore.append_assoc.
    + now exists ""%string.
  - destruct Hch as [before Hb]. unfold get_recent_chunks.
    apply filter_In. split.
    + unfold get_chunks in Hb. rewrite Hb. apply in_or_app. right. now left.
    + cbn [snd]. now apply Qle_bool_iff.
  - intros Hw p Hp. unfold get_recent_chunks in *.
    apply filter_In in Hp. destruct Hp as [Hin Hle]. apply filter_In.
    split; [exact Hin|]. apply Qle_bool_iff in Hle. apply Qle_bool_iff.
    apply Qle_trans with (now - seconds)%Q; [|exact Hle].
    unfold Qminus. apply Qplus_le_compat; [apply Qle_refl|].
    now apply Qopp_le_compat.
Qed.

Lemma accepted_chunk_is_recent_witness :
  In ("it depends"%string, 100%Q)
     (get_recent_chunks 60%Q 130%Q
        (fst (update_transcript "it depends" 100%Q (init false)))).
Proof.
  destruct (@accepted_chunk_is_recent "it depends" 100%Q 60%Q 60%Q 130%Q (init false))
    as (_ & _ & H & _);
    [reflexivity | apply Qle_bool_iff; reflexivity | exact H].
Defined.

(** **** Inbound events *)

(** X16: only four kinds of inbound event can change the transcriber or
    make it send anything: speech-stopped, committed, completed and failed.
    Every other message (a delta, an unknown or missing type, a JSON value
    that is no object, text that is no JSON) leaves the state as it is and
    sends nothing. *)
Theorem only_four_event_types_matter (cb : bool) (m : option json) (now : Q)
  (st : state) :
  event_type_is "input_audio_buffer.speech_stopped" m = false ->
  event_type_is "input_audio_buffer.committed" m = false ->
  event_type_is "conversation.item.input_audio_transcription.completed" m = false ->
  event_type_is "conversation.item.input_audio_transcription.failed" m = false ->
  handle_message cb m now st = (st, []).
Proof.
  intros H1 H2 H3 H4. unfold handle_message, handle_message_body.
  destruct m as [data|]; [|reflexivity].
  destruct data as [ |b|q|t|l|kv]; try reflexivity.
  cbn [Json.get]. unfold event_type_is in *. rewrite H1, H2, H3, H4.
  destruct (Json.eq_str _ "conversation.item.input_audio_transcription.delta");
    [|reflexivity].
  now destruct (Json.str_strip (Json.lookup "delta" (JStr "") kv)).
Qed.

Lemma only_four_event_types_matter_witness :
  let st := set_processing_start_time (Some 5%Q)
              (set_websocket true (set_running true (init true))) in
  handle_message true
    (Some (JObj [("type"%string,
                  JStr "conversation.item.input_audio_transcription.delta");
                 ("delta"%string, JStr "it dep")])) 7%Q st
  = (st, []).
Proof.
  intros st. apply only_four_event_types_matter; reflexivity.
Defined.

Lemma lstrip_all_space (s : string) : Py.all_space s = true -> Py.lstrip s = ""%string.
Proof.
  induction s as [|c s IH]; [reflexivity|]. cbn [Py.all_space Py.lstrip].
  intros H. apply andb_true_iff in H. destruct H as [Hc Hs]. rewrite Hc. auto.
Qed.

Lemma lstrip_head (s : string) (c : ascii) (r : string) :
  Py.lstrip s = String c r -> Py.is_space_char c = false.
Proof.
  induction s as [|a s IH]; [discriminate|]. cbn [Py.lstrip].
  destruct (Py.is_space_char a) eqn:Ea; [exact IH|].
  intros E. inversion E; subst. exact Ea.
Qed.

Lemma rstrip_head (c : ascii) (r : string) :
  Py.is_space_char c = false -> exists r', Py.rstrip (String c r) = String c r'.
Proof.
  intros Hc. cbn [Py.rstrip]. destruct (Py.rstrip r) as [|a r'].
  - rewrite Hc. now exists ""%string.
  - now exists (String a r').
Qed.

(** What [strip] leaves is accepted by [_update_transcript] unless it is
    empty. *)
Lemma stripped_text_is_accepted (s : string) (now : Q) :
  Py.truthy_str (Py.strip s) = true -> accepted (Py.strip s, now) = true.
Proof.
  unfold accepted, Py.strip. cbn [fst]. intros Ht. rewrite Ht. cbn [negb orb].
  destruct (Py.lstrip s) as [|c r] eqn:El; [discriminate Ht|].
  pose proof (lstrip_head _ El) as Hc.
  destruct (@rstrip_head c r Hc) as [r' Er]. rewrite Er.
  cbn [Py.isspace Py.all_space]. now rewrite Hc.
Qed.

(** X17: a completed event whose transcript is a string.  If the transcript
    is empty or only whitespace, nothing is stored, no callback is called
    and the marker is cleared.  Otherwise the transcript stripped of
    surrounding whitespace is stored as a chunk with the time of the event,
    added to the full transcript, and handed to the callback: the check in
    [_update_transcript] never turns down what the handler passes on.  The
    marker is then cleared, unless the callback raises: the handler swallows
    that exception, the text stays stored, and the marker is left as it
    was. *)
Theorem completion_stores_the_stripped_text
  (kv : list (string * json)) (s : string) (now : Q) (cb : bool) (st : state) :
  event_type_is "conversation.item.input_audio_transcription.completed"
    (Some (JObj kv)) = true ->
  Json.lookup "transcript" (JStr "") kv = JStr s ->
  let t := Py.strip s in
  let stored :=
    set_transcript
      (if Py.truthy_str (full_transcript st)
       then (full_transcript st ++ " " ++ t)%string else t)
      (Py.deque_append MAX_CHUNKS (t, now) (chunks st)) st in
  (Py.all_space s = true -> Py.truthy_str t = false) /\
  (Py.truthy_str t = false ->
   handle_message cb (Some (JObj kv)) now st
   = (set_processing_start_time None st, [])) /\
  (Py.truthy_str t = true ->
   handle_message cb (Some (JObj kv)) now st =
   (if has_callback st && cb then stored
    else set_processing_start_time None stored,
    if has_callback st then [Callback t] else [])).
Proof.
  intros Hty Htr t stored.
  assert (Hh : handle_message cb (Some (JObj kv)) now st =
               if Py.truthy_str t then
                 let '(st1, eff) := update_transcript t now st in
                 if update_transcript_raises cb t st then (st1, eff)
                 else (set_processing_start_time None st1, eff)
               else (set_processing_start_time None st, [])).
  { unfold handle_message, handle_message_body. cbn [Json.get].
    unfold event_type_is in Hty. apply Protocol.eq_str_true in Hty. rewrite Hty.
    cbn [Json.eq_str String.eqb Ascii.eqb Bool.eqb andb].
    rewrite Htr. cbn [Json.str_strip]. fold t.
    destruct (Py.truthy_str t); [|reflexivity].
    destruct (update_transcript t now st) as [s1 e1].
    now destruct (update_transcript_raises cb t st). }
  split; [|split].
  - intros Hs. unfold t, Py.strip. now rewrite (lstrip_all_space _ Hs).
  - intros Hf. now rewrite Hh, Hf.
  - intros Ht. rewrite Hh, Ht. unfold update_transcript, update_transcript_raises.
    pose proof (stripped_text_is_accepted s now Ht) as Ha.
    unfold accepted in Ha. cbn [fst] in Ha. fold t in Ha.
    apply negb_true_iff in Ha. rewrite Ha. cbn [negb andb]. fold stored.
    now destruct (has_callback st), cb.
Qed.

Lemma completion_stores_the_stripped_text_witness :
  let kv := [("type"%string,
              JStr "conversation.item.input_audio_transcription.completed");
             ("transcript"%string, JStr " it depends ")] in
  let st := set_processing_start_time (Some 5%Q) (init true) in
  handle_message true (Some (JObj kv)) 7%Q st
  = (set_transcript "it depends" [("it depends"%string, 7%Q)] st,
     [Callback "it depends"]).
Proof.
  intros kv st.
  destruct (@completion_stores_the_stripped_text kv " it depends " 7%Q true st
              eq_refl eq_refl) as (_ & _ & H).
  rewrite (H eq_refl). reflexivity.
Defined.

(** **** The connection *)

Lemma update_transcript_effects (text : string) (now : Q) (st : state) :
  Forall loop_effect (snd (update_transcript text now st)).
Proof.
  unfold update_transcript.
  destruct (negb (Py.truthy_str text) || Py.isspace text); cbn [snd];
    [constructor|].
  destruct (has_callback st); repeat constructor.
Qed.

Lemma handle_message_effects (cb : bool) (m : option json) (now : Q) (st : state) :
  Forall loop_effect (snd (handle_message cb m now st)).
Proof.
  unfold handle_message, handle_message_body.
  destruct m as [data|]; [|constructor].
  destruct (Json.get "type" (JStr "") data) as [ty|]; [|constructor].
  destruct (Json.eq_str ty "input_audio_buffer.speech_stopped").
  { cbn [snd]. unfold send_message. destruct (websocket st); repeat constructor. }
  destruct (Json.eq_str ty "input_audio_buffer.committed"); [constructor|].
  destruct (Json.eq_str ty "conversation.item.input_audio_transcription.completed").
  { destruct (Json.get "transcript" (JStr "") data) as [t|]; [|constructor].
    destruct (Json.str_strip t) as [tr|]; [|constructor].
    destruct (Py.truthy_str tr); [|constructor].
    pose proof (update_transcript_effects tr now st) as H.
    destruct (update_transcript tr now st).
    now destruct (update_transcript_raises cb tr st). }
  destruct (Json.eq_str ty "conversation.item.input_audio_transcription.delta").
  { destruct (Json.get "delta" (JStr "") data) as [d|]; [|constructor].
    destruct (Json.str_strip d); constructor. }
  destruct (Json.eq_str ty "conversation.item.input_audio_transcription.failed");
    constructor.
Qed.

Lemma loop_step_effects (e : loop_event) (st : state) :
  Forall loop_effect (snd (loop_step e st)).
Proof.
  destruct e as [m now cb|now]; cbn [loop_step].
  - pose proof (handle_message_effects cb m now st) as H.
    destruct (handle_message cb m now st) as [s1 e1]. cbn [snd] in *.
    constructor; [exact I|exact H].
  - unfold check_processing_timeout. destruct (running st); [|constructor].
    destruct (processing_start_time st) as [t|]; [|repeat constructor].
    destruct (negb (Qeq_bool t 0) && Py.Qgt_bool (now - t) 5);
      [|repeat constructor].
    cbn [snd]. unfold send_message. destruct (websocket st); repeat constructor.
Qed.

(** X18: whatever arrives and whenever the watchdog runs, the event loop of
    a connection only receives, sends commit and clear requests, sleeps and
    calls the transcript callback.  It never sends audio or a session
    update, never opens or closes a connection, never starts or stops the
    capture, and it leaves the running flag, the connection, the callback
    and the session fields as they are. *)
Theorem event_loop_only_commits_and_clears (events : list loop_event) (st : state) :
  Forall loop_effect (snd (event_loop events st)) /\
  same_connection st (fst (event_loop events st)).
Proof.
  split; [|apply Protocol.event_loop_connection].
  revert st. induction events as [|e rest IH]; intros st; cbn [event_loop];
    [constructor|].
  pose proof (loop_step_effects e st) as H1.
  destruct (loop_step e st) as [s1 e1]. specialize (IH s1).
  destruct (event_loop rest s1) as [s2 e2]. cbn [snd] in *.
  apply Forall_app. now split.
Qed.

Lemma credential_needs_nonempty_body (data v : json) :
  credential_of (Some data) = Some v ->
  Json.truthy data = true /\ Json.truthy v = true.
Proof.
  unfold credential_of. destruct data as [ |b|q|t|l|kv]; try discriminate.
  destruct kv as [|p kv]; [discriminate|].
  destruct (Json.lookup "client_secret" (JObj []) (p :: kv)); try discriminate.
  destruct (Json.truthy (Json.lookup "value" JNull _)) eqn:E; [|discriminate].
  intros H. inversion H; subst. now split.
Qed.

(** X19: when [start] gets a session it sets the running flag and a second
    [start] does nothing.  The connection handler then connects with the
    credential of the response as bearer.  If the connection is established
    it sends the session update first and only then starts the capture, and
    however the connection ends, the last thing it does is stop the capture
    and forget the connection.  If the [send] of the session update raises,
    the connection is closed and the capture is stopped without having been
    started, and no inbound message is handled.  If connecting raises,
    nothing is sent and the capture is still stopped. *)
Theorem started_session_opens_with_the_handshake
  (outcome again : http_outcome) (events : list loop_event) (st : state) :
  running st = false ->
  snd (create_transcription_session outcome st) = true ->
  let st1 := fst (start outcome st) in
  exists v rest,
    client_secret st1 = Some v /\ Json.truthy v = true /\
    running st1 = true /\ start again st1 = (st1, []) /\
    snd (websocket_handler Established events st1) =
      WsConnect (Some v) :: WsSend SessionUpdate :: CaptureStart :: rest /\
    last (snd (websocket_handler Established events st1)) HttpPost = CaptureStop /\
    websocket (fst (websocket_handler Established events st1)) = false /\
    websocket_handler UpdateRaises events st1 =
      (set_websocket false st1,
       [WsConnect (Some v); WsSend SessionUpdate; WsClose; CaptureStop]) /\
    websocket_handler ConnectRaises events st1 =
      (set_websocket false st1, [WsConnect (Some v); CaptureStop]).
Proof.
  intros Hrun Hok st1.
  destruct outcome as [|status body]; [discriminate Hok|].
  assert (Hs : raise_for_status status = false).
  { destruct (raise_for_status status) eqn:E; [|reflexivity].
    unfold create_transcription_session in Hok. now rewrite E in Hok. }
  pose proof (@Bootstrap.create_session_result status body st Hs) as Hc.
  destruct (credential_of body) as [v|] eqn:Ecred;
    [|rewrite Hc in Hok; discriminate Hok].
  destruct Hc as [data [Hb Hc]]. subst body.
  destruct (credential_needs_nonempty_body _ Ecred) as [Hd Hv].
  assert (E1 : st1 = set_running true
                       (set_client_secret (Some v) (set_session_data (Some data) st))).
  { unfold st1, start. now rewrite Hrun, Hc. }
  assert (Hinit : initialize_transcription_session (set_websocket true st1)
                  = [WsSend SessionUpdate]).
  { unfold initialize_transcription_session. rewrite E1.
    cbn [session_data set_websocket set_running set_client_secret set_session_data].
    now rewrite Hd. }
  exists v.
  exists (snd (event_loop events (set_websocket true st1)) ++ [WsClose; CaptureStop]).
  split; [now rewrite E1|]. split; [exact Hv|]. split; [now rewrite E1|].
  split; [unfold start; now rewrite E1|].
  assert (Hh : websocket_handler Established events st1 =
               (set_websocket false (fst (event_loop events (set_websocket true st1))),
                WsConnect (Some v) :: WsSend SessionUpdate :: CaptureStart ::
                snd (event_loop events (set_websocket true st1))
                ++ [WsClose; CaptureStop])).
  { unfold websocket_handler, initialize_raises. rewrite Hinit.
    destruct (event_loop events (set_websocket true st1)) as [s2 e2].
    cbn [fst snd app]. now rewrite E1. }
  rewrite Hh. cbn [fst snd websocket set_websocket].
  split; [reflexivity|]. split; [|split; [reflexivity|split]].
  - set (e2 := snd (event_loop events (set_websocket true st1))).
    assert (Hl : WsConnect (Some v) :: WsSend SessionUpdate :: CaptureStart ::
                 e2 ++ [WsClose; CaptureStop] =
                 (WsConnect (Some v) :: WsSend SessionUpdate :: CaptureStart ::
                  e2 ++ [WsClose]) ++ [CaptureStop]).
    { cbn [app]. do 3 f_equal. now rewrite <- app_assoc. }
    rewrite Hl. apply last_last.
  - unfold websocket_handler, initialize_raises. rewrite Hinit.
    cbn [app]. now rewrite E1.
  - unfold websocket_handler. now rewrite E1.
Qed.

Lemma started_session_opens_with_the_handshake_witness :
  let outcome :=
    PostResponse 200 (Some (JObj [("client_secret"%string,
                                   JObj [("value"%string, JStr "ek_1")])])) in
  let st1 := fst (start outcome (init false)) in
  websocket_handler UpdateRaises [WatchdogTick 1%Q] st1 =
    (set_websocket false st1,
     [WsConnect (Some (JStr "ek_1")); WsSend SessionUpdate; WsClose; CaptureStop]).
Proof.
  intros outcome st1.
  destruct (@started_session_opens_with_the_handshake outcome PostRaises
              [WatchdogTick 1%Q] (init false) eq_refl eq_refl)
    as (v & rest & Hv & _ & _ & _ & _ & _ & _ & Hu & _).
  fold st1 in Hu, Hv. rewrite Hu.
  vm_compute in Hv. now inversion Hv.
Defined.

(** X20: [stop] always stops the capture and asks for the connection to be
    closed exactly when there is one and the event loop is open.  It keeps
    the transcript and the chunks, and forgets the session and its
    credential.  After it the watchdog loop ends at its next pass, audio
    handed to the transcriber is dropped, and a later [start] asks for a new
    session again. *)
Theorem stop_ends_the_session (loop_open feed_open : bool) (st : state)
  (now : Q) (audio_bytes : list byte) (audio_data : list R) (outcome : http_outcome) :
  let st' := fst (stop loop_open st) in
  (exists tail, snd (stop loop_open st) = CaptureStop :: tail /\
     (tail = [WsClose] \/ tail = []) /\
     (tail = [WsClose] <-> websocket st = true /\ loop_open = true)) /\
  get_full_transcript st' = get_full_transcript st /\
  get_chunks st' = get_chunks st /\
  session_data st' = None /\ client_secret st' = None /\
  check_processing_timeout now st' = None /\
  process_audio_bytes feed_open audio_bytes st' = [] /\
  process_audio_block feed_open audio_data st' = [] /\
  exists tail, snd (start outcome st') = HttpPost :: tail.
Proof.
  intros st'. split.
  - unfold stop. cbn [snd websocket set_running].
    destruct (websocket st), loop_open; cbn [andb];
      eexists; (split; [reflexivity|]); split; auto;
      split; try (intros [? ?]); try discriminate; auto.
  - unfold st', stop. cbn [fst]. repeat split.
    + unfold process_audio_bytes. cbn. now rewrite orb_true_r.
    + unfold process_audio_block. cbn. now rewrite orb_true_r.
    + unfold start.
      cbn [running set_client_secret set_session_data set_running negb].
      destruct (create_transcription_session outcome _) as [s1 ok].
      destruct ok; cbn [negb snd]; eexists; reflexivity.
Qed.

End SessionExtra.

(** ** The counters of counter.py *)

Module CounterExtra.
Import Counters.

Section Dicts.

Variable V : Type.

Lemma dict_get_set_same (k : string) (v : V) (d : list (string * V)) :
  dict_get k (dict_set k v d) = Some v.
Proof.
  induction d as [|[k' v'] d IH]; cbn [dict_set dict_get].
  - now rewrite String.eqb_refl.
  - destruct (String.eqb k' k) eqn:E; cbn [dict_get].
    + now rewrite String.eqb_refl.
    + now rewrite E.
Qed.

Lemma dict_get_set_other (k k' : string) (v : V) (d : list (string * V)) :
  k' <> k -> dict_get k' (dict_set k v d) = dict_get k' d.
Proof.
  intros Hne. induction d as [|[k0 v0] d IH]; cbn [dict_set dict_get].
  - destruct (String.eqb_spec k k'); [congruence|reflexivity].
  - destruct (String.eqb_spec k0 k) as [->|Hk]; cbn [dict_get].
    + destruct (String.eqb_spec k k'); [congruence|reflexivity].
    + now rewrite IH.
Qed.

Lemma dict_get_None (k : string) (d : list (string * V)) :
  dict_get k d = None <-> ~ In k (keys d).
Proof.
  induction d as [|[k0 v0] d IH]; cbn [dict_get keys map fst In]; [tauto|].
  destruct (String.eqb_spec k0 k) as [->|Hk].
  - split; [discriminate|]. intros H. exfalso. apply H. now left.
  - rewrite IH. unfold keys. tauto.
Qed.

Lemma dict_get_Some (k : string) (d : list (string * V)) :
  In k (keys d) -> exists v, dict_get k d = Some v.
Proof.
  intros Hin. destruct (dict_get k d) as [v|] eqn:E; [now exists v|].
  apply dict_get_None in E. contradiction.
Qed.

Lemma dict_get_In (k : string) (v : V) (d : list (string * V)) :
  NoDup (keys d) -> In (k, v) d -> dict_get k d = Some v.
Proof.
  induction d as [|[k0 v0] d IH]; cbn [keys map fst In dict_get]; [tauto|].
  intros Hnd [Heq|Hin].
  - inversion Heq; subst. now rewrite String.eqb_refl.
  - inversion Hnd as [|? ? Hnot Hnd']; subst.
    destruct (String.eqb_spec k0 k) as [->|Hk]; [|now apply IH].
    exfalso. apply Hnot. change (In (fst (k, v)) (map fst d)). now apply in_map.
Qed.

Lemma keys_dict_set (k : string) (v : V) (d : list (string * V)) :
  keys (dict_set k v d) =
  match dict_get k d with
  | Some _ => keys d
  | None => keys d ++ [k]
  end.
Proof.
  induction d as [|[k0 v0] d IH]; cbn [dict_set dict_get keys map fst app];
    [reflexivity|].
  destruct (String.eqb_spec k0 k) as [->|Hk]; cbn [map fst]; [reflexivity|].
  unfold keys in IH. rewrite IH. now destruct (dict_get k d).
Qed.

Lemma dict_set_fresh (k : string) (v : V) (d : list (string * V)) :
  ~ In k (keys d) -> dict_set k v d = d ++ [(k, v)].
Proof.
  induction d as [|[k0 v0] d IH]; cbn [dict_set keys map fst In app];
    [reflexivity|].
  intros Hnot. destruct (String.eqb_spec k0 k) as [->|Hk]; [tauto|].
  f_equal. apply IH. unfold keys. tauto.
Qed.

Lemma NoDup_dict_set (k : string) (v : V) (d : list (string * V)) :
  NoDup (keys d) -> NoDup (keys (dict_set k v d)).
Proof.
  intros Hnd. rewrite keys_dict_set. destruct (dict_get k d) eqn:E; [exact Hnd|].
  apply dict_get_None in E. apply NoDup_app; [exact Hnd|repeat constructor; tauto|].
  intros x Hx [<-|[]]. contradiction.
Qed.

Lemma Forall_dict_set (P : string * V -> Prop) (k : string) (v : V)
  (d : list (string * V)) :
  P (k, v) -> Forall P d -> Forall P (dict_set k v d).
Proof.
  intros Hp. induction 1 as [|[k0 v0] d Hx Hd IH]; cbn [dict_set].
  - now repeat constructor.
  - destruct (String.eqb k0 k); constructor; auto.
Qed.

End Dicts.

Lemma keys_dict_set_alike {V W : Type} (k : string) (v : V) (w : W)
  (d1 : list (string * V)) (d2 : list (string * W)) :
  keys d1 = keys d2 -> keys (dict_set k v d1) = keys (dict_set k w d2).
Proof.
  intros Hk. rewrite !keys_dict_set.
  destruct (dict_get k d1) eqn:E1, (dict_get k d2) eqn:E2;
    try (now rewrite Hk); exfalso.
  - apply dict_get_None in E2. rewrite <- Hk in E2.
    apply dict_get_None in E2. congruence.
  - apply dict_get_None in E1. rewrite Hk in E1.
    apply dict_get_None in E1. congruence.
Qed.

Lemma value_of_set (k k' : string) (v : Z) (d : list (string * Z)) :
  value_of k' (dict_set k v d) = if String.eqb k' k then v else value_of k' d.
Proof.
  unfold value_of. destruct (String.eqb_spec k' k) as [->|Hne].
  - now rewrite dict_get_set_same.
  - now rewrite dict_get_set_other.
Qed.

Lemma keys_reset_fold (ks : list string) :
  forall d : list (string * Z),
    (forall k, In k ks -> In k (keys d)) ->
    keys (fold_left (fun d key => dict_set key 0%Z d) ks d) = keys d.
Proof.
  induction ks as [|k ks IH]; intros d Hin; cbn [fold_left]; [reflexivity|].
  assert (Hk : keys (dict_set k 0%Z d) = keys d).
  { rewrite keys_dict_set.
    destruct (dict_get_Some k d (Hin k (or_introl eq_refl))) as [v ->].
    reflexivity. }
  rewrite IH; [exact Hk|]. intros k' Hk'. rewrite Hk. apply Hin. now right.
Qed.

Lemma value_reset_fold_out (k : string) (ks : list string) :
  forall d : list (string * Z),
    ~ In k ks ->
    value_of k (fold_left (fun d key => dict_set key 0%Z d) ks d) = value_of k d.
Proof.
  induction ks as [|k0 ks IH]; intros d Hnot; cbn [fold_left]; [reflexivity|].
  rewrite IH; [|intros H; apply Hnot; now right].
  rewrite value_of_set. destruct (String.eqb_spec k k0) as [->|_]; [|reflexivity].
  exfalso. apply Hnot. now left.
Qed.

Lemma value_reset_fold_in (k : string) (ks : list string) :
  forall d : list (string * Z),
    In k ks ->
    value_of k (fold_left (fun d key => dict_set key 0%Z d) ks d) = 0%Z.
Proof.
  induction ks as [|k0 ks IH]; intros d Hin; cbn [fold_left]; [destruct Hin|].
  destruct (in_dec string_dec k ks) as [Hks|Hks]; [now apply IH|].
  rewrite (@value_reset_fold_out k ks _ Hks). rewrite value_of_set.
  destruct Hin as [->|Hin]; [now rewrite String.eqb_refl|contradiction].
Qed.

Section ManagerProperties.

Variables (Rule Fn : Type) (evaluate : string -> Rule -> bool).

Lemma get_counter_value (key : string) (m : CounterManager Rule Fn) :
  get_counter key m = value_of key (counters m).
Proof. reflexivity. Qed.

Lemma matched_keys_in (text : string) (items : list (string * CounterConfig Rule Fn)) (p : string * CounterConfig Rule Fn) :
  In p (matched evaluate text items) -> In (fst p) (keys items).
Proof.
  unfold matched. intros H. apply filter_In in H. destruct H as [H _].
  now apply in_map.
Qed.

(** What the loop of [process_text] computes on items with distinct names,
    each of which has a counter. *)
Lemma process_items_spec (text : string) (fns : list (string * Fn)) :
  forall (items : list (string * CounterConfig Rule Fn)) (cnt incremented : list (string * Z))
         (calls : list (Fn * string * Z)),
    NoDup (keys items) ->
    (forall k, In k (keys items) -> In k (keys cnt)) ->
    (forall k, In k (keys items) -> ~ In k (keys incremented)) ->
    exists cnt',
      process_items evaluate text items fns cnt incremented calls =
        Some (cnt',
              incremented ++
                map (fun p => (fst p, (value_of (fst p) cnt + 1)%Z))
                    (matched evaluate text items),
              calls ++
                flat_map (fun p => match dict_get (fst p) fns with
                                   | Some fn => [(fn, fst p, (value_of (fst p) cnt + 1)%Z)]
                                   | None => []
                                   end)
                         (matched evaluate text items)) /\
      keys cnt' = keys cnt /\
      forall k, value_of k cnt' =
                (value_of k cnt +
                 if existsb (fun p => String.eqb k (fst p)) (matched evaluate text items)
                 then 1 else 0)%Z.
Proof.
  induction items as [|[key config] rest IH]; intros cnt inc calls Hnd Hcnt Hinc.
  - exists cnt. cbn. rewrite !app_nil_r. repeat split. intros k. lia.
  - cbn [keys map fst] in Hnd. inversion Hnd as [|? ? Hfresh Hnd']; subst.
    cbn [process_items matched filter snd].
    destruct (evaluate text (rule config)) eqn:Ev.
    + destruct (dict_get_Some key cnt (Hcnt key (or_introl eq_refl))) as [v Hv].
      rewrite Hv.
      assert (Hk1 : keys (dict_set key (v + 1)%Z cnt) = keys cnt).
      { rewrite keys_dict_set. now rewrite Hv. }
      assert (Hi1 : dict_set key (v + 1)%Z inc = inc ++ [(key, (v + 1)%Z)]).
      { apply dict_set_fresh. apply Hinc. now left. }
      assert (Hval : value_of key cnt = v) by (unfold value_of; now rewrite Hv).
      destruct (IH (dict_set key (v + 1)%Z cnt) (dict_set key (v + 1)%Z inc)
                   (match dict_get key fns with
                    | Some fn => calls ++ [(fn, key, (v + 1)%Z)]
                    | None => calls
                    end) Hnd') as (cnt' & Hrun & Hkeys & Hvals).
      { intros k Hk. rewrite Hk1. apply Hcnt. now right. }
      { intros k Hk. rewrite Hi1. unfold keys. rewrite map_app. cbn [map fst].
        intros H. apply in_app_or in H. destruct H as [H|[<-|[]]].
        - apply (Hinc k); [now right|exact H].
        - contradiction. }
      exists cnt'. split; [|split].
      * rewrite Hrun. fold (matched evaluate text rest).
        assert (Hother : forall p, In p (matched evaluate text rest) ->
                  value_of (fst p) (dict_set key (v + 1)%Z cnt) = value_of (fst p) cnt).
        { intros p Hp. rewrite value_of_set.
          destruct (String.eqb_spec (fst p) key) as [E|_]; [|reflexivity].
          exfalso. apply Hfresh. rewrite <- E. exact (matched_keys_in _ _ _ Hp). }
        f_equal. f_equal.
        -- assert (Hmm : map (fun p : string * CounterConfig Rule Fn =>
                                (fst p, (value_of (fst p) (dict_set key (v + 1)%Z cnt) + 1)%Z))
                             (matched evaluate text rest) =
                         map (fun p : string * CounterConfig Rule Fn =>
                                (fst p, (value_of (fst p) cnt + 1)%Z))
                             (matched evaluate text rest)).
           { apply map_ext_in. intros p Hp. now rewrite (Hother p Hp). }
           rewrite Hi1, <- app_assoc, Hmm. cbn [app map fst]. now rewrite Hval.
        -- cbn [flat_map fst]. rewrite Hval.
           assert (Hfm : flat_map
                           (fun p => match dict_get (fst p) fns with
                                     | Some fn =>
                                         [(fn, fst p,
                                           (value_of (fst p) (dict_set key (v + 1)%Z cnt) + 1)%Z)]
                                     | None => []
                                     end) (matched evaluate text rest) =
                         flat_map
                           (fun p => match dict_get (fst p) fns with
                                     | Some fn => [(fn, fst p, (value_of (fst p) cnt + 1)%Z)]
                                     | None => []
                                     end) (matched evaluate text rest)).
           { rewrite !flat_map_concat_map. f_equal. apply map_ext_in.
             intros p Hp. now rewrite (Hother p Hp). }
           rewrite Hfm. destruct (dict_get key fns); [|reflexivity].
           now rewrite <- app_assoc.
      * now rewrite Hkeys.
      * intros k. rewrite Hvals, value_of_set. fold (matched evaluate text rest).
        cbn [existsb fst].
        destruct (String.eqb_spec k key) as [->|Hne]; cbn [orb]; [|reflexivity].
        assert (Hno : existsb (fun p => String.eqb key (fst p))
                        (matched evaluate text rest) = false).
        { destruct (existsb _ _) eqn:E; [|reflexivity]. exfalso.
          apply existsb_exists in E. destruct E as (p & Hp & Heq).
          apply String.eqb_eq in Heq. apply Hfresh. rewrite Heq.
          exact (matched_keys_in _ _ _ Hp). }
        rewrite Hno, Hval. lia.
    + destruct (IH cnt inc calls Hnd') as (cnt' & Hrun & Hkeys & Hvals).
      { intros k Hk. apply Hcnt. now right. }
      { intros k Hk. apply Hinc. now right. }
      exists cnt'. now repeat split.
Qed.

Lemma matched_by_name (text : string) (m : CounterManager Rule Fn) :
  NoDup (keys (configs m)) ->
  forall p, In p (configs m) ->
    matches evaluate text (fst p) m = evaluate text (rule (snd p)).
Proof.
  intros Hnd [k c] Hp. unfold matches. cbn [fst snd].
  now rewrite (@dict_get_In _ k c _ Hnd Hp).
Qed.

Lemma map_fst_filter {A B : Type} (f : A * B -> bool) (g : A -> bool) (l : list (A * B)) :
  (forall p, In p l -> g (fst p) = f p) ->
  map fst (filter f l) = filter g (map fst l).
Proof.
  induction l as [|p l IH]; intros H; cbn [filter map]; [reflexivity|].
  rewrite (H p (or_introl eq_refl)).
  destruct (f p); cbn [map]; rewrite IH; auto; intros q Hq; apply H; now right.
Qed.

Lemma matched_names (text : string) (m : CounterManager Rule Fn) :
  NoDup (keys (configs m)) ->
  keys (matched evaluate text (configs m)) = matching_names evaluate text m.
Proof.
  intros Hnd. unfold keys, matched, matching_names. apply map_fst_filter.
  exact (@matched_by_name text m Hnd).
Qed.

Lemma matched_exists (text : string) (key : string) (m : CounterManager Rule Fn) :
  NoDup (keys (configs m)) ->
  existsb (fun p => String.eqb key (fst p)) (matched evaluate text (configs m)) =
  matches evaluate text key m.
Proof.
  unfold matches, matched. induction (configs m) as [|[k c] items IH];
    cbn [keys map fst filter snd dict_get existsb]; [reflexivity|].
  intros Hnd. inversion Hnd as [|? ? Hfresh Hnd']; subst.
  destruct (String.eqb_spec k key) as [->|Hne].
  - destruct (evaluate text (rule c)); cbn [existsb fst].
    + now rewrite String.eqb_refl.
    + destruct (existsb _ _) eqn:E; [|reflexivity]. exfalso.
      apply existsb_exists in E. destruct E as (p & Hp & Heq).
      apply String.eqb_eq in Heq. apply filter_In in Hp. destruct Hp as [Hp _].
      apply Hfresh. rewrite Heq. now apply in_map.
  - assert (Hf : String.eqb key k = false)
      by (apply String.eqb_neq; congruence).
    destruct (evaluate text (rule c)); cbn [existsb fst]; rewrite ?Hf; cbn [orb];
      now apply IH.
Qed.

(** What [process_text] does to a manager whose dicts agree. *)
Lemma process_text_spec (text : string) (m : CounterManager Rule Fn) :
  well_formed m ->
  exists cnt',
    process_text evaluate text m =
      Some ({| configs := configs m; counters := cnt'; callbacks := callbacks m |},
            map (fun key => (key, (get_counter key m + 1)%Z))
                (matching_names evaluate text m),
            flat_map (fun key => match dict_get key (callbacks m) with
                                 | Some fn => [(fn, key, (get_counter key m + 1)%Z)]
                                 | None => []
                                 end)
                     (matching_names evaluate text m)) /\
    keys cnt' = keys (counters m) /\
    forall key, value_of key cnt' =
                (get_counter key m + if matches evaluate text key m then 1 else 0)%Z.
Proof.
  intros (Hkeys & Hnd & _).
  destruct (@process_items_spec text (callbacks m) (configs m) (counters m) [] [] Hnd)
    as (cnt' & Hrun & Hk & Hv).
  { intros k Hk. now rewrite <- Hkeys. }
  { intros k _ []. }
  exists cnt'. split; [|split; [exact Hk|]].
  - unfold process_text. rewrite Hrun. cbn [app]. f_equal. f_equal.
    + f_equal. rewrite <- (@matched_names text m Hnd). unfold keys.
      rewrite map_map. reflexivity.
    + rewrite <- (@matched_names text m Hnd). unfold keys.
      rewrite !flat_map_concat_map, map_map. reflexivity.
  - intros key. rewrite Hv, (@matched_exists text key m Hnd). reflexivity.
Qed.

Lemma empty_well_formed : well_formed (empty Rule Fn).
Proof. repeat split; constructor. Qed.

Lemma add_counter_well_formed (config : CounterConfig Rule Fn) (m : CounterManager Rule Fn) :
  well_formed m -> well_formed (add_counter config m).
Proof.
  intros (Hkeys & Hnd & Hnames). unfold well_formed, add_counter.
  cbn [configs counters]. split; [|split].
  - now apply keys_dict_set_alike.
  - now apply NoDup_dict_set.
  - now apply Forall_dict_set.
Qed.

Lemma reset_counter_keys (key : string) (m : CounterManager Rule Fn) :
  keys (counters (reset_counter key m)) = keys (counters m).
Proof.
  unfold reset_counter. destruct (dict_get key (counters m)) eqn:E; [|reflexivity].
  cbn [counters]. rewrite keys_dict_set. now rewrite E.
Qed.

Lemma reset_counter_configs (key : string) (m : CounterManager Rule Fn) :
  configs (reset_counter key m) = configs m.
Proof. unfold reset_counter. now destruct (dict_get key (counters m)). Qed.

Lemma reset_all_counters_keys (m : CounterManager Rule Fn) :
  keys (counters (reset_all_counters m)) = keys (counters m).
Proof. unfold reset_all_counters. cbn [counters]. now apply keys_reset_fold. Qed.

Lemma apply_operation_well_formed (op : operation Rule Fn) (m : CounterManager Rule Fn) :
  well_formed m ->
  exists m', apply_operation evaluate op m = Some m' /\ well_formed m'.
Proof.
  intros Hwf. destruct op as [config|text|key|]; cbn [apply_operation].
  - eexists. split; [reflexivity|]. now apply add_counter_well_formed.
  - destruct (@process_text_spec text m Hwf) as (cnt' & Hrun & Hk & _).
    rewrite Hrun. eexists. split; [reflexivity|].
    destruct Hwf as (Hkeys & Hnd & Hnames). unfold well_formed. cbn [configs counters].
    rewrite Hk. now repeat split.
  - eexists. split; [reflexivity|].
    destruct Hwf as (Hkeys & Hnd & Hnames). unfold well_formed.
    rewrite reset_counter_keys, reset_counter_configs. now repeat split.
  - eexists. split; [reflexivity|].
    destruct Hwf as (Hkeys & Hnd & Hnames). unfold well_formed.
    rewrite reset_all_counters_keys. now repeat split.
Qed.

Lemma run_operations_well_formed (ops : list (operation Rule Fn)) :
  forall m : CounterManager Rule Fn,
    well_formed m ->
    exists m', run_operations evaluate ops m = Some m' /\ well_formed m'.
Proof.
  induction ops as [|op ops IH]; intros m Hwf; cbn [run_operations].
  - now exists m.
  - destruct (@apply_operation_well_formed op m Hwf) as (m1 & Hrun & Hwf1).
    rewrite Hrun. now apply IH.
Qed.

Lemma matching_name_matches (text key : string) (m : CounterManager Rule Fn) :
  In key (matching_names evaluate text m) -> matches evaluate text key m = true.
Proof. unfold matching_names. intros H. now apply filter_In in H. Qed.

(** X21: on a manager whose dicts agree, [process_text] raises no
    [KeyError]; it adds one to the counter of every registered name whose
    rule the text satisfies and leaves every other counter as it is.  No
    counter is added, removed or moved, and the dicts still agree. *)
Theorem process_text_counts_each_match_once (text : string) (m : CounterManager Rule Fn) :
  well_formed m ->
  exists m' incremented calls,
    process_text evaluate text m = Some (m', incremented, calls) /\
    well_formed m' /\
    keys (get_all_counters m') = keys (get_all_counters m) /\
    forall key,
      get_counter key m' =
      (get_counter key m + if matches evaluate text key m then 1 else 0)%Z.
Proof.
  intros Hwf. destruct (@process_text_spec text m Hwf) as (cnt' & Hrun & Hk & Hv).
  do 3 eexists. split; [exact Hrun|].
  destruct Hwf as (Hkeys & Hnd & Hnames). split; [|split].
  - unfold well_formed. cbn [configs counters]. rewrite Hk. now repeat split.
  - exact Hk.
  - exact Hv.
Qed.

(** X22: the dict [process_text] returns lists exactly the names whose rule
    the text satisfies, in registration order, each with the new value of
    its counter; the callbacks are called in the same order, once for each
    such name that has one, with the name and the new value. *)
Theorem process_text_reports_in_registration_order (text : string)
  (m m' : CounterManager Rule Fn) (incremented : list (string * Z)) (calls : list (Fn * string * Z)) :
  well_formed m ->
  process_text evaluate text m = Some (m', incremented, calls) ->
  incremented =
    map (fun key => (key, get_counter key m')) (matching_names evaluate text m) /\
  calls =
    flat_map (fun key => match dict_get key (callbacks m) with
                         | Some fn => [(fn, key, get_counter key m')]
                         | None => []
                         end)
             (matching_names evaluate text m).
Proof.
  intros Hwf Hrun.
  destruct (@process_text_spec text m Hwf) as (cnt' & Hspec & _ & Hv).
  rewrite Hspec in Hrun. inversion Hrun; subst. clear Hrun.
  assert (Hnew : forall key, In key (matching_names evaluate text m) ->
            (get_counter key m + 1)%Z =
            get_counter key {| configs := configs m; counters := cnt';
                               callbacks := callbacks m |}).
  { intros key Hin. symmetry.
    change (value_of key cnt' = (get_counter key m + 1)%Z).
    now rewrite Hv, (matching_name_matches _ _ _ Hin). }
  split.
  - apply map_ext_in. intros key Hin. now rewrite (Hnew key Hin).
  - rewrite !flat_map_concat_map. f_equal. apply map_ext_in.
    intros key Hin. now rewrite (Hnew key Hin).
Qed.

(** X23: a manager used only through its methods never raises the
    [KeyError] of [process_text]: after any sequence of [add_counter],
    [process_text], [reset_counter] and [reset_all_counters] on a new
    manager, the configurations and the counters have the same names in the
    same order, each once, and the next [process_text] returns. *)
Theorem api_use_never_raises (ops : list (operation Rule Fn)) (text : string) :
  exists m,
    run_operations evaluate ops (empty Rule Fn) = Some m /\
    well_formed m /\
    process_text evaluate text m <> None.
Proof.
  destruct (@run_operations_well_formed ops (empty Rule Fn) empty_well_formed)
    as (m & Hrun & Hwf).
  exists m. split; [exact Hrun|]. split; [exact Hwf|].
  destruct (@process_text_spec text m Hwf) as (cnt' & Hspec & _).
  rewrite Hspec. discriminate.
Qed.

(** X24: [add_counter] sets the counter of the configuration's name to zero
    and touches no other counter.  A new name goes to the end; a name that
    is already registered keeps its place and gets the new rule.  The
    callback of the name is the new one if the configuration has one, and
    the one registered before otherwise. *)
Theorem add_counter_sets_one_counter_to_zero (config : CounterConfig Rule Fn) (m : CounterManager Rule Fn) :
  get_counter (name config) (add_counter config m) = 0%Z /\
  (forall key, key <> name config ->
     get_counter key (add_counter config m) = get_counter key m) /\
  keys (get_all_counters (add_counter config m)) =
    match dict_get (name config) (get_all_counters m) with
    | Some _ => keys (get_all_counters m)
    | None => keys (get_all_counters m) ++ [name config]
    end /\
  (forall text,
     matches evaluate text (name config) (add_counter config m) =
     evaluate text (rule config)) /\
  dict_get (name config) (callbacks (add_counter config m)) =
    match callback config with
    | Some fn => Some fn
    | None => dict_get (name config) (callbacks m)
    end.
Proof.
  unfold get_counter, get_all_counters, add_counter, matches. cbn [counters configs callbacks].
  repeat split.
  - now rewrite dict_get_set_same.
  - intros key Hne. now rewrite dict_get_set_other.
  - apply keys_dict_set.
  - intros text. now rewrite dict_get_set_same.
  - destruct (callback config); [apply dict_get_set_same|reflexivity].
Qed.

(** X25: registering a name again without a callback does not remove the
    callback of the earlier registration: the next text that satisfies the
    new rule calls the old callback, with the count starting again at 1. *)
Theorem earlier_callback_outlives_reregistration (config : CounterConfig Rule Fn) (m : CounterManager Rule Fn)
  (fn : Fn) (text : string) :
  well_formed m ->
  dict_get (name config) (callbacks m) = Some fn ->
  callback config = None ->
  evaluate text (rule config) = true ->
  exists m' incremented calls,
    process_text evaluate text (add_counter config m) = Some (m', incremented, calls) /\
    In (fn, name config, 1%Z) calls /\
    get_counter (name config) m' = 1%Z.
Proof.
  intros Hwf Hfn Hcb Hev.
  pose proof (add_counter_well_formed config Hwf) as Hwf1.
  destruct (@process_text_spec text (add_counter config m) Hwf1)
    as (cnt' & Hrun & _ & Hv).
  assert (Hcfg : dict_get (name config) (configs (add_counter config m)) = Some config)
    by apply dict_get_set_same.
  assert (Hm : matches evaluate text (name config) (add_counter config m) = true).
  { unfold matches. now rewrite Hcfg. }
  assert (H0 : get_counter (name config) (add_counter config m) = 0%Z).
  { unfold get_counter, add_counter. cbn [counters]. now rewrite dict_get_set_same. }
  do 3 eexists. split; [exact Hrun|]. split.
  - apply in_flat_map. exists (name config). split.
    + unfold matching_names. apply filter_In. split; [|exact Hm].
      destruct (in_dec string_dec (name config) (keys (configs (add_counter config m))))
        as [Hin|Hout]; [exact Hin|].
      apply dict_get_None in Hout. congruence.
    + unfold add_counter at 1. cbn [callbacks]. rewrite Hcb, Hfn, H0. now left.
  - rewrite get_counter_value. cbn [counters]. now rewrite Hv, Hm, H0.
Qed.

(** X26: [reset_counter] sets the named counter to zero and leaves the
    others; for a name that has no counter it changes nothing and adds none.
    [reset_all_counters] sets every counter to zero.  Neither adds, removes
    or moves a counter, and neither touches the rules or the callbacks. *)
Theorem resets_zero_counters_and_keep_their_names (key : string) (m : CounterManager Rule Fn) :
  (forall k, get_counter k (reset_counter key m) =
             if String.eqb k key then 0%Z else get_counter k m) /\
  keys (get_all_counters (reset_counter key m)) = keys (get_all_counters m) /\
  (dict_get key (get_all_counters m) = None -> reset_counter key m = m) /\
  (forall k, get_counter k (reset_all_counters m) = 0%Z) /\
  keys (get_all_counters (reset_all_counters m)) = keys (get_all_counters m) /\
  configs (reset_counter key m) = configs m /\
  callbacks (reset_counter key m) = callbacks m /\
  configs (reset_all_counters m) = configs m /\
  callbacks (reset_all_counters m) = callbacks m.
Proof.
  split; [|split; [apply reset_counter_keys|split; [|split; [|split]]]].
  - intros k. rewrite !get_counter_value. unfold reset_counter.
    destruct (dict_get key (counters m)) eqn:E.
    + cbn [counters]. apply value_of_set.
    + destruct (String.eqb_spec k key) as [->|_]; [|reflexivity].
      unfold value_of. now rewrite E.
  - unfold reset_counter, get_all_counters. now intros ->.
  - intros k. rewrite get_counter_value. unfold reset_all_counters. cbn [counters].
    destruct (in_dec string_dec k (keys (counters m))) as [Hin|Hout].
    + now apply value_reset_fold_in.
    + rewrite (@value_reset_fold_out k _ _ Hout). unfold value_of.
      apply dict_get_None in Hout. now rewrite Hout.
  - apply reset_all_counters_keys.
  - unfold reset_counter. destruct (dict_get key (counters m)); repeat split.
Qed.

End ManagerProperties.

Lemma process_text_counts_each_match_once_witness :
  let m := add_counter (mkCounterConfig "um"%string "um"%string ""%string (Some 7%nat))
             (empty string nat) in
  exists m' incremented calls,
    process_text String.eqb "um" m = Some (m', incremented, calls) /\
    get_counter "um" m' = 1%Z.
Proof.
  intros m.
  destruct (@process_text_counts_each_match_once string nat String.eqb "um"%string m)
    as (m' & inc & calls & Hrun & _ & _ & Hv).
  { unfold well_formed. cbn. repeat split; repeat constructor. intros []. }
  exists m', inc, calls. split; [exact Hrun|]. rewrite (Hv "um"%string). reflexivity.
Defined.

Lemma process_text_reports_in_registration_order_witness :
  let m := add_counter (mkCounterConfig "so"%string "um"%string ""%string None)
             (add_counter (mkCounterConfig "um"%string "um"%string ""%string (Some 7%nat))
                (empty string nat)) in
  let m' := mkManager (configs m) [("um"%string, 1%Z); ("so"%string, 1%Z)] (callbacks m) in
  [("um"%string, 1%Z); ("so"%string, 1%Z)] =
    map (fun key => (key, get_counter key m')) (matching_names String.eqb "um" m) /\
  [(7%nat, "um"%string, 1%Z)] =
    flat_map (fun key => match dict_get key (callbacks m) with
                         | Some fn => [(fn, key, get_counter key m')]
                         | None => []
                         end)
             (matching_names String.eqb "um" m).
Proof.
  intros m m'.
  apply (@process_text_reports_in_registration_order string nat String.eqb
           "um"%string m m').
  - unfold well_formed. cbn. repeat split; repeat constructor.
    + intros [H|[]]. discriminate H.
    + intros [].
  - reflexivity.
Defined.

Lemma earlier_callback_outlives_reregistration_witness :
  let m := add_counter (mkCounterConfig "um"%string "um"%string ""%string (Some 7%nat))
             (empty string nat) in
  let config := mkCounterConfig "um"%string "er"%string ""%string None in
  exists m' incremented calls,
    process_text String.eqb "er" (add_counter config m) = Some (m', incremented, calls) /\
    In (7%nat, "um"%string, 1%Z) calls /\
    get_counter "um" m' = 1%Z.
Proof.
  intros m config.
  apply (@earlier_callback_outlives_reregistration string nat String.eqb config m
           7%nat "er"%string); try reflexivity.
  unfold well_formed. cbn. repeat split; repeat constructor. intros [].
Defined.

End CounterExtra.
